(** * Trip-leg construction (thor/triplegbuilder.cc): a shallow embedding

    The development follows the source file function by function:
    [GetAdminIndex], [AssignAdmins], [SetShapeAttributes], [RemovePathEdges],
    [CopyLocations], [AddTripEdge], [AccumulateRecostingInfoForward] and
    [Build].  Unsigned 32-bit quantities are integers reduced modulo 2^32,
    optional protobuf fields are [option]s, repeated fields are lists, and a
    dereference of a null tile or a read past the end of a range makes the
    modelled function return [None]. *)

From Stdlib Require Import ZArith Lia Bool.
From Stdlib Require QArith.
From stdpp Require Import base option list gmap strings.

Local Open Scope Z_scope.
Set Warnings "-clear-no-such-hyp".

(** ** Machine integers *)

Definition wrap32 (z : Z) : Z := z mod 2 ^ 32.

Definition GraphId := Z.

(** ** Admin descriptors

    [AdminInfo] compares field by field, which is Leibniz equality on the
    record below. *)

Record AdminInfo := mkAdminInfo {
  country_text : string;
  state_text : string;
  country_iso : string;
  state_iso : string
}.

#[global] Instance AdminInfo_eq_dec : EqDecision AdminInfo.
Proof. solve_decision. Defined.

#[global] Instance AdminInfo_countable : Countable AdminInfo.
Proof.
  refine (inj_countable'
            (fun a => (country_text a, state_text a, country_iso a, state_iso a))
            (fun t => match t with (c, s, ci, si) => mkAdminInfo c s ci si end) _).
  by intros [].
Defined.

(** [GetAdminIndex], lines 57-82: the map and the list are passed by
    reference in the source and returned here. *)
Definition GetAdminIndex (admin_info : AdminInfo)
    (admin_info_map : gmap AdminInfo Z) (admin_info_list : list AdminInfo)
  : Z * gmap AdminInfo Z * list AdminInfo :=
  match admin_info_map !! admin_info with
  | None =>
      let admin_index := wrap32 (Z.of_nat (length admin_info_list)) in
      (admin_index, <[admin_info := admin_index]> admin_info_map,
       admin_info_list ++ [admin_info])
  | Some existing_admin => (existing_admin, admin_info_map, admin_info_list)
  end.

(** A sequence of references, interned one after the other from a given
    state; the indices handed out are collected in order. *)
Fixpoint intern_from (refs : list AdminInfo)
    (m : gmap AdminInfo Z) (l : list AdminInfo)
  : list Z * gmap AdminInfo Z * list AdminInfo :=
  match refs with
  | [] => ([], m, l)
  | a :: refs' =>
      let '(i, m', l') := GetAdminIndex a m l in
      let '(idxs, m'', l'') := intern_from refs' m' l' in
      (i :: idxs, m'', l'')
  end.

Definition intern_seq (refs : list AdminInfo) := intern_from refs ∅ [].

(** The descriptors of a sequence in order of first reference. *)
Fixpoint first_refs (refs : list AdminInfo) : list AdminInfo :=
  match refs with
  | [] => []
  | a :: refs' => a :: filter (fun b => b ≠ a) (first_refs refs')
  end.

(** ** Numbers and geometry

    [float] and [double] values are kept abstract: the builder only combines
    them with the operations below, and the statements proved here hold for
    every interpretation of these operations.  Geometry ([PointLL], the shape
    trimmer of midgard) is external to the file and abstract as well. *)

Class Arith (number : Type) := {
  n_add : number -> number -> number;
  n_sub : number -> number -> number;
  n_mul : number -> number -> number;
  n_div : number -> number -> number;
  n_abs : number -> number;
  n_max : number -> number -> number;
  n_round : number -> number;
  n_ltb : number -> number -> bool;
  n_leb : number -> number -> bool;
  n_of_Z : Z -> number;
  (** the constant literals of the source *)
  n_lit : string -> number;
  (** conversion to an unsigned 32-bit protobuf field *)
  n_to_uint32 : number -> Z;
  (** the value of a [float] read before it was ever written *)
  n_indeterminate : number
}.

Class Geometry (number PointLL : Type) := {
  Distance : PointLL -> PointLL -> number;
  PointAlongSegment : PointLL -> PointLL -> number -> PointLL;
  mkPointLL : number -> number -> PointLL;
  pt_lat : PointLL -> number;
  pt_lng : PointLL -> number;
  PointLL_default : PointLL;
  trim_shape :
    number -> PointLL -> number -> PointLL -> list PointLL -> list PointLL
}.

Declare Scope num_scope.
Delimit Scope num_scope with num.
Infix "+" := n_add : num_scope.
Infix "-" := n_sub : num_scope.
Infix "*" := n_mul : num_scope.
Infix "/" := n_div : num_scope.
Infix "<?" := n_ltb : num_scope.
Infix "<=?" := n_leb : num_scope.

(** ** Ranges

    [std::find_if] over a range: the position of the first element that
    satisfies the predicate, the length of the range when there is none. *)
Fixpoint find_if {A : Type} (p : A -> bool) (l : list A) : nat :=
  match l with
  | [] => O
  | x :: l' => if p x then O else S (find_if p l')
  end.

(** ** Strings

    A [std::string] is the list of its characters.  [split], lines 35-43:
    [std::getline] reads up to the next delimiter, which it consumes, or up
    to the end of the source; a read that finds the source exhausted
    extracts nothing, fails and ends the loop, so that a source ending in
    the delimiter has no empty last token.  [token] holds the characters
    read since the last delimiter. *)
Fixpoint split_tokens (token source : list Ascii.ascii) (delimiter : Ascii.ascii)
  : list (list Ascii.ascii) :=
  match source with
  | [] => if decide (token = []) then [] else [token]
  | c :: source' =>
      if decide (c = delimiter)
      then token :: split_tokens [] source' delimiter
      else split_tokens (token ++ [c]) source' delimiter
  end.

Definition split (source : list Ascii.ascii) (delimiter : Ascii.ascii) : list (list Ascii.ascii) :=
  split_tokens [] source delimiter.

(** The tokens put together again, with the delimiter between them. *)
Fixpoint join (delimiter : Ascii.ascii) (tokens : list (list Ascii.ascii)) : list Ascii.ascii :=
  match tokens with
  | [] => []
  | token :: tokens' =>
      match tokens' with
      | [] => token
      | _ :: _ => token ++ delimiter :: join delimiter tokens'
      end
  end.

Section Builder.

Context {number PointLL : Type} `{!Arith number} `{!Geometry number PointLL}.

(** ** Request locations *)

Inductive SideOfStreet := kNoneSide | kLeft | kRight.

Record PathEdge := mkPathEdge {
  graph_id : Z;
  percent_along : number;
  pe_side_of_street : SideOfStreet;
  pe_lat : number;
  pe_lng : number
}.

Record Location := mkLocation {
  path_edges : list PathEdge;
  date_time : option string;
  side_of_street : option SideOfStreet;
  projected_ll : option (number * number)
}.

Definition set_path_edges (location : Location) (pes : list PathEdge) : Location :=
  {| path_edges := pes;
     date_time := date_time location;
     side_of_street := side_of_street location;
     projected_ll := projected_ll location |}.

(** [RepeatedPtrField::SwapElements] and [DeleteSubrange]. *)
Definition SwapElements {A : Type} (i j : nat) (l : list A) : list A :=
  match l !! i, l !! j with
  | Some x, Some y => <[j := x]> (<[i := y]> l)
  | _, _ => l
  end.

Definition DeleteSubrange {A : Type} (start num : nat) (l : list A) : list A :=
  take start l ++ drop (start + num) l.

(** [RemovePathEdges], lines 218-229. *)
Definition RemovePathEdges (location : Location) (edge_id : GraphId) : Location :=
  let pos := find_if (fun e => bool_decide (graph_id e = edge_id)) (path_edges location) in
  if decide (pos = length (path_edges location)) then
    set_path_edges location []
  else if decide (1 < length (path_edges location))%nat then
    let swapped := SwapElements 0 pos (path_edges location) in
    set_path_edges location
      (DeleteSubrange 1 (length (path_edges location) - 1) swapped)
  else location.

(** ** Path steps *)

Inductive TravelMode := kDrive | kPedestrian | kBicycle | kPublicTransit.

Record Cost := mkCost { secs : number; cost : number }.

Record PathInfo := mkPathInfo {
  edgeid : GraphId;
  mode : TravelMode;
  trip_id : Z;
  elapsed_cost : Cost;
  transition_cost : Cost;
  restriction_index : Z
}.

(** [CopyLocations], lines 234-266.  The path range [path_begin, path_end)
    is the list [path]; the iterator [pe] is a position in it. *)
Definition through_ids (through : Location) : gset Z :=
  list_to_set (graph_id <$> path_edges through).

Definition scan_through (path : list PathInfo) (pe : nat) (through : Location) : nat :=
  (pe + find_if (fun pi => bool_decide (edgeid pi ∈ through_ids through)) (drop pe path))%nat.

(** The call [RemovePathEdges(location, pe->edgeid)] of lines 243, 260 and
    265.  The edge id is passed by reference and is read in the predicate of
    the search of lines 219-222, once for every candidate of the location.
    At a position outside the range there is nothing to read, and the call
    yields [None]; but a location without candidates has the predicate
    never called, so that nothing is read and line 224 clears a list that is
    empty already. *)
Definition RemovePathEdges_at (location : Location) (path : list PathInfo)
    (pe : nat) : option Location :=
  match path !! pe with
  | Some pi => Some (RemovePathEdges location (edgeid pi))
  | None =>
      match path_edges location with
      | [] => Some (set_path_edges location [])
      | _ :: _ => None
      end
  end.

Fixpoint copy_throughs (path : list PathInfo) (pe : nat) (throughs : list Location)
  : option (list Location) :=
  match throughs with
  | [] => Some []
  | through :: throughs' =>
      let found := scan_through path pe through in
      tp_through ← RemovePathEdges_at through path found;
      rest ← copy_throughs path found throughs';
      Some (tp_through :: rest)
  end.

Definition CopyLocations (locations : list Location)
    (origin : Location) (throughs : list Location) (dest : Location)
    (path : list PathInfo) : option (list Location) :=
  tp_orig ← RemovePathEdges_at origin path O;
  let locations := locations ++ [tp_orig] in
  tps ← copy_throughs path O throughs;
  let locations := locations ++ tps in
  tp_dest ← RemovePathEdges_at dest path (length path - 1)%nat;
  Some (locations ++ [tp_dest]).

(** ** The attribute controller

    The keys of [AttributesController::attributes] form a closed
    enumeration; [attributes.at(key)] is the lookup of a key that is always
    present.  The category queries are part of the controller. *)

Inductive Attr :=
| kAdminCountryCode | kAdminCountryText | kAdminStateCode | kAdminStateText
| kEdgeBeginHeading | kEdgeBeginShapeIndex | kEdgeBicycleNetwork
| kEdgeBicycleType | kEdgeBridge | kEdgeCycleLane | kEdgeDefaultSpeed
| kEdgeDensity | kEdgeDestinationOnly | kEdgeDriveOnRight | kEdgeEndHeading
| kEdgeEndShapeIndex | kEdgeId | kEdgeInternalIntersection
| kEdgeLaneConnectivity | kEdgeLaneCount | kEdgeLength
| kEdgeMaxDownwardGrade | kEdgeMaxUpwardGrade | kEdgeMeanElevation
| kEdgeNames | kEdgePedestrianType | kEdgeRoadClass | kEdgeRoundabout
| kEdgeSidewalk | kEdgeSignExitBranch | kEdgeSignExitName
| kEdgeSignExitNumber | kEdgeSignExitToward | kEdgeSignGuidanceViewJunction
| kEdgeSignGuideBranch | kEdgeSignGuideToward | kEdgeSignJunctionName
| kEdgeSpeed | kEdgeSpeedLimit | kEdgeSurface | kEdgeToll
| kEdgeTransitRouteInfoBlockId | kEdgeTransitRouteInfoColor
| kEdgeTransitRouteInfoDescription | kEdgeTransitRouteInfoHeadsign
| kEdgeTransitRouteInfoLongName | kEdgeTransitRouteInfoOnestopId
| kEdgeTransitRouteInfoOperatorName | kEdgeTransitRouteInfoOperatorOnestopId
| kEdgeTransitRouteInfoOperatorUrl | kEdgeTransitRouteInfoShortName
| kEdgeTransitRouteInfoTextColor | kEdgeTransitRouteInfoTripId
| kEdgeTransitType | kEdgeTravelMode | kEdgeTraversability | kEdgeTruckRoute
| kEdgeTruckSpeed | kEdgeTunnel | kEdgeUnpaved | kEdgeUse | kEdgeVehicleType
| kEdgeWayId | kEdgeWeightedGrade
| kNodeElapsedTime | kNodeFork | kNodeTimeZone | kNodeTransitionTime
| kNodeType | kNodeaAdminIndex
| kOsmChangeset | kShape
| kShapeAttributesLength | kShapeAttributesSpeed | kShapeAttributesTime.

Inductive Category := kAdminCategory | kShapeAttributesCategory.

Record AttributesController := mkController {
  attributes : Attr -> bool;
  category_attribute_enabled : Category -> bool
}.

(** ** Constants of baldr and sif that the file uses but does not define *)

Class Constants := {
  kAutoAccess : Z;
  kPedestrianAccess : Z;
  kBicycleAccess : Z;
  kAllAccess : Z;
  kCurrentFlowMask : Z;
  UNKNOWN_TRAFFIC_SPEED_RAW : Z;
  kInvalidGraphId : Z;
  kNoElevationData : Z;
  (** [GraphId::id()], the index of an edge or node within its tile *)
  GraphId_id : GraphId -> Z
}.

Context `{!Constants}.

Definition kSecondsPerDay : Z := 86400.

Definition Is_Valid (id : GraphId) : bool := negb (bool_decide (id = kInvalidGraphId)).

(** ** Graph tiles *)

Inductive Use := kSteps | kRail | kBus | kPlatformConnection | kOtherUse (code : Z).

Inductive CycleLane := CycleLane_kNone | CycleLane_kind (code : Z).

Inductive SignType :=
| kExitNumber | kExitBranch | kExitToward | kExitName
| kGuideBranch | kGuideToward | kJunctionName | kGuidanceViewJunction.

#[global] Instance Use_eq_dec : EqDecision Use.
Proof. solve_decision. Defined.
#[global] Instance CycleLane_eq_dec : EqDecision CycleLane.
Proof. solve_decision. Defined.
#[global] Instance SignType_eq_dec : EqDecision SignType.
Proof. solve_decision. Defined.
#[global] Instance TravelMode_eq_dec : EqDecision TravelMode.
Proof. solve_decision. Defined.

Record SignInfo := mkSignInfo {
  sign_type : SignType;
  sign_text : string;
  is_route_num : bool
}.

Record DirectedEdge := mkDirectedEdge {
  de_length : Z;
  endnode : GraphId;
  forward : bool;
  opp_index : Z;
  opp_local_idx : Z;
  localedgeidx : Z;
  leaves_tile : bool;
  classification : Z;
  de_use : Use;
  forwardaccess : Z;
  reverseaccess : Z;
  toll : bool;
  unpaved : bool;
  tunnel : bool;
  bridge : bool;
  roundabout : bool;
  internal : bool;
  destonly : bool;
  dismount : bool;
  truck_route : bool;
  bike_network : Z;
  cyclelane : CycleLane;
  sidewalk_left : bool;
  sidewalk_right : bool;
  de_speed : Z;
  truck_speed : Z;
  weighted_grade : Z;
  max_up_slope : Z;
  max_down_slope : Z;
  lanecount : Z;
  density : Z;
  surface : Z;
  edgeinfo_offset : Z;
  de_sign : bool;
  de_turnlanes : bool;
  laneconnectivity : bool;
  access_restriction : bool;
  end_restriction : bool;
  lineid : Z
}.

(** [DirectedEdge::IsTransitLine]. *)
Definition IsTransitLine (de : DirectedEdge) : bool :=
  bool_decide (de_use de = kRail) || bool_decide (de_use de = kBus).

Record NodeInfo := mkNodeInfo {
  node_type : Z;
  is_fork : bool;
  ni_admin_index : Z;
  timezone : Z;
  edge_index : Z;
  drive_on_right : bool;
  named_intersection : bool;
  is_transit : bool
}.

Record EdgeInfo := mkEdgeInfo {
  GetNamesAndTypes : list (string * bool);
  wayid : Z;
  mean_elevation : Z;
  speed_limit : Z;
  shape : list PointLL
}.

Record TrafficSpeed := mkTrafficSpeed {
  breakpoint1 : Z;
  breakpoint2 : Z;
  speed3 : Z
}.

Record LaneConnectivity := mkLaneConnectivity {
  lc_from : Z;
  lc_to_lanes : string;
  lc_from_lanes : string
}.

Record AccessRestriction := mkAccessRestriction {
  ar_type : Z;
  ar_modes : Z;
  ar_value : Z
}.

Record TransitDeparture := mkTransitDeparture {
  headsign_offset : Z;
  routeid : Z;
  blockid : Z
}.

Record TransitRoute := mkTransitRoute {
  route_type : Z;
  one_stop_offset : Z;
  short_name_offset : Z;
  long_name_offset : Z;
  route_color : Z;
  route_text_color : Z;
  desc_offset : Z;
  op_by_onestop_id_offset : Z;
  op_by_name_offset : Z;
  op_by_website_offset : Z
}.

(** A tile as the builder sees it.  Accessors that throw on an index out of
    range return [None]. *)
Record GraphTile := mkGraphTile {
  tile_directededge : GraphId -> option DirectedEdge;
  directededge_at : Z -> option DirectedEdge;
  node : GraphId -> option NodeInfo;
  admininfo : Z -> option AdminInfo;
  edgeinfo : Z -> EdgeInfo;
  GetSigns : Z -> bool -> list SignInfo;
  turnlanes : Z -> list Z;
  GetLaneConnectivity : Z -> list LaneConnectivity;
  GetAccessRestrictions : Z -> Z -> list AccessRestriction;
  trafficspeed : DirectedEdge -> TrafficSpeed;
  has_elevation : bool;
  dataset_id : Z;
  GetTransitDeparture : Z -> Z -> Z -> option TransitDeparture;
  GetTransitRoute : Z -> option TransitRoute;
  GetName : Z -> string;
  GetOpposingEdgeId : DirectedEdge -> GraphId
}.

(** The reader: a tile lookup that may find nothing, and the two helpers of
    [GraphReader] that the builder calls.  The lookup with a tile hint,
    [GetGraphTile(id, hint)], answers as the plain lookup does and is the
    same function here.  [GetOpposingEdge] also hands back the tile of the
    opposing edge. *)
Record GraphReader := mkGraphReader {
  GetGraphTile : GraphId -> option GraphTile;
  GetOpposingEdge : GraphId -> option (DirectedEdge * GraphTile);
  nodeinfo : GraphId -> option NodeInfo
}.

(** A costing; [EdgeCost] may throw (transit edges). *)
Record DynamicCost := mkDynamicCost {
  EdgeCost : DirectedEdge -> GraphTile -> Z -> option Cost;
  access_mode : Z;
  flow_mask : Z;
  travel_type : Z
}.

(** ** The leg under construction *)

Inductive TripLeg_Traversability :=
| TripLeg_Traversability_kNone
| TripLeg_Traversability_kForward
| TripLeg_Traversability_kBackward
| TripLeg_Traversability_kBoth.

Inductive TripLeg_TravelMode :=
| TripLeg_TravelMode_kDrive
| TripLeg_TravelMode_kPedestrian
| TripLeg_TravelMode_kBicycle
| TripLeg_TravelMode_kTransit.

Inductive TripLeg_PedestrianType :=
| TripLeg_PedestrianType_kFoot
| GetTripLegPedestrianType (travel_type : Z).

Inductive TripLeg_Sidewalk :=
| TripLeg_Sidewalk_kBothSides | TripLeg_Sidewalk_kLeft | TripLeg_Sidewalk_kRight.

(** One entry of a sign list: the text and [is_route_number]. *)
Definition SignElement : Type := string * bool.

Record TripLeg_Sign := mkTripLegSign {
  exit_numbers : list SignElement;
  exit_onto_streets : list SignElement;
  exit_toward_locations : list SignElement;
  exit_names : list SignElement;
  guide_onto_streets : list SignElement;
  guide_toward_locations : list SignElement;
  guidance_view_junctions : list SignElement;
  junction_names : list SignElement
}.

Record TripLeg_TransitRouteInfo := mkTransitRouteInfo {
  tri_block_id : option Z;
  tri_trip_id : option Z;
  tri_headsign : option string;
  tri_onestop_id : option string;
  tri_short_name : option string;
  tri_long_name : option string;
  tri_color : option Z;
  tri_text_color : option Z;
  tri_description : option string;
  tri_operator_onestop_id : option string;
  tri_operator_name : option string;
  tri_operator_url : option string
}.

(** The enumerations of the leg that are images of baldr enumerations under
    the external [GetTripLeg...] conversions are kept as the baldr value. *)
Record TripLeg_Edge := mkTripLegEdge {
  name : list (string * bool);
  sign : option TripLeg_Sign;
  turn_lanes : list Z;
  road_class : option Z;
  speed : option number;
  traversability : option TripLeg_Traversability;
  lane_connectivity : list LaneConnectivity;
  restriction : option Z;
  has_time_restrictions : option bool;
  use : option Use;
  e_toll : option bool;
  e_unpaved : option bool;
  e_tunnel : option bool;
  e_bridge : option bool;
  e_roundabout : option bool;
  internal_intersection : option bool;
  e_drive_on_right : option bool;
  e_surface : option Z;
  destination_only : option bool;
  travel_mode : option TripLeg_TravelMode;
  pedestrian_type : option TripLeg_PedestrianType;
  bicycle_type : option Z;
  vehicle_type : option Z;
  id : option Z;
  way_id : option Z;
  e_weighted_grade : option number;
  max_upward_grade : option Z;
  max_downward_grade : option Z;
  e_mean_elevation : option Z;
  lane_count : option Z;
  cycle_lane : option CycleLane;
  bicycle_network : option Z;
  sidewalk : option TripLeg_Sidewalk;
  e_density : option Z;
  e_speed_limit : option Z;
  default_speed : option Z;
  e_truck_speed : option Z;
  e_truck_route : option bool;
  transit_route_info : option TripLeg_TransitRouteInfo;
  transit_type : option Z;
  (* written by Build after the edge has been assembled *)
  length_km : option number;
  begin_shape_index : option Z;
  end_shape_index : option Z;
  begin_heading : option number;
  end_heading : option number
}.

(** ** AddTripEdge, lines 407-1045 *)

(** [value & mask] used as a condition. *)
Definition has_access (access kAccess : Z) : bool :=
  negb (Z.land access kAccess =? 0).

(** Lines 568-575. *)
Definition access_mask (mode : TravelMode) : Z :=
  if decide (mode = kBicycle) then kBicycleAccess
  else if decide (mode = kDrive) then kAutoAccess
  else if bool_decide (mode = kPedestrian) || bool_decide (mode = kPublicTransit)
  then kPedestrianAccess
  else 0.

(** Lines 577-608, without the controller test. *)
Definition edge_traversability (directededge : DirectedEdge) (kAccess : Z)
  : TripLeg_Traversability :=
  let f := has_access (forwardaccess directededge) kAccess in
  let r := has_access (reverseaccess directededge) kAccess in
  if forward directededge then
    if f && r then TripLeg_Traversability_kBoth
    else if f && negb r then TripLeg_Traversability_kForward
    else if negb f && r then TripLeg_Traversability_kBackward
    else TripLeg_Traversability_kNone
  else
    if f && r then TripLeg_Traversability_kBoth
    else if negb f && r then TripLeg_Traversability_kForward
    else if f && negb r then TripLeg_Traversability_kBackward
    else TripLeg_Traversability_kNone.

(** The signs of one type, as the loop over the tile's signs appends them. *)
Definition signs_of (controller : AttributesController) (key : Attr)
    (ty : SignType) (signs : list SignInfo) : list SignElement :=
  if attributes controller key then
    (fun s => (sign_text s, is_route_num s)) <$>
      filter (fun s => sign_type s = ty) signs
  else [].

(** Lines 449-540: the sign block exists as soon as the edge or the node
    has signs, whatever the controller says about the individual lists. *)
Definition edge_sign_block (controller : AttributesController)
    (directededge : DirectedEdge) (graphtile : GraphTile) (idx : Z)
    (start_node_idx : Z) (has_junction_name : bool)
    (start_tile : option GraphTile) : option TripLeg_Sign :=
  let edge_signs := if de_sign directededge then GetSigns graphtile idx false else [] in
  let node_signs :=
    match start_tile with
    | Some t => if has_junction_name then GetSigns t start_node_idx true else []
    | None => []
    end in
  if bool_decide (edge_signs = []) && bool_decide (node_signs = []) then None
  else Some {|
    exit_numbers := signs_of controller kEdgeSignExitNumber kExitNumber edge_signs;
    exit_onto_streets := signs_of controller kEdgeSignExitBranch kExitBranch edge_signs;
    exit_toward_locations := signs_of controller kEdgeSignExitToward kExitToward edge_signs;
    exit_names := signs_of controller kEdgeSignExitName kExitName edge_signs;
    guide_onto_streets := signs_of controller kEdgeSignGuideBranch kGuideBranch edge_signs;
    guide_toward_locations := signs_of controller kEdgeSignGuideToward kGuideToward edge_signs;
    guidance_view_junctions :=
      signs_of controller kEdgeSignGuidanceViewJunction kGuidanceViewJunction edge_signs;
    junction_names := signs_of controller kEdgeSignJunctionName kJunctionName node_signs
  |}.

(** A name of the tile behind an offset, when the attribute is requested
    and the offset is set. *)
Definition name_if (controller : AttributesController) (key : Attr)
    (graphtile : GraphTile) (offset : Z) : option string :=
  if attributes controller key && negb (offset =? 0)
  then Some (GetName graphtile offset) else None.

Definition flag_if (controller : AttributesController) (key : Attr) (flag : bool)
  : option bool :=
  if flag && attributes controller key then Some true else None.

Definition value_if {A : Type} (controller : AttributesController) (key : Attr)
    (v : A) : option A :=
  if attributes controller key then Some v else None.

(** Lines 950-1042. *)
Definition edge_transit_route_info (controller : AttributesController)
    (trip_id block_id : Z) (graphtile : GraphTile)
    (transit_departure : option TransitDeparture)
    (transit_route : option TransitRoute) : TripLeg_TransitRouteInfo :=
  let of_route {A} (f : TransitRoute -> option A) : option A :=
    transit_route ≫= f in
  {| tri_block_id := value_if controller kEdgeTransitRouteInfoBlockId block_id;
     tri_trip_id := value_if controller kEdgeTransitRouteInfoTripId trip_id;
     tri_headsign :=
       transit_departure ≫= fun d =>
         name_if controller kEdgeTransitRouteInfoHeadsign graphtile (headsign_offset d);
     tri_onestop_id :=
       of_route (fun r =>
         name_if controller kEdgeTransitRouteInfoOnestopId graphtile (one_stop_offset r));
     tri_short_name :=
       of_route (fun r =>
         name_if controller kEdgeTransitRouteInfoShortName graphtile (short_name_offset r));
     tri_long_name :=
       of_route (fun r =>
         name_if controller kEdgeTransitRouteInfoLongName graphtile (long_name_offset r));
     tri_color :=
       of_route (fun r => value_if controller kEdgeTransitRouteInfoColor (route_color r));
     tri_text_color :=
       of_route (fun r =>
         value_if controller kEdgeTransitRouteInfoTextColor (route_text_color r));
     tri_description :=
       of_route (fun r =>
         name_if controller kEdgeTransitRouteInfoDescription graphtile (desc_offset r));
     tri_operator_onestop_id :=
       of_route (fun r =>
         name_if controller kEdgeTransitRouteInfoOperatorOnestopId graphtile
           (op_by_onestop_id_offset r));
     tri_operator_name :=
       of_route (fun r =>
         name_if controller kEdgeTransitRouteInfoOperatorName graphtile
           (op_by_name_offset r));
     tri_operator_url :=
       of_route (fun r =>
         name_if controller kEdgeTransitRouteInfoOperatorUrl graphtile
           (op_by_website_offset r)) |}.

(** Lines 830-866: the travel mode and the type that goes with it. *)
Definition bicycle_on_foot (mode : TravelMode) (directededge : DirectedEdge) : bool :=
  bool_decide (mode = kBicycle) &&
  (dismount directededge || bool_decide (de_use directededge = kSteps)).

Definition edge_travel_mode (controller : AttributesController)
    (mode : TravelMode) (directededge : DirectedEdge) : option TripLeg_TravelMode :=
  value_if controller kEdgeTravelMode
    match mode with
    | kBicycle =>
        if bicycle_on_foot mode directededge
        then TripLeg_TravelMode_kPedestrian else TripLeg_TravelMode_kBicycle
    | kDrive => TripLeg_TravelMode_kDrive
    | kPedestrian => TripLeg_TravelMode_kPedestrian
    | kPublicTransit => TripLeg_TravelMode_kTransit
    end.

Definition edge_pedestrian_type (controller : AttributesController)
    (mode : TravelMode) (travel_type : Z) (directededge : DirectedEdge)
  : option TripLeg_PedestrianType :=
  match mode with
  | kBicycle =>
      if bicycle_on_foot mode directededge
      then value_if controller kEdgePedestrianType TripLeg_PedestrianType_kFoot
      else None
  | kPedestrian =>
      value_if controller kEdgePedestrianType (GetTripLegPedestrianType travel_type)
  | _ => None
  end.

Definition edge_bicycle_type (controller : AttributesController)
    (mode : TravelMode) (travel_type : Z) (directededge : DirectedEdge) : option Z :=
  match mode with
  | kBicycle =>
      if bicycle_on_foot mode directededge then None
      else value_if controller kEdgeBicycleType travel_type
  | _ => None
  end.

Definition edge_vehicle_type (controller : AttributesController)
    (mode : TravelMode) (travel_type : Z) : option Z :=
  match mode with
  | kDrive => value_if controller kEdgeVehicleType travel_type
  | _ => None
  end.

(** Lines 920-928. *)
Definition edge_sidewalk (controller : AttributesController)
    (directededge : DirectedEdge) : option TripLeg_Sidewalk :=
  if attributes controller kEdgeSidewalk then
    if sidewalk_left directededge && sidewalk_right directededge
    then Some TripLeg_Sidewalk_kBothSides
    else if sidewalk_left directededge then Some TripLeg_Sidewalk_kLeft
    else if sidewalk_right directededge then Some TripLeg_Sidewalk_kRight
    else None
  else None.

Definition grade_or_none (graphtile : GraphTile) (v : Z) : Z :=
  if has_elevation graphtile then v else kNoElevationData.

(** [AddTripEdge].  The traces written to standard output (lane
    connectivity against access restrictions, complex restrictions, lines
    617-770) leave the edge record untouched and are not part of the model;
    [local_time] and [tz_index] are read by those traces only.  A trace may
    itself stop the call (a lane list that [std::stoul] rejects, a null
    [costing]); the model then still returns the edge assembled so far, so
    it returns whenever the source does.  Where the edge record depends on
    it, a null [costing] that is dereferenced, a costing that throws and a
    restriction index outside the restriction list give [None]. *)
Definition AddTripEdge (controller : AttributesController) (edge : GraphId)
    (trip_id block_id : Z) (mode : TravelMode) (travel_type : Z)
    (costing : option DynamicCost) (directededge : DirectedEdge)
    (drive_on_right : bool) (graphtile : GraphTile) (second_of_week : Z)
    (start_node_idx : Z) (has_junction_name : bool)
    (start_tile : option GraphTile) (restrictions_idx : Z)
  : option TripLeg_Edge :=
  let idx := GraphId_id edge in
  let edgeinfo := edgeinfo graphtile (edgeinfo_offset directededge) in
  (* speed, lines 556-566 *)
  speed ←
    (if attributes controller kEdgeSpeed then
       c ← costing;
       ec ← EdgeCost c directededge graphtile second_of_week;
       Some (Some ((n_of_Z (de_length directededge) / secs ec) * n_lit "3.6")%num)
     else Some None);
  (* access restriction, lines 772-777 *)
  restriction ←
    (if access_restriction directededge && (0 <=? restrictions_idx) then
       c ← costing;
       r ← GetAccessRestrictions graphtile idx (access_mode c)
              !! Z.to_nat restrictions_idx;
       Some (Some (ar_type r))
     else Some None);
  let is_transit_edge :=
    negb (trip_id =? 0) &&
    (bool_decide (de_use directededge = kRail) ||
     bool_decide (de_use directededge = kBus)) in
  let transit_departure :=
    if is_transit_edge then
      GetTransitDeparture graphtile (lineid directededge) trip_id
        (second_of_week mod kSecondsPerDay)
    else None in
  let transit_route := transit_departure ≫= fun d => GetTransitRoute graphtile (routeid d) in
  Some {|
    name :=
      if attributes controller kEdgeNames then GetNamesAndTypes edgeinfo else [];
    sign :=
      edge_sign_block controller directededge graphtile idx start_node_idx
        has_junction_name start_tile;
    turn_lanes :=
      if de_turnlanes directededge then turnlanes graphtile idx else [];
    road_class := value_if controller kEdgeRoadClass (classification directededge);
    speed := speed;
    traversability :=
      value_if controller kEdgeTraversability
        (edge_traversability directededge (access_mask mode));
    lane_connectivity :=
      if laneconnectivity directededge then GetLaneConnectivity graphtile idx else [];
    restriction := restriction;
    has_time_restrictions := Some (0 <=? restrictions_idx);
    use := value_if controller kEdgeUse (de_use directededge);
    e_toll := flag_if controller kEdgeToll (toll directededge);
    e_unpaved := flag_if controller kEdgeUnpaved (unpaved directededge);
    e_tunnel := flag_if controller kEdgeTunnel (tunnel directededge);
    e_bridge := flag_if controller kEdgeBridge (bridge directededge);
    e_roundabout := flag_if controller kEdgeRoundabout (roundabout directededge);
    internal_intersection :=
      flag_if controller kEdgeInternalIntersection (internal directededge);
    e_drive_on_right := value_if controller kEdgeDriveOnRight drive_on_right;
    e_surface := value_if controller kEdgeSurface (surface directededge);
    destination_only := flag_if controller kEdgeDestinationOnly (destonly directededge);
    travel_mode := edge_travel_mode controller mode directededge;
    pedestrian_type := edge_pedestrian_type controller mode travel_type directededge;
    bicycle_type := edge_bicycle_type controller mode travel_type directededge;
    vehicle_type := edge_vehicle_type controller mode travel_type;
    id := value_if controller kEdgeId edge;
    way_id := value_if controller kEdgeWayId (wayid edgeinfo);
    e_weighted_grade :=
      value_if controller kEdgeWeightedGrade
        ((n_of_Z (weighted_grade directededge) - n_lit "6") / n_lit "0.6")%num;
    max_upward_grade :=
      value_if controller kEdgeMaxUpwardGrade
        (grade_or_none graphtile (max_up_slope directededge));
    max_downward_grade :=
      value_if controller kEdgeMaxDownwardGrade
        (grade_or_none graphtile (max_down_slope directededge));
    e_mean_elevation :=
      value_if controller kEdgeMeanElevation
        (grade_or_none graphtile (mean_elevation edgeinfo));
    lane_count := value_if controller kEdgeLaneCount (lanecount directededge);
    cycle_lane :=
      if negb (bool_decide (cyclelane directededge = CycleLane_kNone)) &&
         attributes controller kEdgeCycleLane
      then Some (cyclelane directededge) else None;
    bicycle_network := value_if controller kEdgeBicycleNetwork (bike_network directededge);
    sidewalk := edge_sidewalk controller directededge;
    e_density := value_if controller kEdgeDensity (density directededge);
    e_speed_limit := value_if controller kEdgeSpeedLimit (speed_limit edgeinfo);
    default_speed := value_if controller kEdgeDefaultSpeed (de_speed directededge);
    e_truck_speed := value_if controller kEdgeTruckSpeed (truck_speed directededge);
    e_truck_route := flag_if controller kEdgeTruckRoute (truck_route directededge);
    transit_route_info :=
      if is_transit_edge then
        Some (edge_transit_route_info controller trip_id block_id graphtile
                transit_departure transit_route)
      else None;
    transit_type :=
      transit_route ≫= fun r => value_if controller kEdgeTransitType (route_type r);
    length_km := None;
    begin_shape_index := None;
    end_shape_index := None;
    begin_heading := None;
    end_heading := None
  |}.

(** The fields of an edge record that [Build] writes once the shape of the
    edge is known. *)
Definition set_shape_fields (e : TripLeg_Edge)
    (len : option number) (bsi esi : option Z) (bh eh : option number)
  : TripLeg_Edge :=
  {| name := name e; sign := sign e; turn_lanes := turn_lanes e;
     road_class := road_class e; speed := speed e;
     traversability := traversability e;
     lane_connectivity := lane_connectivity e; restriction := restriction e;
     has_time_restrictions := has_time_restrictions e; use := use e;
     e_toll := e_toll e; e_unpaved := e_unpaved e; e_tunnel := e_tunnel e;
     e_bridge := e_bridge e; e_roundabout := e_roundabout e;
     internal_intersection := internal_intersection e;
     e_drive_on_right := e_drive_on_right e; e_surface := e_surface e;
     destination_only := destination_only e; travel_mode := travel_mode e;
     pedestrian_type := pedestrian_type e; bicycle_type := bicycle_type e;
     vehicle_type := vehicle_type e; id := id e; way_id := way_id e;
     e_weighted_grade := e_weighted_grade e;
     max_upward_grade := max_upward_grade e;
     max_downward_grade := max_downward_grade e;
     e_mean_elevation := e_mean_elevation e; lane_count := lane_count e;
     cycle_lane := cycle_lane e; bicycle_network := bicycle_network e;
     sidewalk := sidewalk e; e_density := e_density e;
     e_speed_limit := e_speed_limit e; default_speed := default_speed e;
     e_truck_speed := e_truck_speed e; e_truck_route := e_truck_route e;
     transit_route_info := transit_route_info e;
     transit_type := transit_type e;
     length_km := len; begin_shape_index := bsi; end_shape_index := esi;
     begin_heading := bh; end_heading := eh |}.

(** ** Leg, nodes, admins *)

Record Recost := mkRecost {
  r_elapsed_cost : option Cost;
  r_transition_cost : option Cost
}.

(** The entry that [recosts()->Add()] creates. *)
Definition null_recost : Recost :=
  {| r_elapsed_cost := None; r_transition_cost := None |}.

Record TripLeg_Node := mkTripLegNode {
  edge : option TripLeg_Edge;
  n_type : option Z;
  fork : option bool;
  cost_elapsed : option Cost;
  cost_transition : option Cost;
  admin_index : option Z;
  time_zone : option string;
  recosts : list Recost
}.

Definition set_recosts (n : TripLeg_Node) (rs : list Recost) : TripLeg_Node :=
  {| edge := edge n; n_type := n_type n; fork := fork n;
     cost_elapsed := cost_elapsed n; cost_transition := cost_transition n;
     admin_index := admin_index n; time_zone := time_zone n; recosts := rs |}.

Record TripLeg_Admin := mkTripLegAdmin {
  country_code : option string;
  a_country_text : option string;
  state_code : option string;
  a_state_text : option string
}.

Record ShapeAttributes := mkShapeAttributes {
  sa_time : list Z;
  sa_length : list Z;
  sa_speed : list Z
}.

(** The leg.  [leg_shape] holds the points that the source encodes as a
    polyline string, [bbox] the points whose bounding box is stored. *)
Record TripLeg := mkTripLeg {
  location : list Location;
  leg_node : list TripLeg_Node;
  admin : list TripLeg_Admin;
  leg_shape : option (list PointLL);
  bbox : option (list PointLL);
  shape_attributes : option ShapeAttributes;
  osm_changeset : option Z
}.

(** [AssignAdmins], lines 84-113: the admins appended to the leg. *)
Definition AssignAdmins (controller : AttributesController)
    (admin_info_list : list AdminInfo) : list TripLeg_Admin :=
  if category_attribute_enabled controller kAdminCategory then
    (fun admin_info =>
       {| country_code := value_if controller kAdminCountryCode (country_iso admin_info);
          a_country_text := value_if controller kAdminCountryText (country_text admin_info);
          state_code := value_if controller kAdminStateCode (state_iso admin_info);
          a_state_text := value_if controller kAdminStateText (state_text admin_info) |})
    <$> admin_info_list
  else [].

(** ** SetShapeAttributes, lines 115-200 *)

(** Line 130. *)
Definition baseline_speed (edge : DirectedEdge)
    (src_pct tgt_pct edge_seconds : number) : number :=
  ((n_of_Z (de_length edge) * (tgt_pct - src_pct)) / edge_seconds)%num.

(** Lines 136-145: the tuples taken from the traffic record. *)
Definition traffic_tuples (traffic_speed : TrafficSpeed) (speed : number)
  : list (number * number) :=
  if 0 <? breakpoint1 traffic_speed then
    ((n_of_Z (breakpoint1 traffic_speed) / n_lit "255.0")%num, speed) ::
    (if 0 <? breakpoint2 traffic_speed then
       ((n_of_Z (breakpoint2 traffic_speed) / n_lit "255.0")%num, speed) ::
       (if negb (speed3 traffic_speed =? UNKNOWN_TRAFFIC_SPEED_RAW)
        then [(n_of_Z 1, speed)] else [])
     else [])
  else [].

(** Line 148: is the end of the traversed part still uncovered? *)
Definition needs_cap (speeds : list (number * number)) (tgt_pct : number) : bool :=
  match last speeds with
  | None => true
  | Some back => (back.1 <? tgt_pct)%num
  end.

(** Lines 129-150: the list [speeds] when the cutting loop starts. *)
Definition speed_tuples (tile : GraphTile) (edge : DirectedEdge)
    (src_pct tgt_pct edge_seconds : number) (cut_for_traffic : bool)
  : list (number * number) :=
  let speed := baseline_speed edge src_pct tgt_pct edge_seconds in
  let speeds :=
    if cut_for_traffic then traffic_tuples (trafficspeed tile edge) speed else [] in
  if needs_cap speeds tgt_pct then speeds ++ [(tgt_pct, speed)] else speeds.

(** Lines 158-198.  [prev] is [shape[i-1]], [rest] the points from [shape[i]]
    on, [speed_itr] the tuples from the iterator on.  The result is the
    points that follow [prev] once the cuts are inserted, and the distance
    and time of every segment.  Reading through an iterator that has reached
    the end gives [None]. *)
Fixpoint cut_shape (edge_length : number) (speed_itr : list (number * number))
  : PointLL -> list PointLL -> number ->
    option (list PointLL * list (number * number)) :=
  fix walk (prev : PointLL) (rest : list PointLL) (distance_total_pct : number)
    : option (list PointLL * list (number * number)) :=
    match rest with
    | [] => Some ([], [])
    | p :: rest' =>
        match speed_itr with
        | [] => None
        | s :: speed_next =>
            let distance := Distance p prev in
            let distance_pct := (distance / edge_length)%num in
            let next_total := (distance_total_pct + distance_pct)%num in
            if (s.1 <? next_total)%num && negb (bool_decide (speed_next = [])) then
              let coef :=
                ((s.1 - distance_total_pct) / (next_total - distance_total_pct))%num in
              let point := PointAlongSegment prev p coef in
              let distance := (distance * coef)%num in
              r ← cut_shape edge_length speed_next point (p :: rest') s.1;
              Some (point :: r.1, (distance, (distance / s.2)%num) :: r.2)
            else
              r ← walk p rest' next_total;
              Some (p :: r.1, (distance, (distance / s.2)%num) :: r.2)
        end
    end.

(** Lines 178-194: the entries pushed for one segment. *)
Definition add_segment (controller : AttributesController)
    (sa : ShapeAttributes) (seg : number * number) : ShapeAttributes :=
  let distance := seg.1 in
  let time := seg.2 in
  {| sa_time :=
       if attributes controller kShapeAttributesTime
       then sa_time sa ++ [n_to_uint32 (time * n_lit "1000" + n_lit "0.5")%num]
       else sa_time sa;
     sa_length :=
       if attributes controller kShapeAttributesLength
       then sa_length sa ++ [n_to_uint32 (distance * n_lit "10" + n_lit "0.5")%num]
       else sa_length sa;
     sa_speed :=
       if attributes controller kShapeAttributesSpeed
       then sa_speed sa ++
              [n_to_uint32 (distance * n_lit "10" / time + n_lit "0.5")%num]
       else sa_speed sa |}.

Definition SetShapeAttributes (controller : AttributesController)
    (tile : GraphTile) (edge : DirectedEdge) (shape : list PointLL)
    (shape_begin : nat) (attrs : option ShapeAttributes)
    (src_pct tgt_pct edge_seconds : number) (cut_for_traffic : bool)
  : option (list PointLL * option ShapeAttributes) :=
  match attrs with
  | None => Some (shape, None)
  | Some sa =>
      let speeds := speed_tuples tile edge src_pct tgt_pct edge_seconds cut_for_traffic in
      let speed_itr :=
        drop (find_if (fun s => (src_pct <=? s.1)%num) speeds) speeds in
      match shape !! shape_begin with
      | None => Some (shape, Some sa)
      | Some prev =>
          r ← cut_shape (n_of_Z (de_length edge)) speed_itr prev
                (drop (S shape_begin) shape) src_pct;
          Some (take (S shape_begin) shape ++ r.1,
                Some (foldl (add_segment controller) sa r.2))
      end
  end.

(** ** AccumulateRecostingInfoForward, lines 1146-1208

    [sif::recost_forward] is external.  Whatever it computes, a terminating
    replay is a finite sequence of calls of the two callbacks that ends by
    returning or by throwing; each next action may depend on the edge ids
    received so far.  That is the shape of a [Recosting]. *)

Record EdgeLabel := mkEdgeLabel {
  label_transition_cost : Cost;
  label_cost : Cost
}.

Inductive Recosting :=
| RecostReturn
| RecostThrow
| RecostEdge (k : GraphId -> Recosting)
| RecostLabel (label : EdgeLabel) (k : Recosting).

Record RecostState := mkRecostState {
  in_itr : nat;
  out_itr : nat;
  rc_nodes : list TripLeg_Node
}.

(** [edge_cb], lines 1159-1163. *)
Definition edge_cb (st : RecostState) : option (GraphId * RecostState) :=
  n ← rc_nodes st !! in_itr st;
  let edge_id :=
    match edge n with
    | Some e => default 0 (id e)
    | None => kInvalidGraphId
    end in
  Some (edge_id, {| in_itr := S (in_itr st); out_itr := out_itr st;
                    rc_nodes := rc_nodes st |}).

(** [mutable_recosts()->rbegin()->mutable_transition_cost()] written. *)
Definition set_last_transition (n : TripLeg_Node) (c : Cost) : option TripLeg_Node :=
  match reverse (recosts n) with
  | [] => None
  | r :: before =>
      Some (set_recosts n
              (reverse before ++
               [{| r_elapsed_cost := r_elapsed_cost r; r_transition_cost := Some c |}]))
  end.

(** [mutable_recosts()->Add()] with its elapsed cost written. *)
Definition add_elapsed (n : TripLeg_Node) (c : Cost) : TripLeg_Node :=
  set_recosts n
    (recosts n ++ [{| r_elapsed_cost := Some c; r_transition_cost := None |}]).

(** [label_cb], lines 1167-1177. *)
Definition label_cb (label : EdgeLabel) (st : RecostState) : option RecostState :=
  n ← rc_nodes st !! out_itr st;
  n' ← set_last_transition n (label_transition_cost label);
  let nodes := <[out_itr st := n']> (rc_nodes st) in
  let out := S (out_itr st) in
  next ← nodes !! out;
  Some {| in_itr := in_itr st; out_itr := out;
          rc_nodes := <[out := add_elapsed next (label_cost label)]> nodes |}.

Inductive RecostOutcome := Returned | Thrown.

(** The replay against the two callbacks. *)
Fixpoint run_recost (p : Recosting) (st : RecostState)
  : option (RecostOutcome * RecostState) :=
  match p with
  | RecostReturn => Some (Returned, st)
  | RecostThrow => Some (Thrown, st)
  | RecostEdge k =>
      r ← edge_cb st;
      run_recost (k r.1) r.2
  | RecostLabel label k =>
      st' ← label_cb label st;
      run_recost k st'
  end.

Definition zero_cost : Cost := {| secs := n_of_Z 0; cost := n_of_Z 0 |}.

(** The handler, lines 1198-1206. *)
Definition pad_with_null (should_have : nat) (n : TripLeg_Node) : TripLeg_Node :=
  let rs :=
    if decide (length (recosts n) = should_have)
    then take (length (recosts n) - 1) (recosts n) else recosts n in
  set_recosts n (rs ++ [null_recost]).

(** One turn of the loop over [options.recostings()], lines 1181-1207. *)
Definition recost_once (nodes : list TripLeg_Node) (recosting : Recosting)
  : option (list TripLeg_Node) :=
  first ← nodes !! O;
  let nodes := <[O := add_elapsed first zero_cost]> nodes in
  r ← run_recost recosting {| in_itr := O; out_itr := O; rc_nodes := nodes |};
  match r.1 with
  | Returned =>
      n ← rc_nodes r.2 !! out_itr r.2;
      n' ← set_last_transition n zero_cost;
      Some (<[out_itr r.2 := n']> (rc_nodes r.2))
  | Thrown =>
      first ← rc_nodes r.2 !! O;
      let should_have := length (recosts first) in
      Some (pad_with_null should_have <$> rc_nodes r.2)
  end.

Fixpoint recost_all (nodes : list TripLeg_Node) (recostings : list Recosting)
  : option (list TripLeg_Node) :=
  match recostings with
  | [] => Some nodes
  | recosting :: recostings' =>
      nodes' ← recost_once nodes recosting;
      recost_all nodes' recostings'
  end.

(** The nodes of the leg after [AccumulateRecostingInfoForward]; the replay
    of each entry of [options.recostings()] is given as its [Recosting].
    [factory.Create] is taken to return a costing for every entry. *)
Definition AccumulateRecostingInfoForward (recostings : list Recosting)
    (nodes : list TripLeg_Node) : option (list TripLeg_Node) :=
  if decide (length nodes = O) then Some nodes
  else recost_all nodes recostings.

(** Modelled from the spec: [sif::recost_forward], which is not among the
    sources.  The leg is replayed forward, the edge callback yields the
    successive edge ids of the leg nodes and the label callback receives one
    label per step: edge ids are requested until an invalid one comes back;
    every valid id is answered by exactly one label unless the replay
    throws; nothing is requested after the invalid id.  [owed] counts the
    valid ids not yet answered; [replay_done] is the replay once the invalid
    id has come back. *)
Inductive replay_done : nat -> Recosting -> Prop :=
| done_return : replay_done O RecostReturn
| done_throw owed : replay_done owed RecostThrow
| done_label owed label k :
    replay_done owed k -> replay_done (S owed) (RecostLabel label k).

(** Modelled from the spec: the replay of [sif::recost_forward] while edge
    ids are still being requested. *)
Inductive replay : nat -> Recosting -> Prop :=
| replay_throw owed : replay owed RecostThrow
| replay_edge owed k :
    (forall e, Is_Valid e = true -> replay (S owed) (k e)) ->
    (forall e, Is_Valid e = false -> replay_done owed (k e)) ->
    replay owed (RecostEdge k)
| replay_label owed label k :
    replay owed k -> replay (S owed) (RecostLabel label k).

(** ** Build, lines 1215-1929 *)

(** Time tracking, the timezone database and the heading helpers are
    external collaborators. *)
Class External := {
  TimeInfo : Type;
  TimeInfo_make : Location -> GraphReader -> TimeInfo;
  TimeInfo_forward : TimeInfo -> number -> Z -> TimeInfo;
  second_of_week : TimeInfo -> Z;
  tz_name : Z -> option string;
  GetOffsetForHeading : Z -> Use -> number;
  HeadingAlongPolyline : list PointLL -> number -> Z -> number;
  HeadingAtEndOfPolyline : list PointLL -> number -> Z -> number
}.

Context `{!External}.

Record EdgeTrimmingInfo := mkEdgeTrimmingInfo {
  trim : bool;
  vertex : PointLL;
  distance_along : number
}.

(** The part of a location that [Build] reads for the partial first and
    last edge, lines 1259-1295: percent along, side of street and vertex of
    the first candidate on the given edge.  Without such a candidate the
    percent is never written. *)
Definition snapped (loc : Location) (edge_id : GraphId)
  : number * SideOfStreet * PointLL :=
  match list_find (fun e => graph_id e = edge_id) (path_edges loc) with
  | Some (_, e) =>
      (percent_along e, pe_side_of_street e, mkPointLL (pe_lng e) (pe_lat e))
  | None => (n_indeterminate, kNoneSide, PointLL_default)
  end.

(** Lines 1273-1305: projected point and side of street of a leg location. *)
Definition project (loc : Location) (sos : SideOfStreet) (vrt : PointLL) : Location :=
  {| path_edges := path_edges loc;
     date_time := date_time loc;
     side_of_street :=
       match sos with
       | kNoneSide => side_of_street loc
       | _ => Some sos
       end;
     projected_ll := Some (pt_lat vrt, pt_lng vrt) |}.

Definition set_side_of_street (loc : Location) (sos : SideOfStreet) : Location :=
  {| path_edges := path_edges loc;
     date_time := date_time loc;
     side_of_street := Some sos;
     projected_ll := projected_ll loc |}.

(** [SetHeadings], lines 275-291. *)
Definition SetHeadings (controller : AttributesController)
    (edge : DirectedEdge) (shape : list PointLL) (begin_index : Z)
  : option number * option number :=
  let offset := GetOffsetForHeading (classification edge) (de_use edge) in
  (value_if controller kEdgeBeginHeading
     (n_round (HeadingAlongPolyline shape offset begin_index)),
   value_if controller kEdgeEndHeading
     (n_round (HeadingAtEndOfPolyline shape offset begin_index))).

(** Interning the admin of a node when the controller asks for the index;
    [admininfo] throws on an index out of range. *)
Definition node_admin_index (controller : AttributesController)
    (tile : GraphTile) (n : NodeInfo)
    (admin_info_map : gmap AdminInfo Z) (admin_info_list : list AdminInfo)
  : option (option Z * gmap AdminInfo Z * list AdminInfo) :=
  if attributes controller kNodeaAdminIndex then
    ai ← admininfo tile (ni_admin_index n);
    let '(i, m, l) := GetAdminIndex ai admin_info_map admin_info_list in
    Some (Some i, m, l)
  else Some (None, admin_info_map, admin_info_list).

Definition cut_for_traffic (costing : DynamicCost) : bool :=
  negb (Z.land (flow_mask costing) kCurrentFlowMask =? 0).

Definition shape_index (trip_shape : list PointLL) : Z :=
  wrap32 (Z.of_nat (length trip_shape) - 1).

Definition oriented_shape (edgeinfo : EdgeInfo) (directededge : DirectedEdge)
  : list PointLL :=
  if forward directededge then shape edgeinfo else reverse (shape edgeinfo).

(** The state that the loop over the path carries from step to step. *)
Record BuildState := mkBuildState {
  bs_startnode : GraphId;
  bs_is_first_edge : bool;
  bs_block_id : Z;
  bs_trip_shape : list PointLL;
  bs_osmchangeset : Z;
  bs_time_info : TimeInfo;
  bs_admin_info_map : gmap AdminInfo Z;
  bs_admin_info_list : list AdminInfo;
  bs_edge_trimming : option (gmap nat (EdgeTrimmingInfo * EdgeTrimmingInfo));
  bs_node : list TripLeg_Node;
  bs_shape_attributes : option ShapeAttributes
}.

(** Lines 1458-1460. *)
Definition last_elapsed_seconds (nodes : list TripLeg_Node) : number :=
  match last nodes with
  | None => n_lit "0.0"
  | Some n =>
      match cost_elapsed n with
      | Some c => secs c
      | None => n_of_Z 0
      end
  end.

(** Lines 1697-1778: the shape of the edge appended to the running shape.
    The result is the new running shape, the begin index of the edge, the
    trimmed range of the edge and the trimming map, whose entry for the
    edge may have been completed. *)
Definition append_edge_shape (directededge : DirectedEdge) (edgeinfo : EdgeInfo)
    (is_first_edge is_last_edge : bool) (edge_index : nat)
    (start_pct end_pct : number) (start_vrt end_vrt : PointLL)
    (trip_shape : list PointLL)
    (edge_trimming : option (gmap nat (EdgeTrimmingInfo * EdgeTrimmingInfo)))
  : option (list PointLL * Z * number * number *
            option (gmap nat (EdgeTrimmingInfo * EdgeTrimmingInfo))) :=
  let begin_index := if is_first_edge then 0 else shape_index trip_shape in
  let trim_start_pct := if is_first_edge then start_pct else n_of_Z 0 in
  let trim_end_pct := if is_last_edge then end_pct else n_of_Z 1 in
  match edge_trimming ≫= fun m => (fun info => (m, info)) <$> m !! edge_index with
  | Some (m, (edge_begin_info, edge_end_info)) =>
      let edge_shape := oriented_shape edgeinfo directededge in
      let edge_begin_info :=
        if is_first_edge && negb (trim edge_begin_info)
        then {| trim := true; vertex := start_vrt; distance_along := start_pct |}
        else edge_begin_info in
      let edge_end_info :=
        if is_last_edge && negb (trim edge_end_info)
        then {| trim := true; vertex := end_vrt; distance_along := end_pct |}
        else edge_end_info in
      let edge_length := n_of_Z (de_length directededge) in
      let edge_shape :=
        trim_shape (distance_along edge_begin_info * edge_length)%num
          (vertex edge_begin_info)
          (distance_along edge_end_info * edge_length)%num
          (vertex edge_end_info) edge_shape in
      let skip := if trim edge_begin_info || is_first_edge then O else 1%nat in
      let begin_index :=
        if trim edge_begin_info && negb is_first_edge
        then wrap32 (begin_index + 1) else begin_index in
      Some (trip_shape ++ drop skip edge_shape, begin_index,
            distance_along edge_begin_info, distance_along edge_end_info,
            Some (<[edge_index := (edge_begin_info, edge_end_info)]> m))
  | None =>
      if is_first_edge || is_last_edge then
        let edge_shape := oriented_shape edgeinfo directededge in
        let total := n_of_Z (de_length directededge) in
        if is_first_edge then
          back ← last edge_shape;
          let edge_shape :=
            trim_shape (start_pct * total)%num start_vrt total back edge_shape in
          Some (trip_shape ++ drop (if is_last_edge then 1%nat else O) edge_shape,
                begin_index, trim_start_pct, trim_end_pct, edge_trimming)
        else
          front ← head edge_shape;
          let edge_shape :=
            trim_shape (n_of_Z 0) front (end_pct * total)%num end_vrt edge_shape in
          Some (trip_shape ++ drop (if is_last_edge then 1%nat else O) edge_shape,
                begin_index, trim_start_pct, trim_end_pct, edge_trimming)
      else
        Some (trip_shape ++ drop 1 (oriented_shape edgeinfo directededge),
              begin_index, trim_start_pct, trim_end_pct, edge_trimming)
  end.

(** Lines 1607-1687, as far as the block id goes: a transit node with a
    departing trip takes the block of the departure, one without resets it. *)
Definition next_block_id (n : NodeInfo) (graphtile : GraphTile)
    (directededge : DirectedEdge) (trip_id second_of_week block_id : Z) : Z :=
  if is_transit n then
    if negb (trip_id =? 0) then
      match GetTransitDeparture graphtile (lineid directededge) trip_id
              (second_of_week mod kSecondsPerDay) with
      | Some transit_departure => blockid transit_departure
      | None => block_id
      end
    else 0
  else block_id.

(** One turn of the loop over the path, lines 1438-1892.  [prev] is
    [std::prev(edge_itr)] when there is one.  The bike-share, transit-stop
    and intersecting-edge records of the node are not part of the model:
    they are written to fields of the node that the model does not have, and
    of what they compute only the block id is read again. *)
Definition build_step (controller : AttributesController)
    (graphreader : GraphReader) (mode_costing : TravelMode -> option DynamicCost)
    (travel_types : TravelMode -> Z)
    (start_pct end_pct : number) (start_vrt end_vrt : PointLL)
    (prev : option PathInfo) (edge_index : nat) (is_last_edge : bool)
    (edge_itr : PathInfo) (st : BuildState) : option BuildState :=
  let edge := edgeid edge_itr in
  let trip_id := trip_id edge_itr in
  graphtile ← GetGraphTile graphreader edge;
  directededge ← tile_directededge graphtile edge;
  let mode := mode edge_itr in
  let travel_type := travel_types mode in
  let costing := mode_costing mode in
  start_tile ← GetGraphTile graphreader (bs_startnode st);
  node ← node start_tile (bs_startnode st);
  let osmchangeset :=
    if (bs_osmchangeset st =? 0) && attributes controller kOsmChangeset
    then dataset_id start_tile else bs_osmchangeset st in
  let time_info :=
    TimeInfo_forward (bs_time_info st) (last_elapsed_seconds (bs_node st))
      (timezone node) in
  '(admin_index, admin_info_map, admin_info_list) ←
    node_admin_index controller start_tile node
      (bs_admin_info_map st) (bs_admin_info_list st);
  let block_id :=
    next_block_id node graphtile directededge trip_id
      (second_of_week time_info) (bs_block_id st) in
  trip_edge ←
    AddTripEdge controller edge trip_id block_id mode travel_type costing
      directededge (drive_on_right node) graphtile (second_of_week time_info)
      (GraphId_id (bs_startnode st)) (named_intersection node) (Some start_tile)
      (restriction_index edge_itr);
  let edgeinfo := edgeinfo graphtile (edgeinfo_offset directededge) in
  '(trip_shape, begin_index, trim_start_pct, trim_end_pct, edge_trimming) ←
    append_edge_shape directededge edgeinfo (bs_is_first_edge st) is_last_edge
      edge_index start_pct end_pct start_vrt end_vrt (bs_trip_shape st)
      (bs_edge_trimming st);
  let km :=
    n_max (n_of_Z (de_length directededge) * n_lit "kKmPerMeter" *
           (trim_end_pct - trim_start_pct))%num (n_lit "0.001") in
  let edge_seconds :=
    let s := (secs (elapsed_cost edge_itr) - secs (transition_cost edge_itr))%num in
    match prev with
    | Some p => (s - secs (elapsed_cost p))%num
    | None => s
    end in
  c ← costing;
  '(trip_shape, shape_attributes) ←
    SetShapeAttributes controller graphtile directededge trip_shape
      (Z.to_nat begin_index) (bs_shape_attributes st)
      trim_start_pct trim_end_pct edge_seconds (cut_for_traffic c);
  let headings := SetHeadings controller directededge trip_shape begin_index in
  let trip_edge :=
    set_shape_fields trip_edge
      (value_if controller kEdgeLength km)
      (value_if controller kEdgeBeginShapeIndex begin_index)
      (value_if controller kEdgeEndShapeIndex (shape_index trip_shape))
      headings.1 headings.2 in
  let trip_node :=
    {| edge := Some trip_edge;
       n_type := value_if controller kNodeType (node_type node);
       fork := flag_if controller kNodeFork (is_fork node);
       cost_elapsed :=
         value_if controller kNodeElapsedTime
           match prev with
           | Some p => elapsed_cost p
           | None => zero_cost
           end;
       cost_transition :=
         value_if controller kNodeTransitionTime (transition_cost edge_itr);
       admin_index := admin_index;
       time_zone :=
         if attributes controller kNodeTimeZone then tz_name (timezone node) else None;
       recosts := [] |} in
  let next is_first_edge :=
    {| bs_startnode := endnode directededge;
       bs_is_first_edge := is_first_edge;
       bs_block_id := block_id;
       bs_trip_shape := trip_shape;
       bs_osmchangeset := osmchangeset;
       bs_time_info := time_info;
       bs_admin_info_map := admin_info_map;
       bs_admin_info_list := admin_info_list;
       bs_edge_trimming := edge_trimming;
       bs_node := bs_node st ++ [trip_node];
       bs_shape_attributes := shape_attributes |} in
  (* lines 1873-1891 *)
  if negb (IsTransitLine directededge) then
    match (if leaves_tile directededge
           then GetGraphTile graphreader (endnode directededge)
           else Some graphtile) with
    | None => Some (next (bs_is_first_edge st))
    | Some t2 =>
        _ ← tile_directededge t2 (GetOpposingEdgeId t2 directededge);
        Some (next false)
    end
  else Some (next false).

Fixpoint build_loop (controller : AttributesController)
    (graphreader : GraphReader) (mode_costing : TravelMode -> option DynamicCost)
    (travel_types : TravelMode -> Z)
    (start_pct end_pct : number) (start_vrt end_vrt : PointLL)
    (prev : option PathInfo) (edge_index : nat)
    (steps : list PathInfo) (st : BuildState) : option BuildState :=
  match steps with
  | [] => Some st
  | edge_itr :: steps' =>
      st' ← build_step controller graphreader mode_costing travel_types
              start_pct end_pct start_vrt end_vrt prev edge_index
              (bool_decide (steps' = [])) edge_itr st;
      build_loop controller graphreader mode_costing travel_types
        start_pct end_pct start_vrt end_vrt (Some edge_itr) (S edge_index)
        steps' st'
  end.

(** Lines 1245-1248. *)
Definition travel_types_of (mode_costing : TravelMode -> option DynamicCost)
    (mode : TravelMode) : Z :=
  match mode_costing mode with
  | Some c => travel_type c
  | None => 0
  end.

(** Lines 1250-1257: the begin node of the first edge. *)
Definition first_startnode (graphreader : GraphReader) (first : PathInfo)
  : option GraphId :=
  tile ← GetGraphTile graphreader (edgeid first);
  first_edge ← tile_directededge tile (edgeid first);
  first_tile ← GetGraphTile graphreader (endnode first_edge);
  first_node ← node first_tile (endnode first_edge);
  opp ← directededge_at first_tile (edge_index first_node + opp_index first_edge);
  Some (endnode opp).

Definition update_first_last {A : Type} (f g : A -> A) (l : list A) : list A :=
  let l := match l !! O with Some x => <[O := f x]> l | None => l end in
  let n := (length l - 1)%nat in
  match l !! n with Some x => <[n := g x]> l | None => l end.

(** The single-edge case, lines 1317-1422. *)
Definition build_single (recostings : list Recosting)
    (controller : AttributesController) (graphreader : GraphReader)
    (mode_costing : TravelMode -> option DynamicCost)
    (path_begin : PathInfo) (origin : Location) (locations : list Location)
    (startnode : GraphId)
    (start_pct end_pct : number) (end_sos : SideOfStreet)
    (start_vrt end_vrt : PointLL)
  : option TripLeg :=
  let time_info := TimeInfo_make origin graphreader in
  tile ← GetGraphTile graphreader (edgeid path_begin);
  edge ← tile_directededge tile (edgeid path_begin);
  let shape := shape (edgeinfo tile (edgeinfo_offset edge)) in
  let shape :=
    if negb (eqb (forward edge) (start_pct <? end_pct)%num)
    then reverse shape else shape in
  let opposing := (end_pct <? start_pct)%num in
  '(edge, tile) ←
    (if opposing then GetOpposingEdge graphreader (edgeid path_begin)
     else Some (edge, tile));
  let locations :=
    if opposing then
      match end_sos with
      | kLeft => update_first_last (fun l => l) (fun l => set_side_of_street l kRight) locations
      | kRight => update_first_last (fun l => l) (fun l => set_side_of_street l kLeft) locations
      | kNoneSide => locations
      end
    else locations in
  let start_pct := if opposing then (n_lit "1.0" - start_pct)%num else start_pct in
  let end_pct := if opposing then (n_lit "1.0" - end_pct)%num else end_pct in
  let total := n_of_Z (de_length edge) in
  let shape :=
    trim_shape (start_pct * total)%num start_vrt (end_pct * total)%num end_vrt shape in
  opp ← GetOpposingEdge graphreader (edgeid path_begin);
  start_node_info ← nodeinfo graphreader (endnode opp.1);
  let costing := mode_costing (mode path_begin) in
  trip_edge ←
    AddTripEdge controller (edgeid path_begin) (trip_id path_begin) 0
      (mode path_begin) (travel_types_of mode_costing (mode path_begin)) costing
      edge (drive_on_right start_node_info) tile (second_of_week time_info)
      (GraphId_id startnode) false None (restriction_index path_begin);
  let km :=
    n_max (n_of_Z (de_length edge) * n_lit "kKmPerMeter" *
           n_abs (end_pct - start_pct))%num (n_lit "0.001") in
  let edge_seconds :=
    (secs (elapsed_cost path_begin) - secs (transition_cost path_begin))%num in
  c ← costing;
  '(shape, shape_attributes) ←
    SetShapeAttributes controller tile edge shape O
      (if category_attribute_enabled controller kShapeAttributesCategory
       then Some {| sa_time := []; sa_length := []; sa_speed := [] |} else None)
      start_pct end_pct edge_seconds (cut_for_traffic c);
  let headings := SetHeadings controller edge shape 0 in
  let trip_edge :=
    set_shape_fields trip_edge
      (value_if controller kEdgeLength km)
      (value_if controller kEdgeBeginShapeIndex 0)
      (value_if controller kEdgeEndShapeIndex (shape_index shape))
      headings.1 headings.2 in
  let first_node :=
    {| edge := Some trip_edge; n_type := None; fork := None;
       cost_elapsed := None; cost_transition := None; admin_index := None;
       time_zone := None; recosts := [] |} in
  '(admin_index, admin_info_list) ←
    match GetGraphTile graphreader (endnode edge) with
    | None => Some (value_if controller kNodeaAdminIndex 0, [])
    | Some end_tile =>
        if attributes controller kNodeaAdminIndex then
          end_node ← node end_tile (endnode edge);
          ai ← admininfo end_tile (ni_admin_index end_node);
          let '(i, _, l) := GetAdminIndex ai ∅ [] in
          Some (Some i, l)
        else Some (None, [])
    end;
  let last_node :=
    {| edge := None; n_type := None; fork := None;
       cost_elapsed := value_if controller kNodeElapsedTime (elapsed_cost path_begin);
       cost_transition := None; admin_index := admin_index;
       time_zone := None; recosts := [] |} in
  nodes ← AccumulateRecostingInfoForward recostings [first_node; last_node];
  Some {| location := locations;
          leg_node := nodes;
          admin := AssignAdmins controller admin_info_list;
          leg_shape := value_if controller kShape shape;
          bbox := Some shape;
          shape_attributes := shape_attributes;
          osm_changeset := value_if controller kOsmChangeset (dataset_id tile) |}.

(** The path of several edges, lines 1424-1928. *)
Definition build_multi (recostings : list Recosting)
    (controller : AttributesController) (graphreader : GraphReader)
    (mode_costing : TravelMode -> option DynamicCost)
    (path : list PathInfo) (origin : Location) (locations : list Location)
    (startnode : GraphId)
    (start_pct end_pct : number) (start_vrt end_vrt : PointLL)
    (edge_trimming : option (gmap nat (EdgeTrimmingInfo * EdgeTrimmingInfo)))
  : option (TripLeg * option (gmap nat (EdgeTrimmingInfo * EdgeTrimmingInfo))) :=
  let init :=
    {| bs_startnode := startnode;
       bs_is_first_edge := true;
       bs_block_id := 0;
       bs_trip_shape := [];
       bs_osmchangeset := 0;
       bs_time_info := TimeInfo_make origin graphreader;
       bs_admin_info_map := ∅;
       bs_admin_info_list := [];
       bs_edge_trimming := edge_trimming;
       bs_node := [];
       bs_shape_attributes :=
         if category_attribute_enabled controller kShapeAttributesCategory
         then Some {| sa_time := []; sa_length := []; sa_speed := [] |} else None |} in
  st ← build_loop controller graphreader mode_costing
         (travel_types_of mode_costing) start_pct end_pct start_vrt end_vrt
         None O path init;
  (* the last node, lines 1894-1910 *)
  '(admin_index, admin_info_list) ←
    (if attributes controller kNodeaAdminIndex then
       last_tile ← GetGraphTile graphreader (bs_startnode st);
       last_node ← node last_tile (bs_startnode st);
       ai ← admininfo last_tile (ni_admin_index last_node);
       let '(i, _, l) :=
         GetAdminIndex ai (bs_admin_info_map st) (bs_admin_info_list st) in
       Some (Some i, l)
     else Some (None, bs_admin_info_list st));
  last_step ← last path;
  let last_node :=
    {| edge := None; n_type := None; fork := None;
       cost_elapsed := value_if controller kNodeElapsedTime (elapsed_cost last_step);
       cost_transition := value_if controller kNodeTransitionTime zero_cost;
       admin_index := admin_index;
       time_zone := None; recosts := [] |} in
  nodes ← AccumulateRecostingInfoForward recostings (bs_node st ++ [last_node]);
  Some ({| location := locations;
           leg_node := nodes;
           admin := AssignAdmins controller admin_info_list;
           leg_shape := value_if controller kShape (bs_trip_shape st);
           bbox := Some (bs_trip_shape st);
           shape_attributes := bs_shape_attributes st;
           osm_changeset :=
             if negb (bs_osmchangeset st =? 0) && attributes controller kOsmChangeset
             then Some (bs_osmchangeset st) else None |},
        bs_edge_trimming st).

(** [TripLegBuilder::Build] on an empty leg.  [interrupted] tells whether
    the interrupt callback throws; a throw, a null tile that is dereferenced
    and a read outside a range all end the call without a leg.  The second
    component is the trimming map as the call leaves it. *)
Definition Build (recostings : list Recosting)
    (controller : AttributesController) (graphreader : GraphReader)
    (mode_costing : TravelMode -> option DynamicCost)
    (path : list PathInfo) (origin dest : Location) (through_loc : list Location)
    (interrupted : bool)
    (edge_trimming : option (gmap nat (EdgeTrimmingInfo * EdgeTrimmingInfo)))
  : option (TripLeg * option (gmap nat (EdgeTrimmingInfo * EdgeTrimmingInfo))) :=
  if interrupted then None else
  locations ← CopyLocations [] origin through_loc dest path;
  path_begin ← path !! O;
  path_last ← last path;
  startnode ← first_startnode graphreader path_begin;
  let '(start_pct, start_sos, start_vrt) := snapped origin (edgeid path_begin) in
  let '(end_pct, end_sos, end_vrt) := snapped dest (edgeid path_last) in
  let locations :=
    update_first_last (fun l => l) (fun l => project l end_sos end_vrt)
      (update_first_last (fun l => project l start_sos start_vrt) (fun l => l)
         locations) in
  if decide (length path = 1%nat) then
    leg ← build_single recostings controller graphreader mode_costing path_begin
            origin locations startnode start_pct end_pct end_sos start_vrt end_vrt;
    Some (leg, edge_trimming)
  else
    build_multi recostings controller graphreader mode_costing path origin
      locations startnode start_pct end_pct start_vrt end_vrt edge_trimming.

(** ** The records of a node, lines 293-355, 1047-1126 and 1828-1871

    The keys of the controller that the node records are gated by, read by
    [controller.attributes.at] like the keys of the edge; the functions
    below take that lookup as [attributes_at]. *)

Inductive NodeAttr :=
| kNodeIntersectingEdgeBeginHeading
| kNodeIntersectingEdgeFromEdgeNameConsistency
| kNodeIntersectingEdgeToEdgeNameConsistency
| kNodeIntersectingEdgeDriveability
| kNodeIntersectingEdgeCyclability
| kNodeIntersectingEdgeWalkability
| kNodeIntersectingEdgeUse
| kNodeIntersectingEdgeRoadClass
| kNodeTransitStationInfoOnestopId
| kNodeTransitStationInfoName
| kNodeTransitStationInfoLatLon
| kNodeTransitEgressInfoOnestopId
| kNodeTransitEgressInfoName
| kNodeTransitEgressInfoLatLon.

Record TransitStop := mkTransitStop {
  ts_one_stop_offset : Z;
  ts_name_offset : Z
}.

(** What the node records read of baldr beyond the fields kept above:
    accessors of [NodeInfo], [DirectedEdge] and [GraphTile], and the node
    types.  [transition] gives the end node of a node transition of the
    tile and throws on an index out of range. *)
Class NodeData := {
  heading : NodeInfo -> Z -> Z;
  local_driveability : NodeInfo -> Z -> TripLeg_Traversability;
  name_consistency : DirectedEdge -> Z -> bool;
  is_shortcut : DirectedEdge -> bool;
  shortcut : DirectedEdge -> Z;
  superseded : DirectedEdge -> Z;
  edge_count : NodeInfo -> Z;
  transition_count : NodeInfo -> Z;
  transition_index : NodeInfo -> Z;
  transition : GraphTile -> Z -> option GraphId;
  stop_index : NodeInfo -> Z;
  latlng : NodeInfo -> GraphTile -> PointLL;
  GetTransitStop : GraphTile -> Z -> option TransitStop;
  kTransitStation : Z;
  kTransitEgress : Z
}.

Context `{node_data : !NodeData}.

Record TripLeg_IntersectingEdge := mkIntersectingEdge {
  ie_begin_heading : option Z;
  walkability : option TripLeg_Traversability;
  cyclability : option TripLeg_Traversability;
  driveability : option TripLeg_Traversability;
  prev_name_consistency : option bool;
  curr_name_consistency : option bool;
  ie_use : option Use;
  ie_road_class : option Z
}.

(** Lines 1072-1081 and 1087-1094: forward and reverse access under one
    mask. *)
Definition access_traversability (intersecting_de : DirectedEdge) (kAccess : Z)
  : TripLeg_Traversability :=
  if has_access (forwardaccess intersecting_de) kAccess then
    if has_access (reverseaccess intersecting_de) kAccess
    then TripLeg_Traversability_kBoth else TripLeg_Traversability_kForward
  else
    if has_access (reverseaccess intersecting_de) kAccess
    then TripLeg_Traversability_kBackward else TripLeg_Traversability_kNone.

(** [AddTripIntersectingEdge], lines 1058-1129: the record appended to the
    intersecting edges of the node.  [prev_de] is null on the first edge of
    the path. *)
Definition AddTripIntersectingEdge (attributes_at : NodeAttr -> bool)
    (directededge : DirectedEdge) (prev_de : option DirectedEdge)
    (local_edge_index : Z) (nodeinfo : NodeInfo)
    (intersecting_de : DirectedEdge) : TripLeg_IntersectingEdge :=
  let when {A : Type} (key : NodeAttr) (v : A) : option A :=
    if attributes_at key then Some v else None in
  {| ie_begin_heading :=
       when kNodeIntersectingEdgeBeginHeading (heading nodeinfo local_edge_index);
     walkability :=
       when kNodeIntersectingEdgeWalkability
         (access_traversability intersecting_de kPedestrianAccess);
     cyclability :=
       when kNodeIntersectingEdgeCyclability
         (access_traversability intersecting_de kBicycleAccess);
     driveability :=
       when kNodeIntersectingEdgeDriveability
         (local_driveability nodeinfo local_edge_index);
     prev_name_consistency :=
       when kNodeIntersectingEdgeFromEdgeNameConsistency
         match prev_de with
         | None => false
         | Some prev => name_consistency prev local_edge_index
         end;
     curr_name_consistency :=
       when kNodeIntersectingEdgeToEdgeNameConsistency
         (name_consistency directededge local_edge_index);
     ie_use := when kNodeIntersectingEdgeUse (de_use intersecting_de);
     ie_road_class :=
       when kNodeIntersectingEdgeRoadClass (classification intersecting_de) |}.

(** The directed edges of a node: [count] consecutive entries of the tile
    from [first] on.  The source walks them with a pointer that it got
    from [directededge(first)], which throws on an index out of range;
    reading an entry that the tile does not have gives [None]. *)
Definition node_edges (tile : GraphTile) (first count : Z)
  : option (list DirectedEdge) :=
  _ ← directededge_at tile first;
  mapM (fun i => directededge_at tile (first + i)) (seqZ 0 count).

(** Lines 1837-1841: an edge at the node that is not listed. *)
Definition skipped_here (directededge : DirectedEdge)
    (prior_opp_local_index : Z) (de : DirectedEdge) : bool :=
  is_shortcut de || (localedgeidx de =? prior_opp_local_index) ||
  (localedgeidx de =? localedgeidx directededge) ||
  (is_shortcut directededge &&
   negb (Z.land (shortcut directededge) (superseded de) =? 0)).

(** Lines 1862-1865: an edge at the other end of a node transition that is
    not listed. *)
Definition skipped_across (directededge : DirectedEdge)
    (prior_opp_local_index : Z) (de2 : DirectedEdge) : bool :=
  is_shortcut de2 || (localedgeidx de2 =? prior_opp_local_index) ||
  (localedgeidx de2 =? localedgeidx directededge).

(** Lines 1851-1869: the edges listed across one node transition, with the
    node that they leave; a transition into a tile that the reader does not
    have is passed over. *)
Definition across_transition (graphreader : GraphReader)
    (directededge : DirectedEdge) (prior_opp_local_index : Z)
    (endnode : GraphId) : option (list (NodeInfo * DirectedEdge)) :=
  match GetGraphTile graphreader endnode with
  | None => Some []
  | Some endtile =>
      nodeinfo2 ← node endtile endnode;
      edges ← node_edges endtile (edge_index nodeinfo2) (edge_count nodeinfo2);
      Some ((fun de2 => (nodeinfo2, de2)) <$>
              filter (fun de2 =>
                        skipped_across directededge prior_opp_local_index de2 = false)
                (edges : list DirectedEdge))
  end.

(** Lines 1828-1871: the edges listed as intersecting edges of the node at
    which the path edge [directededge] begins, each with the node that it
    leaves: those of the node itself, then those across its transitions to
    other hierarchy levels. *)
Definition intersecting_selection (graphreader : GraphReader)
    (start_tile : GraphTile) (nodeinfo : NodeInfo) (startnode : GraphId)
    (directededge : DirectedEdge) (prior_opp_local_index : Z)
  : option (list (NodeInfo * DirectedEdge)) :=
  if Is_Valid startnode then
    edges ← node_edges start_tile (edge_index nodeinfo) (edge_count nodeinfo);
    let here :=
      (fun de => (nodeinfo, de)) <$>
        filter (fun de =>
                  skipped_here directededge prior_opp_local_index de = false)
          (edges : list DirectedEdge) in
    if 0 <? transition_count nodeinfo then
      _ ← transition start_tile (transition_index nodeinfo);
      ends ← mapM (fun i => transition start_tile (transition_index nodeinfo + i))
                (seqZ 0 (transition_count nodeinfo));
      across ← mapM (across_transition graphreader directededge
                       prior_opp_local_index) ends;
      Some (here ++ concat across)
    else Some here
  else Some [].

(** The intersecting edges written to the node. *)
Definition intersecting_edges (attributes_at : NodeAttr -> bool)
    (graphreader : GraphReader)
    (start_tile : GraphTile) (nodeinfo : NodeInfo) (startnode : GraphId)
    (directededge : DirectedEdge) (prev_de : option DirectedEdge)
    (prior_opp_local_index : Z) : option (list TripLeg_IntersectingEdge) :=
  selection ← intersecting_selection graphreader start_tile nodeinfo startnode
                directededge prior_opp_local_index;
  Some ((fun nd =>
           AddTripIntersectingEdge attributes_at directededge prev_de
             (localedgeidx nd.2) nd.1 nd.2) <$>
          (selection : list (NodeInfo * DirectedEdge))).

(** The station or egress block of a node.  Its position is a message of
    its own: [Some None] is the position message without coordinates. *)
Record TransitStopInfo := mkTransitStopInfo {
  tsi_onestop_id : option string;
  tsi_name : option string;
  tsi_ll : option (option (number * number))
}.

(** Lines 337-357 and 365-385: the block of a stop; without a stop record
    the block stays empty, with one the position message is made whether
    the coordinates are requested or not. *)
Definition transit_stop_info (onestop_id name ll : bool)
    (nodeinfo : NodeInfo) (start_tile graphtile : GraphTile)
    (stop : option TransitStop) : TransitStopInfo :=
  match stop with
  | None => {| tsi_onestop_id := None; tsi_name := None; tsi_ll := None |}
  | Some transit_station =>
      {| tsi_onestop_id :=
           if onestop_id && negb (ts_one_stop_offset transit_station =? 0)
           then Some (GetName graphtile (ts_one_stop_offset transit_station))
           else None;
         tsi_name :=
           if name && negb (ts_name_offset transit_station =? 0)
           then Some (GetName graphtile (ts_name_offset transit_station))
           else None;
         tsi_ll :=
           Some (if ll
                 then Some (pt_lat (latlng nodeinfo start_tile),
                            pt_lng (latlng nodeinfo start_tile))
                 else None) |}
  end.

(** [AddTransitNodes], lines 325-387: the station block and the egress
    block written to the node.  The stop is looked up through
    [start_tile->node(startnode)], which throws when the tile does not have
    the node. *)
Definition AddTransitNodes (attributes_at : NodeAttr -> bool)
    (nodeinfo : NodeInfo) (startnode : GraphId)
    (start_tile graphtile : GraphTile)
  : option (option TransitStopInfo * option TransitStopInfo) :=
  station ←
    (if node_type nodeinfo =? kTransitStation then
       n ← node start_tile startnode;
       Some (Some (transit_stop_info
                     (attributes_at kNodeTransitStationInfoOnestopId)
                     (attributes_at kNodeTransitStationInfoName)
                     (attributes_at kNodeTransitStationInfoLatLon)
                     nodeinfo start_tile graphtile
                     (GetTransitStop start_tile (stop_index n))))
     else Some None);
  egress ←
    (if node_type nodeinfo =? kTransitEgress then
       n ← node start_tile startnode;
       Some (Some (transit_stop_info
                     (attributes_at kNodeTransitEgressInfoOnestopId)
                     (attributes_at kNodeTransitEgressInfoName)
                     (attributes_at kNodeTransitEgressInfoLatLon)
                     nodeinfo start_tile graphtile
                     (GetTransitStop start_tile (stop_index n))))
     else Some None);
  Some (station, egress).

(** * Vocabulary of the properties

    The definitions of this part are not translated from the source: they
    name what the theorems state and the invariants that their proofs
    carry along. *)

(** The map knows exactly the descriptors of the list, each under its
    position. *)
Definition admin_inv (m : gmap AdminInfo Z) (l : list AdminInfo) : Prop :=
  NoDup l /\
  forall a i, m !! a = Some i <-> exists n, l !! n = Some a /\ i = Z.of_nat n.

(** The first candidate on the designated edge, with its position. *)
Definition first_match (edge_id : GraphId) (l : list PathEdge)
  : option (nat * PathEdge) :=
  list_find (fun e => graph_id e = edge_id) l.

(** The four-way combination of forward and reverse access. *)
Definition combine_access (fwd rev : bool) : TripLeg_Traversability :=
  match fwd, rev with
  | true, true => TripLeg_Traversability_kBoth
  | true, false => TripLeg_Traversability_kForward
  | false, true => TripLeg_Traversability_kBackward
  | false, false => TripLeg_Traversability_kNone
  end.

Definition swap_direction (t : TripLeg_Traversability) : TripLeg_Traversability :=
  match t with
  | TripLeg_Traversability_kForward => TripLeg_Traversability_kBackward
  | TripLeg_Traversability_kBackward => TripLeg_Traversability_kForward
  | TripLeg_Traversability_kBoth => TripLeg_Traversability_kBoth
  | TripLeg_Traversability_kNone => TripLeg_Traversability_kNone
  end.

(** The access mask that goes with a travel mode. *)
Definition mode_mask (mode : TravelMode) : Z :=
  match mode with
  | kBicycle => kBicycleAccess
  | kDrive => kAutoAccess
  | kPedestrian | kPublicTransit => kPedestrianAccess
  end.

(** The breakpoints come from the traffic record alone. *)
Definition traffic_breakpoints (ts : TrafficSpeed) : list number :=
  if 0 <? breakpoint1 ts then
    (n_of_Z (breakpoint1 ts) / n_lit "255.0")%num ::
    (if 0 <? breakpoint2 ts then
       (n_of_Z (breakpoint2 ts) / n_lit "255.0")%num ::
       (if negb (speed3 ts =? UNKNOWN_TRAFFIC_SPEED_RAW) then [n_of_Z 1] else [])
     else [])
  else [].

(** Every through location, in turn, has a candidate among the path edges
    at or after the position matched for the one before it ([pe] for the
    first); the matched position is the first such edge. *)
Fixpoint throughs_on_path (path : list PathInfo) (pe : nat)
    (throughs : list Location) : Prop :=
  match throughs with
  | [] => True
  | through :: throughs' =>
      exists j pi,
        (pe <= j)%nat /\ path !! j = Some pi /\
        edgeid pi ∈ through_ids through /\
        (forall k pk, (pe <= k < j)%nat -> path !! k = Some pk ->
                      edgeid pk ∉ through_ids through) /\
        throughs_on_path path j throughs'
  end.

(** The reads of [pe->edgeid] in the loop over the through locations stay
    inside the path range: every through location, in turn, either has a
    candidate among the path edges at or after the position matched before
    it, or has no candidate at all; after one without candidates the scan
    has reached [path_end], so that all later ones must be without
    candidates too. *)
Fixpoint throughs_in_range (path : list PathInfo) (pe : nat)
    (throughs : list Location) : Prop :=
  match throughs with
  | [] => True
  | through :: throughs' =>
      (exists j pi,
         (pe <= j)%nat /\ path !! j = Some pi /\
         edgeid pi ∈ through_ids through /\
         (forall k pk, (pe <= k < j)%nat -> path !! k = Some pk ->
                       edgeid pk ∉ through_ids through) /\
         throughs_in_range path j throughs') \/
      (path_edges through = [] /\
       Forall (fun t => path_edges t = []) throughs')
  end.

(** The field, or the list inside the sign or transit block, that an
    attribute key governs in [AddTripEdge] is unset.  Keys that govern
    nothing there (node, admin, shape keys; the edge keys that [Build]
    itself reads; [kEdgeLaneConnectivity], which no code reads) ask for
    nothing. *)
Definition field_unset (a : Attr) (e : TripLeg_Edge) : Prop :=
  let in_sign (f : TripLeg_Sign -> list SignElement) :=
    forall s, sign e = Some s -> f s = [] in
  let in_transit {A} (f : TripLeg_TransitRouteInfo -> option A) :=
    forall t, transit_route_info e = Some t -> f t = None in
  match a with
  | kEdgeNames => name e = []
  | kEdgeSignExitNumber => in_sign exit_numbers
  | kEdgeSignExitBranch => in_sign exit_onto_streets
  | kEdgeSignExitToward => in_sign exit_toward_locations
  | kEdgeSignExitName => in_sign exit_names
  | kEdgeSignGuideBranch => in_sign guide_onto_streets
  | kEdgeSignGuideToward => in_sign guide_toward_locations
  | kEdgeSignGuidanceViewJunction => in_sign guidance_view_junctions
  | kEdgeSignJunctionName => in_sign junction_names
  | kEdgeRoadClass => road_class e = None
  | kEdgeSpeed => speed e = None
  | kEdgeTraversability => traversability e = None
  | kEdgeUse => use e = None
  | kEdgeToll => e_toll e = None
  | kEdgeUnpaved => e_unpaved e = None
  | kEdgeTunnel => e_tunnel e = None
  | kEdgeBridge => e_bridge e = None
  | kEdgeRoundabout => e_roundabout e = None
  | kEdgeInternalIntersection => internal_intersection e = None
  | kEdgeDriveOnRight => e_drive_on_right e = None
  | kEdgeSurface => e_surface e = None
  | kEdgeDestinationOnly => destination_only e = None
  | kEdgeTravelMode => travel_mode e = None
  | kEdgePedestrianType => pedestrian_type e = None
  | kEdgeBicycleType => bicycle_type e = None
  | kEdgeVehicleType => vehicle_type e = None
  | kEdgeId => id e = None
  | kEdgeWayId => way_id e = None
  | kEdgeWeightedGrade => e_weighted_grade e = None
  | kEdgeMaxUpwardGrade => max_upward_grade e = None
  | kEdgeMaxDownwardGrade => max_downward_grade e = None
  | kEdgeMeanElevation => e_mean_elevation e = None
  | kEdgeLaneCount => lane_count e = None
  | kEdgeCycleLane => cycle_lane e = None
  | kEdgeBicycleNetwork => bicycle_network e = None
  | kEdgeSidewalk => sidewalk e = None
  | kEdgeDensity => e_density e = None
  | kEdgeSpeedLimit => e_speed_limit e = None
  | kEdgeDefaultSpeed => default_speed e = None
  | kEdgeTruckSpeed => e_truck_speed e = None
  | kEdgeTruckRoute => e_truck_route e = None
  | kEdgeTransitType => transit_type e = None
  | kEdgeTransitRouteInfoBlockId => in_transit tri_block_id
  | kEdgeTransitRouteInfoTripId => in_transit tri_trip_id
  | kEdgeTransitRouteInfoHeadsign => in_transit tri_headsign
  | kEdgeTransitRouteInfoOnestopId => in_transit tri_onestop_id
  | kEdgeTransitRouteInfoShortName => in_transit tri_short_name
  | kEdgeTransitRouteInfoLongName => in_transit tri_long_name
  | kEdgeTransitRouteInfoColor => in_transit tri_color
  | kEdgeTransitRouteInfoTextColor => in_transit tri_text_color
  | kEdgeTransitRouteInfoDescription => in_transit tri_description
  | kEdgeTransitRouteInfoOperatorOnestopId => in_transit tri_operator_onestop_id
  | kEdgeTransitRouteInfoOperatorName => in_transit tri_operator_name
  | kEdgeTransitRouteInfoOperatorUrl => in_transit tri_operator_url
  | _ => True
  end.

(** The edge record none of whose fields is set. *)
Definition unset_edge : TripLeg_Edge :=
  {| name := []; sign := None; turn_lanes := []; road_class := None;
     speed := None; traversability := None; lane_connectivity := [];
     restriction := None; has_time_restrictions := None; use := None;
     e_toll := None; e_unpaved := None; e_tunnel := None; e_bridge := None;
     e_roundabout := None; internal_intersection := None;
     e_drive_on_right := None; e_surface := None; destination_only := None;
     travel_mode := None; pedestrian_type := None; bicycle_type := None;
     vehicle_type := None; id := None; way_id := None;
     e_weighted_grade := None; max_upward_grade := None;
     max_downward_grade := None; e_mean_elevation := None; lane_count := None;
     cycle_lane := None; bicycle_network := None; sidewalk := None;
     e_density := None; e_speed_limit := None; default_speed := None;
     e_truck_speed := None; e_truck_route := None;
     transit_route_info := None; transit_type := None; length_km := None;
     begin_shape_index := None; end_shape_index := None;
     begin_heading := None; end_heading := None |}.

(** Every population of the edge record is gated: with every controller
    flag off, the assembled edge carries turn lanes, lane connectivity and
    [has_time_restrictions] no more than any other attribute. *)
Definition all_population_gated : Prop :=
  forall controller edge trip_id block_id mode travel_type costing de dor tile
         sow sni hjn start_tile ridx e,
    (forall a, attributes controller a = false) ->
    AddTripEdge controller edge trip_id block_id mode travel_type costing de
      dor tile sow sni hjn start_tile ridx = Some e ->
    turn_lanes e = [] /\ lane_connectivity e = [] /\
    has_time_restrictions e = None.

(** A node without its recosts. *)
Definition strip (n : TripLeg_Node) : TripLeg_Node := set_recosts n [].

(** The edge id that [edge_cb] reads off a node. *)
Definition node_edge_id (n : TripLeg_Node) : GraphId :=
  match edge n with
  | Some e => default 0 (id e)
  | None => kInvalidGraphId
  end.

(** The nodes of a built leg: every node but the last carries an edge with
    a valid id, the last one carries none. *)
Definition leg_shaped (nodes : list TripLeg_Node) : Prop :=
  exists init last,
    nodes = init ++ [last] /\ edge last = None /\
    Forall (fun n => is_Some (edge n) /\ Is_Valid (node_edge_id n) = true) init.

(** A node during the replay of one costing over nodes that all had [m]
    recosts: it has received its entry for this costing or not yet. *)
Definition node_during (m : nat) (reached : bool) (n n' : TripLeg_Node) : Prop :=
  strip n' = strip n /\ take m (recosts n') = recosts n /\
  length (recosts n') = if reached then S m else m.

Definition run_inv (orig : list TripLeg_Node) (m : nat) (st : RecostState) : Prop :=
  length (rc_nodes st) = length orig /\
  (forall i n n', orig !! i = Some n -> rc_nodes st !! i = Some n' ->
     node_during m (bool_decide (i <= out_itr st)%nat) n n') /\
  (exists n0 r, rc_nodes st !! O = Some n0 /\ recosts n0 !! m = Some r /\
                r_elapsed_cost r = Some zero_cost).

(** What one recosting leaves at index [m] of the recosts. *)
Definition recost_entry (o : RecostOutcome) (m : nat)
    (nodes' : list TripLeg_Node) : Prop :=
  match o with
  | Thrown => Forall (fun n' => recosts n' !! m = Some null_recost) nodes'
  | Returned =>
      (exists n0 r, nodes' !! O = Some n0 /\ recosts n0 !! m = Some r /\
                    r_elapsed_cost r = Some zero_cost) /\
      (exists nl r, last nodes' = Some nl /\ recosts nl !! m = Some r /\
                    r_transition_cost r = Some zero_cost)
  end.

(** The state in which the replay of a costing starts, lines 1185-1189. *)
Definition replay_start (nodes : list TripLeg_Node) : option RecostState :=
  first ← nodes !! O;
  Some {| in_itr := O; out_itr := O;
          rc_nodes := <[O := add_elapsed first zero_cost]> nodes |}.

(** The recosts of a node grown by [k] entries, the rest untouched. *)
Definition grown (m k : nat) (n n' : TripLeg_Node) : Prop :=
  strip n' = strip n /\ take m (recosts n') = recosts n /\
  length (recosts n') = (m + k)%nat.

(** Every index of the map lies inside the list. *)
Definition admin_bound (m : gmap AdminInfo Z) (l : list AdminInfo) : Prop :=
  forall a i, m !! a = Some i -> 0 <= i < Z.of_nat (length l).

(** The entry of the trimming map for an edge, and whether it marks a
    trimmed begin. *)
Definition trim_lookup
    (edge_trimming : option (gmap nat (EdgeTrimmingInfo * EdgeTrimmingInfo)))
    (edge_index : nat) : option (EdgeTrimmingInfo * EdgeTrimmingInfo) :=
  edge_trimming ≫= fun m => m !! edge_index.

Definition trimmed_begin
    (edge_trimming : option (gmap nat (EdgeTrimmingInfo * EdgeTrimmingInfo)))
    (edge_index : nat) : bool :=
  match trim_lookup edge_trimming edge_index with
  | Some (edge_begin_info, _) => trim edge_begin_info
  | None => false
  end.

(** What one turn of the loop does to the state, as far as nodes, shape
    indices, admins and the first-edge flag go. *)
Definition step_facts (controller : AttributesController)
    (graphreader : GraphReader) (edge_index : nat) (edge_itr : PathInfo)
    (st st' : BuildState) : Prop :=
  exists trip_node trip_edge,
    bs_node st' = bs_node st ++ [trip_node] /\
    edge trip_node = Some trip_edge /\
    recosts trip_node = [] /\
    id trip_edge = value_if controller kEdgeId (edgeid edge_itr) /\
    begin_shape_index trip_edge =
      value_if controller kEdgeBeginShapeIndex
        (if bs_is_first_edge st then 0
         else if trimmed_begin (bs_edge_trimming st) edge_index
         then wrap32 (shape_index (bs_trip_shape st) + 1)
         else shape_index (bs_trip_shape st)) /\
    end_shape_index trip_edge =
      value_if controller kEdgeEndShapeIndex (shape_index (bs_trip_shape st')) /\
    is_Some (GetGraphTile graphreader (bs_startnode st)) /\
    (bs_is_first_edge st' = true ->
     GetGraphTile graphreader (bs_startnode st') = None) /\
    (forall j, j ≠ edge_index ->
       trim_lookup (bs_edge_trimming st') j = trim_lookup (bs_edge_trimming st) j) /\
    (exists suffix, bs_admin_info_list st' = bs_admin_info_list st ++ suffix) /\
    (admin_index trip_node = None <->
     attributes controller kNodeaAdminIndex = false) /\
    (admin_bound (bs_admin_info_map st) (bs_admin_info_list st) ->
     admin_bound (bs_admin_info_map st') (bs_admin_info_list st') /\
     forall i, admin_index trip_node = Some i ->
               0 <= i < Z.of_nat (length (bs_admin_info_list st'))).

(** The shape indices of two consecutive edge records, the second being
    edge [j] of the path. *)
Definition shape_link (controller : AttributesController)
    (edge_trimming : option (gmap nat (EdgeTrimmingInfo * EdgeTrimmingInfo)))
    (j : nat) (e1 e2 : TripLeg_Edge) : Prop :=
  exists end_index,
    0 <= end_index < 2 ^ 32 /\
    end_shape_index e1 = value_if controller kEdgeEndShapeIndex end_index /\
    begin_shape_index e2 =
      value_if controller kEdgeBeginShapeIndex
        (if trimmed_begin edge_trimming j then wrap32 (end_index + 1)
         else end_index).

(** The invariant of the loop after [k] path steps; [edge_trimming] is the
    map as [Build] received it. *)
Record loop_inv (controller : AttributesController) (graphreader : GraphReader)
    (edge_trimming : option (gmap nat (EdgeTrimmingInfo * EdgeTrimmingInfo)))
    (k : nat) (st : BuildState) : Prop := mkLoopInv {
  li_len : length (bs_node st) = k;
  li_first :
    k ≠ O -> bs_is_first_edge st = true ->
    GetGraphTile graphreader (bs_startnode st) = None;
  li_edges : Forall (fun n => is_Some (edge n) /\ recosts n = []) (bs_node st);
  li_last :
    forall n e, last (bs_node st) = Some n -> edge n = Some e ->
      end_shape_index e =
        value_if controller kEdgeEndShapeIndex (shape_index (bs_trip_shape st));
  li_trim :
    forall j, (k <= j)%nat ->
      trim_lookup (bs_edge_trimming st) j = trim_lookup edge_trimming j;
  li_links :
    forall i n1 n2 e1 e2,
      bs_node st !! i = Some n1 -> bs_node st !! S i = Some n2 ->
      edge n1 = Some e1 -> edge n2 = Some e2 ->
      shape_link controller edge_trimming (S i) e1 e2;
  li_admin_bound : admin_bound (bs_admin_info_map st) (bs_admin_info_list st);
  li_admin :
    Forall (fun n => forall i, admin_index n = Some i ->
                       0 <= i < Z.of_nat (length (bs_admin_info_list st)))
           (bs_node st);
  li_admin_flag :
    Forall (fun n => admin_index n = None <->
                     attributes controller kNodeaAdminIndex = false)
           (bs_node st)
}.

(** The number of edge records of a leg: the nodes that carry one. *)
Definition edges_count (nodes : list TripLeg_Node) : nat :=
  length (filter (fun n => is_Some (edge n)) nodes).

(** The tile and the directed edge of a path step, as the loop looks them
    up. *)
Definition step_edge (graphreader : GraphReader) (step : PathInfo)
  : option (GraphTile * DirectedEdge) :=
  tile ← GetGraphTile graphreader (edgeid step);
  de ← tile_directededge tile (edgeid step);
  Some (tile, de).

(** The admin descriptor of a node of the graph. *)
Definition node_admin (graphreader : GraphReader) (node_id : GraphId)
  : option AdminInfo :=
  tile ← GetGraphTile graphreader node_id;
  n ← node tile node_id;
  admininfo tile (ni_admin_index n).

(** The admin descriptors of the begin nodes of the steps of a path that
    starts at [startnode], and the node at which the path ends. *)
Fixpoint path_admins (graphreader : GraphReader) (startnode : GraphId)
    (steps : list PathInfo) : option (list AdminInfo * GraphId) :=
  match steps with
  | [] => Some ([], startnode)
  | step :: steps' =>
      a ← node_admin graphreader startnode;
      td ← step_edge graphreader step;
      r ← path_admins graphreader (endnode td.2) steps';
      Some (a :: r.1, r.2)
  end.

(** An end of an edge marked as trimmed at a vertex, unless it was marked
    before. *)
Definition mark_trim (flag : bool) (v : PointLL) (d : number)
    (info : EdgeTrimmingInfo) : EdgeTrimmingInfo :=
  if flag && negb (trim info)
  then {| trim := true; vertex := v; distance_along := d |}
  else info.

(** The entry of the trimming map of an edge once the loop has passed the
    edge. *)
Definition mark_entry (is_first is_last : bool) (start_pct end_pct : number)
    (start_vrt end_vrt : PointLL) (entry : EdgeTrimmingInfo * EdgeTrimmingInfo)
  : EdgeTrimmingInfo * EdgeTrimmingInfo :=
  (mark_trim is_first start_vrt start_pct entry.1,
   mark_trim is_last end_vrt end_pct entry.2).


(** * Properties *)

(** ** Admin interning *)

Lemma admin_inv_empty : admin_inv ∅ [].
Proof.
  split; [constructor|]. intros a i. rewrite lookup_empty. split; [done|].
  intros (n & Hn & _). by rewrite lookup_nil in Hn.
Qed.

Lemma admin_inv_None m l a : admin_inv m l -> m !! a = None <-> a ∉ l.
Proof.
  intros [_ Hm]. split.
  - intros Hnone Hin. apply list_elem_of_lookup in Hin as [n Hn].
    assert (m !! a = Some (Z.of_nat n)) as Hs by (apply Hm; eauto).
    congruence.
  - intros Hnin. destruct (m !! a) as [i|] eqn:E; [|done].
    apply Hm in E as (n & Hn & _). exfalso. apply Hnin.
    apply list_elem_of_lookup. eauto.
Qed.

Lemma wrap32_small z : 0 <= z < 2 ^ 32 -> wrap32 z = z.
Proof. intros. unfold wrap32. by apply Z.mod_small. Qed.

Lemma wrap32_range z : 0 <= wrap32 z < 2 ^ 32.
Proof. unfold wrap32. apply Z.mod_pos_bound. lia. Qed.

Lemma GetAdminIndex_known m l a n :
  admin_inv m l -> l !! n = Some a ->
  GetAdminIndex a m l = (Z.of_nat n, m, l).
Proof.
  intros Hinv Hn. unfold GetAdminIndex.
  assert (m !! a = Some (Z.of_nat n)) as -> by (apply Hinv; eauto). done.
Qed.

Lemma GetAdminIndex_fresh m l a :
  admin_inv m l -> a ∉ l ->
  GetAdminIndex a m l =
    (wrap32 (Z.of_nat (length l)),
     <[a := wrap32 (Z.of_nat (length l))]> m, l ++ [a]).
Proof.
  intros Hinv Hnin. unfold GetAdminIndex.
  by rewrite (proj2 (admin_inv_None m l a Hinv) Hnin).
Qed.

Lemma admin_inv_fresh m l a :
  admin_inv m l -> a ∉ l -> Z.of_nat (length l) < 2 ^ 32 ->
  admin_inv (<[a := wrap32 (Z.of_nat (length l))]> m) (l ++ [a]).
Proof.
  intros Hinv Hnin Hlen. rewrite wrap32_small by lia.
  destruct Hinv as [Hnd Hm]. split.
  - apply NoDup_app. split_and!; [done| |apply NoDup_singleton].
    intros x Hx ->%list_elem_of_singleton. done.
  - intros b i. rewrite lookup_insert. case_decide as Hab.
    + subst b. split.
      * intros [= <-]. exists (length l). split; [|done].
        by rewrite lookup_app_r, Nat.sub_diag.
      * intros (n & Hn & ->). f_equal. f_equal.
        destruct (decide (n < length l)%nat) as [Hlt|Hge].
        -- rewrite lookup_app_l in Hn by done. exfalso. apply Hnin.
           apply list_elem_of_lookup. eauto.
        -- apply lookup_lt_Some in Hn. rewrite length_app in Hn. simpl in Hn. lia.
    + rewrite Hm. split.
      * intros (n & Hn & ->). exists n. split; [|done].
        by apply lookup_app_l_Some.
      * intros (n & Hn & ->). exists n. split; [|done].
        apply lookup_app_Some in Hn as [Hn|[_ Hn]]; [done|].
        apply list_lookup_singleton_Some in Hn as [_ ?]. congruence.
Qed.

Lemma first_refs_elem (refs : list AdminInfo) a : a ∈ first_refs refs <-> a ∈ refs.
Proof.
  induction refs as [|b refs IH]; simpl; [done|].
  rewrite !elem_of_cons, list_elem_of_filter, IH.
  destruct (decide (a = b)); naive_solver.
Qed.

Lemma first_refs_NoDup (refs : list AdminInfo) : NoDup (first_refs refs).
Proof.
  induction refs as [|b refs IH]; simpl; constructor.
  - rewrite list_elem_of_filter. naive_solver.
  - by apply NoDup_filter.
Qed.

Lemma filter_known (l xs : list AdminInfo) a :
  a ∈ l ->
  filter (fun b => b ∉ l) (filter (fun b => b ≠ a) xs) = filter (fun b => b ∉ l) xs.
Proof.
  intros Hin. induction xs as [|x xs IH]; [done|].
  rewrite !filter_cons. destruct (decide (x ≠ a)) as [Hne|Heq].
  - rewrite filter_cons. destruct (decide (x ∉ l)); by rewrite IH.
  - assert (x = a) as -> by (by destruct (decide (x = a))).
    rewrite decide_False by naive_solver. done.
Qed.

Lemma filter_fresh (l xs : list AdminInfo) a :
  filter (fun b => b ∉ l ++ [a]) xs =
  filter (fun b => b ∉ l) (filter (fun b => b ≠ a) xs).
Proof.
  induction xs as [|x xs IH]; [done|].
  rewrite !filter_cons. destruct (decide (x ≠ a)) as [Hne|Heq].
  - rewrite filter_cons. destruct (decide (x ∉ l)) as [Hx|Hx].
    + rewrite decide_True; [by rewrite IH|].
      rewrite elem_of_app, list_elem_of_singleton. naive_solver.
    + rewrite decide_False; [done|].
      rewrite elem_of_app. naive_solver.
  - rewrite decide_False; [done|].
    rewrite elem_of_app, list_elem_of_singleton.
    destruct (decide (x = a)); naive_solver.
Qed.

(** What a run of references computes from a consistent state. *)
Lemma intern_from_spec (refs : list AdminInfo) :
  forall m l,
    admin_inv m l ->
    Z.of_nat (length (l ++ filter (fun a => a ∉ l) (first_refs refs))) <= 2 ^ 32 ->
    admin_inv (intern_from refs m l).1.2 (intern_from refs m l).2 /\
    (intern_from refs m l).2 = l ++ filter (fun a => a ∉ l) (first_refs refs) /\
    forall k a, refs !! k = Some a ->
      exists n, (intern_from refs m l).1.1 !! k = Some (Z.of_nat n) /\
                (intern_from refs m l).2 !! n = Some a.
Proof.
  induction refs as [|a refs IH]; intros m l Hinv Hlen.
  - simpl. rewrite app_nil_r. split_and!; [done..|]. intros k b Hk.
    by rewrite lookup_nil in Hk.
  - simpl in *. destruct (decide (a ∈ l)) as [Hin|Hnin].
    + pose proof Hin as Hex. apply list_elem_of_lookup in Hex as [n Hn].
      rewrite (GetAdminIndex_known m l a n Hinv Hn).
      rewrite filter_cons, decide_False in Hlen by naive_solver.
      rewrite filter_cons, decide_False by naive_solver.
      rewrite filter_known in Hlen |- * by done.
      destruct (IH m l Hinv Hlen) as (Hinv' & Hl' & Hidx).
      destruct (intern_from refs m l) as [[idxs m''] l''] eqn:E. simpl in *.
      split_and!; [done..|]. intros [|k] b Hk; simpl in *.
      * injection Hk as <-. exists n. split; [done|].
        rewrite Hl'. by apply lookup_app_l_Some.
      * by apply Hidx.
    + rewrite (GetAdminIndex_fresh m l a Hinv Hnin).
      rewrite filter_cons, decide_True in Hlen by done.
      rewrite filter_cons, decide_True by done.
      rewrite length_app in Hlen. simpl in Hlen.
      assert (Z.of_nat (length l) < 2 ^ 32) as Hlt by lia.
      pose proof (admin_inv_fresh m l a Hinv Hnin Hlt) as Hinv1.
      assert (Z.of_nat (length ((l ++ [a]) ++
                filter (fun b => b ∉ l ++ [a]) (first_refs refs))) <= 2 ^ 32) as Hlen1.
      { rewrite filter_fresh, !length_app. simpl. lia. }
      destruct (IH _ _ Hinv1 Hlen1) as (Hinv' & Hl' & Hidx).
      destruct (intern_from refs _ (l ++ [a])) as [[idxs m''] l''] eqn:E.
      simpl in *. rewrite filter_fresh, <- app_assoc in Hl'. simpl in Hl'.
      split_and!; [done..|]. intros [|k] b Hk; simpl in *.
      * injection Hk as <-. exists (length l). rewrite wrap32_small by lia.
        split; [done|]. rewrite Hl'. by rewrite list_lookup_middle.
      * by apply Hidx.
Qed.

Lemma intern_from_app (r1 r2 : list AdminInfo) m l :
  intern_from (r1 ++ r2) m l =
  let '(i1, m1, l1) := intern_from r1 m l in
  let '(i2, m2, l2) := intern_from r2 m1 l1 in
  (i1 ++ i2, m2, l2).
Proof.
  revert m l. induction r1 as [|a r1 IH]; intros m l; simpl.
  - by destruct (intern_from r2 m l) as [[??]?].
  - destruct (GetAdminIndex a m l) as [[i m'] l']. rewrite IH.
    destruct (intern_from r1 m' l') as [[i1 m1] l1].
    by destruct (intern_from r2 m1 l1) as [[??]?].
Qed.

Lemma first_refs_app (r1 r2 : list AdminInfo) :
  first_refs (r1 ++ r2) =
  first_refs r1 ++ filter (fun a => a ∉ first_refs r1) (first_refs r2).
Proof.
  induction r1 as [|a r1 IH]; simpl.
  - induction (first_refs r2) as [|x xs IHx]; [done|].
    rewrite filter_cons, decide_True by apply not_elem_of_nil. by f_equal.
  - f_equal. rewrite IH, filter_app. f_equal.
    rewrite list_filter_filter. apply list_filter_iff. intros x.
    rewrite elem_of_cons, list_elem_of_filter. tauto.
Qed.

Lemma filter_not_nil (xs : list AdminInfo) :
  filter (fun a : AdminInfo => a ∉ ([] : list AdminInfo)) xs = xs.
Proof.
  induction xs as [|x xs IH]; [done|].
  rewrite filter_cons, decide_True by apply not_elem_of_nil. by f_equal.
Qed.

Lemma intern_from_length (refs : list AdminInfo) m l :
  length (intern_from refs m l).1.1 = length refs.
Proof.
  revert m l. induction refs as [|a refs IH]; intros m l; simpl; [done|].
  destruct (GetAdminIndex a m l) as [[i m'] l']. specialize (IH m' l').
  destruct (intern_from refs m' l') as [[idxs m''] l'']. simpl in *. by f_equal.
Qed.

Lemma intern_seq_spec (refs : list AdminInfo) :
  Z.of_nat (length (first_refs refs)) <= 2 ^ 32 ->
  admin_inv (intern_seq refs).1.2 (intern_seq refs).2 /\
  (intern_seq refs).2 = first_refs refs /\
  forall k a, refs !! k = Some a ->
    exists n, (intern_seq refs).1.1 !! k = Some (Z.of_nat n) /\
              first_refs refs !! n = Some a.
Proof.
  intros Hlen. unfold intern_seq.
  destruct (intern_from_spec refs ∅ [] admin_inv_empty) as (Hinv & Hl & Hidx).
  { simpl. by rewrite filter_not_nil. }
  simpl in Hl. rewrite filter_not_nil in Hl. split_and!; [done..|].
  intros k a Hk. destruct (Hidx k a Hk) as (n & ? & ?). exists n.
  by rewrite <- Hl.
Qed.

Lemma first_refs_prefix_length (r1 r2 : list AdminInfo) :
  (length (first_refs r1) <= length (first_refs (r1 ++ r2)))%nat.
Proof. rewrite first_refs_app, length_app. lia. Qed.

(** C5.  Admin interning over any sequence of references, as long as the
    list stays within the range of the 32-bit index: the final list is the
    sequence of descriptors in order of first reference; the [k]-th
    reference receives the position of its descriptor in that list; a first
    reference receives the length of the list at that moment and appends
    the descriptor; a later reference to an equal descriptor leaves map and
    list as they are and receives the index of the earlier reference. *)
Theorem GetAdminIndex_interning (refs : list AdminInfo) :
  Z.of_nat (length (first_refs refs)) <= 2 ^ 32 ->
  (intern_seq refs).2 = first_refs refs /\
  forall k a, refs !! k = Some a ->
    let st := intern_seq (take k refs) in
    let r := GetAdminIndex a st.1.2 st.2 in
    (intern_seq refs).1.1 !! k = Some r.1.1 /\
    intern_seq (take (S k) refs) = (st.1.1 ++ [r.1.1], r.1.2, r.2) /\
    r.2 !! Z.to_nat r.1.1 = Some a /\
    (a ∉ take k refs ->
       r.1.1 = Z.of_nat (length st.2) /\ r.2 = st.2 ++ [a]) /\
    (a ∈ take k refs ->
       r.2 = st.2 /\ r.1.2 = st.1.2 /\
       exists k0, (k0 < k)%nat /\ refs !! k0 = Some a /\
                  (intern_seq refs).1.1 !! k0 = Some r.1.1).
Proof.
  intros Hlen. destruct (intern_seq_spec refs Hlen) as (Hinv & Hl & Hidx).
  split; [done|]. intros k a Hk st r.
  assert (refs = take k refs ++ a :: drop (S k) refs) as Hsplit.
  { by rewrite <- (take_drop_middle refs k a Hk) at 1. }
  assert (length (take k refs) = k) as Hklen.
  { rewrite length_take. apply lookup_lt_Some in Hk. lia. }
  assert (Z.of_nat (length (first_refs (take k refs))) <= 2 ^ 32) as Hlenk.
  { pose proof (first_refs_prefix_length (take k refs) (a :: drop (S k) refs))
      as Hp.
    rewrite <- Hsplit in Hp. lia. }
  destruct (intern_seq_spec (take k refs) Hlenk) as (Hinvk & Hlk & _).
  fold st in Hinvk, Hlk.
  (* the whole run, cut at position k *)
  assert (intern_seq refs =
          (st.1.1 ++ r.1.1 :: (intern_from (drop (S k) refs) r.1.2 r.2).1.1,
           (intern_from (drop (S k) refs) r.1.2 r.2).1.2,
           (intern_from (drop (S k) refs) r.1.2 r.2).2)) as Hrun.
  { unfold intern_seq at 1. rewrite Hsplit at 1. rewrite intern_from_app.
    subst r st. unfold intern_seq.
    destruct (intern_from (take k refs) ∅ []) as [[i1 m1] l1]. simpl.
    destruct (GetAdminIndex a m1 l1) as [[i m'] l']. simpl.
    by destruct (intern_from (drop (S k) refs) m' l') as [[??]?]. }
  assert (length st.1.1 = k) as Hik.
  { subst st. unfold intern_seq. by rewrite intern_from_length. }
  assert ((intern_seq refs).1.1 !! k = Some r.1.1) as Hkth.
  { rewrite Hrun. simpl. rewrite lookup_app_r by lia.
    by rewrite Hik, Nat.sub_diag. }
  assert (intern_seq (take (S k) refs) = (st.1.1 ++ [r.1.1], r.1.2, r.2)) as Hnext.
  { rewrite (take_S_r refs k a Hk). unfold intern_seq. rewrite intern_from_app.
    subst r st. unfold intern_seq.
    destruct (intern_from (take k refs) ∅ []) as [[i1 m1] l1]. simpl.
    by destruct (GetAdminIndex a m1 l1) as [[i m'] l']. }
  (* the list before the reference is a prefix of the final list *)
  assert (first_refs refs =
          st.2 ++ filter (fun b => b ∉ st.2) (first_refs (a :: drop (S k) refs)))
    as Hpre.
  { rewrite Hsplit at 1. by rewrite first_refs_app, Hlk. }
  destruct (decide (a ∈ take k refs)) as [Hin|Hnin].
  - assert (a ∈ st.2) as Hinl by (rewrite Hlk; by apply first_refs_elem).
    apply list_elem_of_lookup in Hinl as [n Hn].
    assert (r = (Z.of_nat n, st.1.2, st.2)) as Hr.
    { subst r. by apply GetAdminIndex_known. }
    rewrite Hr in *. simpl in *. split_and!; [done|done| |done|].
    + by rewrite Nat2Z.id.
    + intros _. split_and!; [done..|].
      apply list_elem_of_lookup in Hin as [k0 Hk0].
      pose proof (lookup_lt_Some _ _ _ Hk0) as Hk0lt. rewrite Hklen in Hk0lt.
      rewrite lookup_take_lt in Hk0 by done.
      exists k0. split_and!; [done..|].
      destruct (Hidx k0 a Hk0) as (n0 & Hi0 & Hn0). rewrite Hi0.
      f_equal. f_equal.
      assert (first_refs refs !! n = Some a) as Hn'.
      { rewrite Hpre. by apply lookup_app_l_Some. }
      eapply NoDup_lookup; [apply first_refs_NoDup|done..].
  - assert (a ∉ st.2) as Hninl by (rewrite Hlk; by rewrite first_refs_elem).
    assert (Z.of_nat (length st.2) < 2 ^ 32) as Hlt.
    { rewrite Hpre in Hlen. simpl in Hlen.
      rewrite filter_cons, decide_True in Hlen by done.
      rewrite length_app in Hlen. simpl in Hlen. lia. }
    assert (r = (Z.of_nat (length st.2),
                 <[a := Z.of_nat (length st.2)]> st.1.2, st.2 ++ [a])) as Hr.
    { subst r. rewrite GetAdminIndex_fresh by done.
      by rewrite wrap32_small by lia. }
    rewrite Hr in *. simpl in *. split_and!; [done|done| |done|done].
    rewrite Nat2Z.id. by rewrite list_lookup_middle.
Qed.

(** ** Pruning the candidate edges of a location *)

Lemma find_if_le {A : Type} (p : A -> bool) (l : list A) :
  (find_if p l <= length l)%nat.
Proof. induction l as [|x l IH]; simpl; [lia|]. destruct (p x); lia. Qed.

Lemma find_if_lookup {A : Type} (p : A -> bool) (l : list A) x :
  l !! find_if p l = Some x -> p x = true.
Proof.
  induction l as [|y l IH]; simpl; [done|].
  destruct (p y) eqn:E; simpl; [congruence|done].
Qed.

Lemma find_if_before {A : Type} (p : A -> bool) (l : list A) j x :
  (j < find_if p l)%nat -> l !! j = Some x -> p x = false.
Proof.
  revert j. induction l as [|y l IH]; intros j; simpl; [lia|].
  destruct (p y) eqn:E; [lia|]. destruct j as [|j]; simpl.
  - congruence.
  - intros. apply (IH j); [lia|done].
Qed.

Lemma find_if_end {A : Type} (p : A -> bool) (l : list A) :
  find_if p l = length l <-> forall x, x ∈ l -> p x = false.
Proof.
  induction l as [|y l IH]; simpl.
  - split; [|done]. intros _ x Hx. by apply elem_of_nil in Hx.
  - destruct (p y) eqn:E.
    + split; [lia|]. intros Hall. rewrite Hall in E; [done|]. by left.
    + rewrite Nat.succ_inj_wd, IH. split.
      * intros Hall x [->|Hx]%elem_of_cons; auto.
      * intros Hall x Hx. apply Hall. by right.
Qed.

Lemma find_if_first_match edge_id (l : list PathEdge) :
  match first_match edge_id l with
  | Some (i, e) =>
      find_if (fun e => bool_decide (graph_id e = edge_id)) l = i /\
      l !! i = Some e /\ (i < length l)%nat
  | None => find_if (fun e => bool_decide (graph_id e = edge_id)) l = length l
  end.
Proof.
  unfold first_match. induction l as [|x l IH]; simpl; [done|].
  case_decide as Hx.
  - rewrite bool_decide_eq_true_2 by done. simpl. split_and!; [done..|lia].
  - rewrite bool_decide_eq_false_2 by done.
    destruct (list_find _ l) as [[i e]|]; simpl.
    + destruct IH as (-> & ? & ?). split_and!; [done..|lia].
    + by rewrite IH.
Qed.

(** C8.  Pruning keeps exactly the first candidate on the designated edge,
    alone and at position 0, when there is one, and empties the candidate
    list when there is none; the rest of the location is left as it was. *)
Theorem RemovePathEdges_outcome (location : Location) (edge_id : GraphId) :
  path_edges (RemovePathEdges location edge_id) =
    match first_match edge_id (path_edges location) with
    | Some (_, e) => [e]
    | None => []
    end /\
  ((exists e, e ∈ path_edges location /\ graph_id e = edge_id) <->
   exists e, path_edges (RemovePathEdges location edge_id) = [e] /\
             path_edges (RemovePathEdges location edge_id) !! O = Some e /\
             e ∈ path_edges location /\ graph_id e = edge_id) /\
  ((forall e, e ∈ path_edges location -> graph_id e ≠ edge_id) <->
   path_edges (RemovePathEdges location edge_id) = []) /\
  date_time (RemovePathEdges location edge_id) = date_time location /\
  side_of_street (RemovePathEdges location edge_id) = side_of_street location /\
  projected_ll (RemovePathEdges location edge_id) = projected_ll location.
Proof.
  assert (path_edges (RemovePathEdges location edge_id) =
          match first_match edge_id (path_edges location) with
          | Some (_, e) => [e]
          | None => []
          end) as Heq.
  { pose proof (find_if_first_match edge_id (path_edges location)) as Hf.
    unfold RemovePathEdges.
    destruct (first_match edge_id (path_edges location)) as [[i e]|].
    - destruct Hf as (Hpos & Hi & Hlt). rewrite Hpos.
      rewrite decide_False by lia. case_decide as Hlen.
      + simpl. unfold DeleteSubrange, SwapElements.
        destruct (path_edges location) as [|x l] eqn:El; [simpl in Hlt; lia|].
        rewrite Hi. simpl. rewrite drop_ge.
        2:{ rewrite length_insert. simpl. lia. }
        destruct i as [|i]; simpl in *; [congruence|done].
      + destruct (path_edges location) as [|x [|y l]] eqn:El; simpl in *; try lia.
        destruct i as [|i]; simpl in *; [congruence|lia].
    - rewrite Hf. by rewrite decide_True. }
  split; [done|]. rewrite Heq. unfold first_match.
  destruct (list_find _ (path_edges location)) as [[i e]|] eqn:Ef.
  - apply list_find_Some in Ef as (Hi & He & _).
    assert (e ∈ path_edges location) by (apply list_elem_of_lookup; eauto).
    split_and!.
    + split; [|naive_solver]. intros _. by exists e.
    + split; [|done]. intros Hall. exfalso. by apply (Hall e).
    + unfold RemovePathEdges. repeat case_decide; done.
    + unfold RemovePathEdges. repeat case_decide; done.
    + unfold RemovePathEdges. repeat case_decide; done.
  - apply list_find_None in Ef. rewrite Forall_forall in Ef. split_and!.
    + split; [|by intros (e & ? & _)]. intros (e & He & Hid).
      exfalso. by apply (Ef e).
    + naive_solver.
    + unfold RemovePathEdges. repeat case_decide; done.
    + unfold RemovePathEdges. repeat case_decide; done.
    + unfold RemovePathEdges. repeat case_decide; done.
Qed.

(** ** Traversability *)

Lemma access_mask_mode mode : access_mask mode = mode_mask mode.
Proof. by destruct mode. Qed.

Lemma edge_traversability_forward de k :
  forward de = true ->
  edge_traversability de k =
    combine_access (has_access (forwardaccess de) k) (has_access (reverseaccess de) k).
Proof.
  intros Hf. unfold edge_traversability. rewrite Hf.
  by destruct (has_access (forwardaccess de) k), (has_access (reverseaccess de) k).
Qed.

Lemma edge_traversability_reverse de k :
  forward de = false ->
  edge_traversability de k =
    swap_direction
      (combine_access (has_access (forwardaccess de) k)
                      (has_access (reverseaccess de) k)).
Proof.
  intros Hf. unfold edge_traversability. rewrite Hf.
  by destruct (has_access (forwardaccess de) k), (has_access (reverseaccess de) k).
Qed.

Lemma AddTripEdge_traversability controller edge trip_id block_id mode
    travel_type costing de dor tile sow sni hjn st ridx e :
  AddTripEdge controller edge trip_id block_id mode travel_type costing de dor
    tile sow sni hjn st ridx = Some e ->
  traversability e =
    value_if controller kEdgeTraversability
      (edge_traversability de (access_mask mode)).
Proof.
  unfold AddTripEdge. intros He.
  repeat (apply bind_Some in He as (? & _ & He)).
  by injection He as <-.
Qed.

Lemma AddTripEdge_id controller edge trip_id block_id mode travel_type
    costing de dor tile sow sni hjn st ridx e :
  AddTripEdge controller edge trip_id block_id mode travel_type costing de dor
    tile sow sni hjn st ridx = Some e ->
  id e = value_if controller kEdgeId edge.
Proof.
  unfold AddTripEdge. intros He.
  repeat (apply bind_Some in He as (? & _ & He)).
  by injection He as <-.
Qed.

(** When the assembling of an edge record stops, as far as the model has
    it. *)
Lemma AddTripEdge_None
    (controller : AttributesController) (edge : GraphId)
    (trip_id block_id : Z) (mode : TravelMode) (travel_type : Z)
    (costing : option DynamicCost) (de : DirectedEdge) (dor : bool)
    (tile : GraphTile) (sow sni : Z) (hjn : bool)
    (start_tile : option GraphTile) (ridx : Z) :
  AddTripEdge controller edge trip_id block_id mode travel_type costing de dor
    tile sow sni hjn start_tile ridx = None <->
  (attributes controller kEdgeSpeed = true /\
   (costing ≫= fun c => EdgeCost c de tile sow) = None) \/
  (access_restriction de && (0 <=? ridx) = true /\
   (costing ≫= fun c =>
      GetAccessRestrictions tile (GraphId_id edge) (access_mode c)
        !! Z.to_nat ridx) = None).
Proof.
  unfold AddTripEdge.
  destruct (attributes controller kEdgeSpeed) eqn:Hsp;
    destruct (access_restriction de && (0 <=? ridx)) eqn:Har;
    destruct costing as [c|]; simpl;
    try destruct (EdgeCost c de tile sow) as [ec|]; simpl;
    try destruct (GetAccessRestrictions tile (GraphId_id edge) (access_mode c)
                    !! Z.to_nat ridx) as [r|]; simpl;
    naive_solver.
Qed.

(** C6.  The traversability of an assembled edge combines the forward and
    the reverse access of the directed edge under the mask of the travel
    mode (bicycle, auto for drive, pedestrian for pedestrian and transit);
    for two directed edges with the same access bits, one forward and one
    not, the second result is the first with Forward and Backward swapped
    and Both and None unchanged. *)
Theorem AddTripEdge_traversability_flip
    (controller : AttributesController) (mode : TravelMode)
    (edge1 edge2 : GraphId) (trip_id1 trip_id2 block_id1 block_id2 : Z)
    (travel_type1 travel_type2 : Z) (costing1 costing2 : option DynamicCost)
    (de1 de2 : DirectedEdge) (dor1 dor2 : bool) (tile1 tile2 : GraphTile)
    (sow1 sow2 sni1 sni2 : Z) (hjn1 hjn2 : bool)
    (start_tile1 start_tile2 : option GraphTile) (ridx1 ridx2 : Z)
    (e1 e2 : TripLeg_Edge) :
  forward de1 = true -> forward de2 = false ->
  forwardaccess de2 = forwardaccess de1 ->
  reverseaccess de2 = reverseaccess de1 ->
  AddTripEdge controller edge1 trip_id1 block_id1 mode travel_type1 costing1
    de1 dor1 tile1 sow1 sni1 hjn1 start_tile1 ridx1 = Some e1 ->
  AddTripEdge controller edge2 trip_id2 block_id2 mode travel_type2 costing2
    de2 dor2 tile2 sow2 sni2 hjn2 start_tile2 ridx2 = Some e2 ->
  traversability e1 =
    value_if controller kEdgeTraversability
      (combine_access (has_access (forwardaccess de1) (mode_mask mode))
                      (has_access (reverseaccess de1) (mode_mask mode))) /\
  traversability e2 = swap_direction <$> traversability e1 /\
  swap_direction TripLeg_Traversability_kForward = TripLeg_Traversability_kBackward /\
  swap_direction TripLeg_Traversability_kBackward = TripLeg_Traversability_kForward /\
  swap_direction TripLeg_Traversability_kBoth = TripLeg_Traversability_kBoth /\
  swap_direction TripLeg_Traversability_kNone = TripLeg_Traversability_kNone.
Proof.
  intros Hf1 Hf2 Hfa Hra H1 H2.
  apply AddTripEdge_traversability in H1, H2. rewrite H1, H2.
  rewrite access_mask_mode, edge_traversability_forward by done.
  rewrite edge_traversability_reverse, Hfa, Hra by done.
  split_and!; try done. unfold value_if.
  by destruct (attributes controller kEdgeTraversability).
Qed.

(** ** The speeds of the shape-attribute cutter *)

Lemma traffic_tuples_speed ts speed :
  Forall (fun t => t.2 = speed) (traffic_tuples ts speed).
Proof.
  unfold traffic_tuples.
  repeat (case_match; try done; repeat constructor).
Qed.

Lemma traffic_tuples_breakpoints ts speed :
  traffic_tuples ts speed = (fun b => (b, speed)) <$> traffic_breakpoints ts.
Proof.
  unfold traffic_tuples, traffic_breakpoints.
  repeat (case_match; try done).
Qed.

Lemma needs_cap_iff speeds tgt_pct :
  needs_cap speeds tgt_pct = true <->
  speeds = [] \/
  exists init back, speeds = init ++ [back] /\ (back.1 <? tgt_pct)%num = true.
Proof.
  unfold needs_cap. destruct (last speeds) as [back|] eqn:El.
  - apply last_Some in El as [init ->]. split.
    + intros Hb. right. eauto.
    + intros [Hnil|(init' & back' & Heq & Hb)].
      * by destruct init.
      * apply app_inj_tail in Heq as [_ ->]. done.
  - apply last_None in El as ->. naive_solver.
Qed.

Lemma cut_shape_segments edge_length speed :
  forall speed_itr prev rest total r,
    Forall (fun t => t.2 = speed) speed_itr ->
    cut_shape edge_length speed_itr prev rest total = Some r ->
    Forall (fun seg => seg.2 = (seg.1 / speed)%num) r.2.
Proof.
  induction speed_itr as [|s speed_next IHitr]; intros prev rest.
  - destruct rest; simpl; intros total r _ [= <-]. constructor.
  - revert prev. induction rest as [|p rest' IHrest]; intros prev total r Hall.
    + simpl. intros [= <-]. constructor.
    + simpl. apply Forall_cons in Hall as [Hs Hnext]. case_match.
      * intros (r' & Hr' & [= <-])%bind_Some. simpl. constructor; [by rewrite Hs|].
        eapply IHitr; done.
      * intros (r' & Hr' & [= <-])%bind_Some. simpl. constructor; [by rewrite Hs|].
        eapply IHrest; [by constructor|exact Hr'].
Qed.

(** The cutter reads through the iterator only while it has a tuple under
    it: the iterator moves to the next tuple only when there is one. *)
Lemma cut_shape_None edge_length :
  forall speed_itr prev rest total,
    cut_shape edge_length speed_itr prev rest total = None <->
    speed_itr = [] /\ rest ≠ [].
Proof.
  induction speed_itr as [|s speed_next IHitr]; intros prev rest.
  - destruct rest; simpl; intros total; split; try done. by intros [_ ?].
  - revert prev. induction rest as [|p rest' IHrest]; intros prev total.
    + simpl. split; [done|]. by intros [? _].
    + simpl. split; [|by intros [? _]]. case_match eqn:Hcut.
      * apply andb_true_iff in Hcut as [_ Hnext].
        destruct (cut_shape edge_length speed_next _ (p :: rest') s.1)
          as [r|] eqn:Hr; [done|].
        apply IHitr in Hr as [-> _]. by rewrite bool_decide_eq_true_2 in Hnext.
      * destruct ((fix walk (prev0 : PointLL) (rest : list PointLL)
                       (distance_total_pct : number) {struct rest} := _)
                    p rest' _) as [r|] eqn:Hr; [done|].
        apply (IHrest p) in Hr as [? _]. done.
Qed.

(** One segment per point that follows the first one; the points given are
    kept in order, with at most one cut in front of each tuple that is not
    the last one. *)
Lemma cut_shape_points edge_length :
  forall speed_itr prev rest total r,
    cut_shape edge_length speed_itr prev rest total = Some r ->
    length r.2 = length r.1 /\ rest `sublist_of` r.1 /\
    (length r.1 <= length rest + (length speed_itr - 1))%nat.
Proof.
  induction speed_itr as [|s speed_next IHitr]; intros prev rest.
  - destruct rest; simpl; intros total r; [|done]. intros [= <-]. simpl.
    split_and!; [done|done|lia].
  - revert prev. induction rest as [|p rest' IHrest]; intros prev total r.
    + simpl. intros [= <-]. simpl. split_and!; [done|done|lia].
    + simpl. case_match eqn:Hcut.
      * intros (r' & Hr' & [= <-])%bind_Some. simpl.
        apply andb_true_iff in Hcut as [_ Hnext].
        apply negb_true_iff, bool_decide_eq_false in Hnext.
        destruct (IHitr _ _ _ _ Hr') as (Hlen & Hsub & Hle).
        split_and!; [by rewrite Hlen|by apply sublist_cons|].
        simpl in Hle. destruct speed_next; [done|]. simpl in *. lia.
      * intros (r' & Hr' & [= <-])%bind_Some. simpl.
        destruct (IHrest _ _ _ Hr') as (Hlen & Hsub & Hle).
        split_and!; [by rewrite Hlen|by apply sublist_skip|].
        simpl in Hle. lia.
Qed.

(** When the cutter stops. *)
Lemma SetShapeAttributes_None
    (controller : AttributesController) (tile : GraphTile) (edge : DirectedEdge)
    (shape : list PointLL) (shape_begin : nat) (sa : ShapeAttributes)
    (src_pct tgt_pct edge_seconds : number) (cut_for_traffic : bool) :
  SetShapeAttributes controller tile edge shape shape_begin (Some sa)
    src_pct tgt_pct edge_seconds cut_for_traffic = None <->
  (S shape_begin < length shape)%nat /\
  Forall (fun s => (src_pct <=? s.1)%num = false)
    (speed_tuples tile edge src_pct tgt_pct edge_seconds cut_for_traffic).
Proof.
  unfold SetShapeAttributes.
  set (speeds := speed_tuples _ _ _ _ _ _).
  set (p := fun s : number * number => (src_pct <=? s.1)%num).
  assert (drop (find_if p speeds) speeds = [] <->
          Forall (fun s => p s = false) speeds) as Hdrop.
  { rewrite Forall_forall, <- find_if_end. pose proof (find_if_le p speeds).
    split.
    - intros Hd. apply (f_equal length) in Hd. rewrite length_drop in Hd.
      simpl in Hd. lia.
    - intros ->. by rewrite drop_all. }
  destruct (shape !! shape_begin) as [prev|] eqn:Hprev.
  - apply lookup_lt_Some in Hprev as Hlt.
    destruct (cut_shape _ _ prev _ src_pct) as [r|] eqn:Hcut; simpl.
    + split; [done|]. intros [Hlen Hall]. apply Hdrop in Hall.
      assert (cut_shape (n_of_Z (de_length edge))
                (drop (find_if p speeds) speeds) prev
                (drop (S shape_begin) shape) src_pct = None) as Hnone.
      { apply cut_shape_None. split; [done|].
        intros Hd. apply (f_equal length) in Hd. rewrite length_drop in Hd.
        simpl in Hd. lia. }
      congruence.
    + split; [|done]. intros _. apply cut_shape_None in Hcut as [Hd Hrest].
      split; [|by apply Hdrop].
      destruct (decide (S shape_begin < length shape)%nat); [done|].
      exfalso. apply Hrest. apply drop_ge. lia.
  - split; [done|]. intros [Hlen _]. apply lookup_ge_None in Hprev. lia.
Qed.

(** C9.  The baseline speed is length times traversed fraction over the
    seconds of the edge; every tuple taken from the traffic record pairs a
    breakpoint of the record with that speed; the tuple [(tgt_pct, speed)]
    is appended exactly when there is no tuple or the last breakpoint is
    below [tgt_pct].  The cutter shows all three.  It stops exactly when
    the shape has a segment to measure and no tuple lies at or after
    [src_pct]; so without a tuple from the traffic record it is the
    appended tuple alone that lets it return, which it does exactly when
    there is no segment or [src_pct <= tgt_pct].  When it returns it has
    inserted at most one point per tuple of the traffic record, and it has
    pushed one entry per segment of the new shape, the time of each being
    the distance of the segment over the baseline speed. *)
Theorem SetShapeAttributes_baseline_speed
    (controller : AttributesController) (tile : GraphTile) (edge : DirectedEdge)
    (shape : list PointLL) (shape_begin : nat) (sa : ShapeAttributes)
    (src_pct tgt_pct edge_seconds : number) (cut_for_traffic : bool) :
  let speed :=
    ((n_of_Z (de_length edge) * (tgt_pct - src_pct)) / edge_seconds)%num in
  let traffic :=
    if cut_for_traffic
    then (fun b => (b, speed)) <$> traffic_breakpoints (trafficspeed tile edge)
    else [] in
  let speeds :=
    speed_tuples tile edge src_pct tgt_pct edge_seconds cut_for_traffic in
  let result :=
    SetShapeAttributes controller tile edge shape shape_begin (Some sa)
      src_pct tgt_pct edge_seconds cut_for_traffic in
  baseline_speed edge src_pct tgt_pct edge_seconds = speed /\
  (speeds = traffic ++ [(tgt_pct, speed)] \/ speeds = traffic) /\
  (speeds = traffic ++ [(tgt_pct, speed)] <->
   traffic = [] \/
   exists init back, traffic = init ++ [back] /\ (back.1 <? tgt_pct)%num = true) /\
  Forall (fun t => t.2 = speed) speeds /\
  (result = None <->
   (S shape_begin < length shape)%nat /\
   Forall (fun s => (src_pct <=? s.1)%num = false) speeds) /\
  (traffic = [] ->
   (result = None <->
    (S shape_begin < length shape)%nat /\ (src_pct <=? tgt_pct)%num = false)) /\
  (forall shape' attrs',
     result = Some (shape', attrs') ->
     (length shape <= length shape' <= length shape + length traffic)%nat /\
     exists distances,
       length distances = (length shape' - S shape_begin)%nat /\
       attrs' = Some (foldl (add_segment controller) sa
                        ((fun d => (d, (d / speed)%num)) <$> distances))).
Proof.
  intros speed traffic speeds result.
  assert (speeds = if needs_cap traffic tgt_pct
                   then traffic ++ [(tgt_pct, speed)] else traffic) as Hs.
  { subst speeds traffic. unfold speed_tuples. fold speed.
    destruct cut_for_traffic; [|done]. by rewrite traffic_tuples_breakpoints. }
  assert (Forall (fun t => t.2 = speed) traffic) as Htr.
  { subst traffic. destruct cut_for_traffic; [|constructor].
    apply Forall_fmap, Forall_true. done. }
  assert (Forall (fun t => t.2 = speed) speeds) as Hall.
  { rewrite Hs. destruct (needs_cap traffic tgt_pct); [|done].
    apply Forall_app. split; [done|]. by repeat constructor. }
  assert ((length speeds - 1 <= length traffic)%nat) as Hcuts.
  { rewrite Hs. destruct (needs_cap traffic tgt_pct);
      rewrite ?length_app; simpl; lia. }
  pose proof (SetShapeAttributes_None controller tile edge shape shape_begin sa
                src_pct tgt_pct edge_seconds cut_for_traffic) as Hnone.
  fold speeds in Hnone. fold result in Hnone.
  split_and!.
  - done.
  - rewrite Hs. destruct (needs_cap traffic tgt_pct); auto.
  - rewrite <- needs_cap_iff, Hs. destruct (needs_cap traffic tgt_pct); [done|].
    split; [|done]. intros Heq. exfalso.
    apply (f_equal length) in Heq. rewrite length_app in Heq. simpl in Heq. lia.
  - done.
  - exact Hnone.
  - intros Hnil. rewrite Hnone, Hs, Hnil. simpl.
    split.
    + intros [Hlen Hcap]. split; [done|].
      by apply Forall_cons in Hcap as [Hcap _].
    + intros [Hlen Hcap]. split; [done|]. by repeat constructor.
  - intros shape' attrs'. subst result. unfold SetShapeAttributes. fold speeds.
    destruct (shape !! shape_begin) as [prev|] eqn:Hprev; simpl.
    + intros (r & Ecut & [= <- <-])%bind_Some.
      apply lookup_lt_Some in Hprev as Hlt.
      apply cut_shape_points in Ecut as Hpts. destruct Hpts as (Hlen & Hsub & Hle).
      apply sublist_length in Hsub as Hge.
      rewrite !length_drop in Hle. rewrite length_drop in Hge.
      assert (length (take (S shape_begin) shape) = S shape_begin) as Htake.
      { rewrite length_take. lia. }
      rewrite length_app, Htake. split; [lia|].
      apply cut_shape_segments with (speed := speed) in Ecut.
      2:{ by apply Forall_drop. }
      exists (r.2.*1). split; [rewrite length_fmap; lia|].
      do 2 f_equal. rewrite <- list_fmap_compose.
      rewrite <- (list_fmap_id r.2) at 1. apply Forall_fmap_ext_1.
      eapply Forall_impl; [done|]. intros [d t] Ht. simpl in *. by rewrite Ht.
    + intros [= <- <-]. apply lookup_ge_None in Hprev. split; [lia|].
      exists []. split; [simpl; lia|done].
Qed.

(** ** The through-location scan *)

Lemma scan_through_found path pe through j pi :
  (pe <= j)%nat -> path !! j = Some pi -> edgeid pi ∈ through_ids through ->
  (forall k pk, (pe <= k < j)%nat -> path !! k = Some pk ->
                edgeid pk ∉ through_ids through) ->
  scan_through path pe through = j.
Proof.
  intros Hle Hj Hin Hfirst. unfold scan_through.
  set (p := fun pi : PathInfo => bool_decide (edgeid pi ∈ through_ids through)).
  destruct (decide (find_if p (drop pe path) < j - pe)%nat) as [Hlt|Hge].
  - assert (is_Some (drop pe path !! find_if p (drop pe path))) as [x Hx].
    { apply lookup_lt_is_Some. apply lookup_lt_Some in Hj.
      rewrite length_drop. lia. }
    pose proof (find_if_lookup p _ _ Hx) as Hp.
    rewrite lookup_drop in Hx. exfalso.
    apply (Hfirst (pe + find_if p (drop pe path))%nat x); [lia|done|].
    by apply bool_decide_eq_true in Hp.
  - destruct (decide (j - pe < find_if p (drop pe path))%nat) as [Hlt|Hge'];
      [|lia].
    exfalso. assert (p pi = false) as Hp.
    { apply (find_if_before p (drop pe path) (j - pe)); [done|].
      rewrite lookup_drop. by replace (pe + (j - pe))%nat with j by lia. }
    apply bool_decide_eq_false in Hp. done.
Qed.

Lemma scan_through_spec path pe through pi :
  path !! scan_through path pe through = Some pi ->
  (pe <= scan_through path pe through)%nat /\
  edgeid pi ∈ through_ids through /\
  forall k pk, (pe <= k < scan_through path pe through)%nat ->
               path !! k = Some pk -> edgeid pk ∉ through_ids through.
Proof.
  unfold scan_through.
  set (p := fun pi : PathInfo => bool_decide (edgeid pi ∈ through_ids through)).
  intros Hpi. split_and!; [lia| |].
  - rewrite <- lookup_drop in Hpi. apply find_if_lookup in Hpi.
    by apply bool_decide_eq_true in Hpi.
  - intros k pk Hk Hpk.
    assert (p pk = false) as Hp.
    { apply (find_if_before p (drop pe path) (k - pe)); [lia|].
      rewrite lookup_drop. by replace (pe + (k - pe))%nat with k by lia. }
    by apply bool_decide_eq_false in Hp.
Qed.

Lemma RemovePathEdges_bare (location : Location) (edge_id : GraphId) :
  path_edges location = [] ->
  RemovePathEdges location edge_id = set_path_edges location [].
Proof. unfold RemovePathEdges. by intros ->. Qed.

Lemma set_path_edges_bare (location : Location) :
  path_edges location = [] -> set_path_edges location [] = location.
Proof. destruct location. simpl. by intros ->. Qed.

Lemma RemovePathEdges_at_inv (location : Location) path pe tp :
  RemovePathEdges_at location path pe = Some tp ->
  (exists pi, path !! pe = Some pi /\ tp = RemovePathEdges location (edgeid pi)) \/
  (path !! pe = None /\ path_edges location = [] /\ tp = location).
Proof.
  unfold RemovePathEdges_at. destruct (path !! pe) as [pi|].
  - intros [= <-]. left. by exists pi.
  - destruct (path_edges location) as [|e l] eqn:El; [|done].
    intros [= <-]. right. by rewrite set_path_edges_bare.
Qed.

Lemma RemovePathEdges_at_bare (location : Location) path pe :
  path_edges location = [] -> is_Some (RemovePathEdges_at location path pe).
Proof.
  intros Hl. unfold RemovePathEdges_at. rewrite Hl.
  destruct (path !! pe); by eexists.
Qed.

Lemma through_ids_bare (through : Location) :
  path_edges through = [] -> through_ids through = ∅.
Proof. unfold through_ids. by intros ->. Qed.

Lemma scan_through_bare path pe through :
  path_edges through = [] -> (length path <= scan_through path pe through)%nat.
Proof.
  intros Hb. unfold scan_through.
  rewrite (proj2 (find_if_end _ (drop pe path))).
  - rewrite length_drop. lia.
  - intros x _. apply bool_decide_eq_false.
    rewrite (through_ids_bare _ Hb). apply not_elem_of_empty.
Qed.

Lemma scan_through_past path pe through :
  (length path <= pe)%nat -> scan_through path pe through = pe.
Proof.
  intros Hle. unfold scan_through. rewrite drop_ge by done. simpl. lia.
Qed.

(** Once the scan has reached [path_end], the remaining through locations
    must all be without candidates. *)
Lemma copy_throughs_past path throughs :
  forall pe, (length path <= pe)%nat ->
    (is_Some (copy_throughs path pe throughs) <->
     Forall (fun t => path_edges t = []) throughs).
Proof.
  induction throughs as [|through throughs IH]; intros pe Hpe; simpl.
  - split; [done|]. by eexists.
  - rewrite (scan_through_past _ _ _ Hpe). unfold RemovePathEdges_at.
    rewrite (lookup_ge_None_2 path pe Hpe).
    destruct (path_edges through) as [|e l] eqn:El; simpl.
    + specialize (IH pe Hpe).
      destruct (copy_throughs path pe throughs) as [rest|]; simpl.
      * split; [|by eexists]. intros _. constructor; [done|]. apply IH. by eexists.
      * split; [by intros [? ?]|]. intros Hall. apply Forall_cons in Hall as [_ Hall].
        by apply IH in Hall as [? ?].
    + split; [by intros [? ?]|]. intros Hall.
      apply Forall_cons in Hall as [Hbad _]. rewrite El in Hbad. done.
Qed.

Lemma copy_throughs_in_range path throughs :
  forall pe, is_Some (copy_throughs path pe throughs) <->
             throughs_in_range path pe throughs.
Proof.
  induction throughs as [|through throughs IH]; intros pe; simpl.
  - split; [done|]. by eexists.
  - split.
    + intros [r (tp & Htp & (rest & Hrest & _)%bind_Some)%bind_Some].
      destruct (RemovePathEdges_at_inv _ _ _ _ Htp)
        as [(pi & Hpi & _)|(Hnone & Hbare & _)].
      * left. destruct (scan_through_spec _ _ _ _ Hpi) as (Hle & Hin & Hfirst).
        exists (scan_through path pe through), pi. split_and!; [done..|].
        apply IH. by eexists.
      * right. split; [done|].
        apply (copy_throughs_past path throughs (scan_through path pe through)).
        -- by apply lookup_ge_None.
        -- by eexists.
    + intros [(j & pi & Hle & Hj & Hin & Hfirst & Hrest)|[Hbare Hall]].
      * rewrite (scan_through_found path pe through j pi) by done.
        unfold RemovePathEdges_at. rewrite Hj. simpl.
        apply IH in Hrest as [rest ->]. simpl. by eexists.
      * destruct (RemovePathEdges_at_bare through path
                    (scan_through path pe through) Hbare) as [tp ->]. simpl.
        apply (copy_throughs_past path throughs (scan_through path pe through))
          in Hall as [rest ->]; [|by apply scan_through_bare].
        simpl. by eexists.
Qed.

Lemma throughs_on_path_in_range path throughs :
  forall pe, throughs_on_path path pe throughs -> throughs_in_range path pe throughs.
Proof.
  induction throughs as [|through throughs IH]; intros pe; simpl; [done|].
  intros (j & pi & Hle & Hj & Hin & Hfirst & Hrest). left.
  exists j, pi. split_and!; [done..|]. by apply IH.
Qed.

Lemma CopyLocations_in_range (locations : list Location)
    (origin dest : Location) (throughs : list Location) (path : list PathInfo) :
  path ≠ [] ->
  (is_Some (CopyLocations locations origin throughs dest path) <->
   throughs_in_range path O throughs).
Proof.
  intros Hne. rewrite <- copy_throughs_in_range. unfold CopyLocations.
  destruct path as [|first path']; [done|].
  unfold RemovePathEdges_at at 1. simpl.
  destruct (copy_throughs (first :: path') O throughs) as [tps|]; simpl.
  - unfold RemovePathEdges_at.
    assert (is_Some ((first :: path') !! (length path' - 0)%nat)) as [l ->].
    { apply lookup_lt_is_Some. simpl. lia. }
    simpl. split; by eexists.
  - split; by intros [? ?].
Qed.

(** C10.  On a non-empty path, the reads of [pe->edgeid] in the loop over
    the through locations all stay inside the path range when every through
    location has a candidate on the path at or after the position matched
    before it.  The condition cannot be dropped: for a through location
    with a candidate, but none on the path, the scan ends at [path_end] and
    the read there is outside the range.  A through location without any
    candidate also ends the scan at [path_end], but nothing is read then.
    In all, the reads stay in range exactly on [throughs_in_range]. *)
Theorem CopyLocations_through_scan (locations : list Location)
    (origin dest : Location) (throughs : list Location)
    (path : list PathInfo) :
  path ≠ [] ->
  (throughs_on_path path O throughs ->
   is_Some (CopyLocations locations origin throughs dest path)) /\
  (is_Some (CopyLocations locations origin throughs dest path) <->
   throughs_in_range path O throughs) /\
  (exists through,
     path_edges through ≠ [] /\
     ~ throughs_on_path path O [through] /\
     scan_through path O through = length path /\
     CopyLocations locations origin [through] dest path = None) /\
  (forall through,
     path_edges through = [] ->
     scan_through path O through = length path /\
     is_Some (CopyLocations locations origin [through] dest path)).
Proof.
  intros Hne.
  pose proof (fun ths => CopyLocations_in_range locations origin dest ths path Hne)
    as Hiff.
  split_and!.
  - intros Hon. by apply Hiff, throughs_on_path_in_range.
  - apply Hiff.
  - set (other := fresh (list_to_set (C := gset Z) (edgeid <$> path))).
    set (through :=
           {| path_edges :=
                [{| graph_id := other; percent_along := n_of_Z 0;
                    pe_side_of_street := kNoneSide;
                    pe_lat := n_of_Z 0; pe_lng := n_of_Z 0 |}];
              date_time := None; side_of_street := None;
              projected_ll := None |}).
    assert (forall pi, pi ∈ path -> edgeid pi ∉ through_ids through) as Hoff.
    { intros pi Hpi Hin. unfold through_ids, through in Hin. simpl in Hin.
      apply elem_of_union in Hin as [Hin|Hin]; [|by apply not_elem_of_empty in Hin].
      apply elem_of_singleton in Hin.
      apply (is_fresh (list_to_set (C := gset Z) (edgeid <$> path))).
      fold other. rewrite <- Hin. apply elem_of_list_to_set.
      by apply list_elem_of_fmap_2. }
    exists through. split_and!.
    + done.
    + intros (j & pi & _ & Hj & Hin & _).
      apply (Hoff pi); [by eapply list_elem_of_lookup_2|done].
    + unfold scan_through. rewrite drop_0. simpl. apply find_if_end.
      intros x Hx. apply bool_decide_eq_false. by apply Hoff.
    + destruct (CopyLocations locations origin [through] dest path) as [r|] eqn:E;
        [|done].
      exfalso. assert (throughs_in_range path O [through]) as Hin
        by (apply Hiff; by eexists).
      destruct Hin as [(j & pi & _ & Hj & Hin & _)|[Hbare _]]; [|done].
      apply (Hoff pi); [by eapply list_elem_of_lookup_2|done].
  - intros through Hbare. split.
    + pose proof (scan_through_bare path O through Hbare) as Hge.
      unfold scan_through in *. rewrite drop_0 in *. simpl in *.
      pose proof (find_if_le
                    (fun pi => bool_decide (edgeid pi ∈ through_ids through)) path).
      lia.
    + apply Hiff. simpl. right. by split.
Qed.

(** ** Controller gating of the edge record *)

Lemma bind_value_off {A B : Type} (flag : bool) (x : option (option A))
    (k : option A -> option B) r :
  flag = false ->
  (if flag then x else Some None) ≫= k = Some r -> k None = Some r.
Proof. by intros ->. Qed.

(** C2, as the code has it.  For every attribute key of the edge, a flag
    that is off leaves the field it governs unset (inside the sign and the
    transit block: the list or field of that key).  Turn lanes, lane
    connectivity, the restriction type and [has_time_restrictions] have no
    gate: they are written from the tile and the path step whatever the
    controller says. *)
Theorem AddTripEdge_controller_gated
    (controller : AttributesController) (edge : GraphId)
    (trip_id block_id : Z) (mode : TravelMode) (travel_type : Z)
    (costing : option DynamicCost) (de : DirectedEdge) (dor : bool)
    (tile : GraphTile) (sow sni : Z) (hjn : bool)
    (start_tile : option GraphTile) (ridx : Z) (e : TripLeg_Edge) :
  AddTripEdge controller edge trip_id block_id mode travel_type costing de dor
    tile sow sni hjn start_tile ridx = Some e ->
  (forall a, attributes controller a = false -> field_unset a e) /\
  turn_lanes e =
    (if de_turnlanes de then turnlanes tile (GraphId_id edge) else []) /\
  lane_connectivity e =
    (if laneconnectivity de then GetLaneConnectivity tile (GraphId_id edge)
     else []) /\
  has_time_restrictions e = Some (0 <=? ridx) /\
  (access_restriction de && (0 <=? ridx) = true -> is_Some (restriction e)).
Proof.
  unfold AddTripEdge. intros He.
  apply bind_Some in He as (sp & Hsp & He).
  apply bind_Some in He as (rs & Hrs & He).
  injection He as <-. split_and!; try done.
  - intros a Ha. destruct a; simpl; try done;
      unfold value_if, flag_if, edge_travel_mode, edge_pedestrian_type,
        edge_bicycle_type, edge_vehicle_type, edge_sidewalk, value_if;
      rewrite ?Ha, ?andb_false_r; try done.
    all: try by repeat case_match.
    all: try (intros s; unfold edge_sign_block; cbv zeta;
              match goal with
              | |- (if ?b then _ else _) = _ -> _ => destruct b
              end; [done|];
              intros [= <-]; simpl; unfold signs_of; by rewrite Ha).
    all: try (rewrite Ha in Hsp; by injection Hsp as <-).
    all: try by match goal with |- ?x ≫= _ = None => destruct x end.
    all: intros t;
      match goal with
      | |- (if ?b then _ else _) = _ -> _ => destruct b
      end; [|done]; intros [= <-]; simpl;
      unfold name_if, value_if; rewrite ?Ha; simpl;
      repeat match goal with |- ?x ≫= _ = None => destruct x; simpl end; done.
  - intros Hr. rewrite Hr in Hrs.
    apply bind_Some in Hrs as (c & _ & Hrs).
    apply bind_Some in Hrs as (r & _ & Hrs). injection Hrs as <-. by eexists.
Qed.

(** ** Recosting *)

Lemma strip_edge n n' : strip n' = strip n -> edge n' = edge n.
Proof. intros Hs. by apply (f_equal edge) in Hs. Qed.

Lemma strip_set_recosts n rs : strip (set_recosts n rs) = strip n.
Proof. done. Qed.

Lemma set_last_transition_snoc n before r c :
  recosts n = before ++ [r] ->
  set_last_transition n c =
    Some (set_recosts n
            (before ++ [{| r_elapsed_cost := r_elapsed_cost r;
                           r_transition_cost := Some c |}])).
Proof.
  intros Hr. unfold set_last_transition. rewrite Hr, reverse_snoc.
  by rewrite reverse_involutive.
Qed.

Lemma recosts_snoc (n : TripLeg_Node) m :
  length (recosts n) = S m ->
  exists before r, recosts n = before ++ [r] /\ length before = m /\
                   recosts n !! m = Some r.
Proof.
  intros Hlen. destruct (recosts n) as [|x l] using rev_ind; [done|].
  rewrite length_app in Hlen. simpl in Hlen.
  exists l, x. split_and!; [done|lia|].
  rewrite lookup_app_r by lia. by replace (m - length l)%nat with O by lia.
Qed.

Lemma edge_cb_inv orig m st n :
  run_inv orig m st -> orig !! in_itr st = Some n ->
  edge_cb st =
    Some (node_edge_id n,
          {| in_itr := S (in_itr st); out_itr := out_itr st;
             rc_nodes := rc_nodes st |}).
Proof.
  intros (Hlen & Hnodes & _) Hn. unfold edge_cb.
  assert (is_Some (rc_nodes st !! in_itr st)) as [n' Hn'].
  { apply lookup_lt_is_Some. rewrite Hlen. by eapply lookup_lt_Some. }
  rewrite Hn'. simpl. destruct (Hnodes _ _ _ Hn Hn') as (Hs & _).
  unfold node_edge_id. by rewrite (strip_edge _ _ Hs).
Qed.

Lemma run_inv_in_itr orig m st i :
  run_inv orig m st ->
  run_inv orig m {| in_itr := i; out_itr := out_itr st; rc_nodes := rc_nodes st |}.
Proof. done. Qed.

Lemma label_cb_inv orig m st label :
  run_inv orig m st -> (S (out_itr st) < length orig)%nat ->
  exists st', label_cb label st = Some st' /\ run_inv orig m st' /\
              out_itr st' = S (out_itr st) /\ in_itr st' = in_itr st.
Proof.
  intros (Hlen & Hnodes & (n0 & r0 & Hn0 & Hr0 & He0)) Hlt.
  set (j := out_itr st) in *.
  assert (is_Some (orig !! j)) as [nj Hnj] by (apply lookup_lt_is_Some; lia).
  assert (is_Some (rc_nodes st !! j)) as [nj' Hnj'].
  { apply lookup_lt_is_Some. lia. }
  assert (is_Some (orig !! S j)) as [nk Hnk] by (apply lookup_lt_is_Some; lia).
  assert (is_Some (rc_nodes st !! S j)) as [nk' Hnk'].
  { apply lookup_lt_is_Some. lia. }
  destruct (Hnodes _ _ _ Hnj Hnj') as (Hsj & Htj & Hlj).
  rewrite bool_decide_eq_true_2 in Hlj by lia.
  destruct (Hnodes _ _ _ Hnk Hnk') as (Hsk & Htk & Hlk).
  rewrite bool_decide_eq_false_2 in Hlk by lia.
  destruct (recosts_snoc nj' m Hlj) as (before & r & Hrec & Hbefore & Hrm).
  unfold label_cb. fold j. rewrite Hnj'. simpl.
  rewrite (set_last_transition_snoc nj' before r _ Hrec). simpl.
  rewrite list_lookup_insert_ne by lia. rewrite Hnk'. simpl.
  eexists. split; [done|]. split; [|done]. split_and!; simpl.
  - by rewrite !length_insert.
  - intros i n n' Hn Hn'.
    destruct (decide (i = S j)) as [->|Hik].
    + rewrite list_lookup_insert_eq in Hn' by (rewrite length_insert; lia).
      injection Hn' as <-. rewrite bool_decide_eq_true_2 by lia.
      rewrite Hnk in Hn. injection Hn as <-. split_and!; simpl.
      * done.
      * by rewrite take_app_le by lia.
      * rewrite length_app. simpl. lia.
    + rewrite list_lookup_insert_ne in Hn' by done.
      destruct (decide (i = j)) as [->|Hij].
      * rewrite list_lookup_insert_eq in Hn' by lia. injection Hn' as <-.
        rewrite bool_decide_eq_true_2 by lia.
        rewrite Hnj in Hn. injection Hn as <-. split_and!; simpl.
        -- done.
        -- rewrite <- Htj, Hrec. by rewrite !take_app_le by lia.
        -- rewrite length_app. simpl. lia.
      * rewrite list_lookup_insert_ne in Hn' by done.
        pose proof (Hnodes _ _ _ Hn Hn') as Hd.
        assert (bool_decide (i <= S j)%nat = bool_decide (i <= j)%nat) as ->.
        { apply bool_decide_ext. lia. }
        done.
  - rewrite list_lookup_insert_ne by lia.
    destruct (decide (j = O)) as [Hj0|Hj0].
    + rewrite Hj0 in *. rewrite list_lookup_insert_eq by lia.
      rewrite Hnj' in Hn0. injection Hn0 as <-.
      rewrite Hrm in Hr0. injection Hr0 as <-.
      eexists _, _. split; [done|]. simpl.
      split; [by apply list_lookup_middle|done].
    + rewrite list_lookup_insert_ne by done. eauto.
Qed.

Lemma Is_Valid_invalid : Is_Valid kInvalidGraphId = false.
Proof. unfold Is_Valid. by rewrite bool_decide_eq_true_2. Qed.

Section Replay.

Context (init : list TripLeg_Node) (final : TripLeg_Node) (m : nat).
Context (Hfinal : edge final = None).
Context (Hinit :
  Forall (fun n => is_Some (edge n) /\ Is_Valid (node_edge_id n) = true) init).

Local Abbreviation orig := (init ++ [final]).

Lemma run_done owed p :
  replay_done owed p ->
  forall st,
    run_inv orig m st -> (out_itr st + owed = length init)%nat ->
    exists o st',
      run_recost p st = Some (o, st') /\ run_inv orig m st' /\
      (o = Returned -> out_itr st' = length init).
Proof.
  induction 1 as [|owed|owed label k Hk IH]; intros st Hinv Hout; simpl.
  - exists Returned, st. split_and!; [done..|]. intros _. lia.
  - by exists Thrown, st.
  - destruct (label_cb_inv orig m st label Hinv) as (st' & -> & Hinv' & Ho & _).
    { rewrite length_app. simpl. lia. }
    simpl. apply IH; [done|lia].
Qed.

Lemma run_reading owed p :
  replay owed p ->
  forall st,
    run_inv orig m st -> in_itr st = (out_itr st + owed)%nat ->
    (in_itr st <= length init)%nat ->
    exists o st',
      run_recost p st = Some (o, st') /\ run_inv orig m st' /\
      (o = Returned -> out_itr st' = length init).
Proof.
  induction 1 as [owed|owed k Hvalid IH Hdone|owed label k Hk IH];
    intros st Hinv Hin Hle; simpl.
  - by exists Thrown, st.
  - assert (is_Some (orig !! in_itr st)) as [n Hn].
    { apply lookup_lt_is_Some. rewrite length_app. simpl. lia. }
    rewrite (edge_cb_inv orig m st n Hinv Hn). simpl.
    destruct (decide (in_itr st < length init)%nat) as [Hlt|Hge].
    + rewrite lookup_app_l in Hn by done.
      rewrite Forall_lookup in Hinit. destruct (Hinit _ _ Hn) as [_ Hv].
      apply (IH _ Hv); simpl; [by apply run_inv_in_itr|lia|lia].
    + assert (in_itr st = length init) as Heq by lia.
      rewrite Heq, list_lookup_middle in Hn by done.
      injection Hn as <-.
      assert (node_edge_id final = kInvalidGraphId) as ->.
      { unfold node_edge_id. by rewrite Hfinal. }
      eapply run_done;
        [apply Hdone, Is_Valid_invalid|by apply run_inv_in_itr|simpl; lia].
  - destruct (label_cb_inv orig m st label Hinv) as (st' & -> & Hinv' & Ho & Hi).
    { rewrite length_app. simpl. lia. }
    simpl. apply IH; [done|lia|lia].
Qed.

End Replay.

Lemma replay_start_inv nodes m :
  nodes ≠ [] -> Forall (fun n => length (recosts n) = m) nodes ->
  exists st, replay_start nodes = Some st /\ run_inv nodes m st /\
             in_itr st = O /\ out_itr st = O.
Proof.
  intros Hne Hlen. destruct nodes as [|first nodes]; [done|].
  eexists. split; [done|]. split; [|done].
  apply Forall_cons in Hlen as [Hf Hlen]. split_and!; simpl.
  - done.
  - intros [|i] n n'; simpl.
    + intros [= <-] [= <-]. split_and!; simpl; [done| |].
      * by rewrite take_app_le, take_ge by lia.
      * rewrite length_app. simpl. lia.
    + intros Hn Hn'. rewrite Hn in Hn'. injection Hn' as <-.
      rewrite Forall_lookup in Hlen. specialize (Hlen _ _ Hn).
      split_and!; simpl; [done| |done]. by rewrite take_ge by lia.
  - eexists _, _. split; [done|]. simpl.
    split; [by apply list_lookup_middle|done].
Qed.

Lemma recost_once_spec nodes m p :
  leg_shaped nodes -> Forall (fun n => length (recosts n) = m) nodes ->
  replay O p ->
  exists nodes' st0 o st,
    recost_once nodes p = Some nodes' /\
    Forall2 (grown m 1) nodes nodes' /\
    replay_start nodes = Some st0 /\ run_recost p st0 = Some (o, st) /\
    recost_entry o m nodes'.
Proof.
  intros (init & final & -> & Hfinal & Hinit) Hlen Hp.
  destruct (replay_start_inv (init ++ [final]) m) as (st0 & Hst0 & Hinv0 & Hi0 & Ho0);
    [by destruct init|done|].
  destruct (run_reading init final m Hfinal Hinit O p Hp st0 Hinv0)
    as (o & st & Hrun & Hinv & Hret); [lia|lia|].
  pose proof Hst0 as Hstart.
  unfold recost_once. unfold replay_start in Hst0.
  destruct ((init ++ [final]) !! O) as [first|] eqn:Hfirst; [|done].
  simpl in *. injection Hst0 as <-. rewrite Hrun. simpl.
  destruct Hinv as (Hl & Hnodes & (n0 & r0 & Hn0 & Hr0 & He0)).
  assert (length (init ++ [final]) = S (length init)) as HN.
  { rewrite length_app. simpl. lia. }
  destruct o.
  - (* the replay returned *)
    specialize (Hret eq_refl).
    assert (is_Some (rc_nodes st !! out_itr st)) as [n Hn].
    { apply lookup_lt_is_Some. lia. }
    assert (is_Some ((init ++ [final]) !! out_itr st)) as [no Hno].
    { apply lookup_lt_is_Some. lia. }
    destruct (Hnodes _ _ _ Hno Hn) as (Hs & Ht & Hlr).
    rewrite bool_decide_eq_true_2 in Hlr by lia.
    destruct (recosts_snoc n m Hlr) as (before & r & Hrec & Hbefore & Hrm).
    rewrite Hn. simpl. rewrite (set_last_transition_snoc n before r _ Hrec). simpl.
    eexists _, _, Returned, st. split_and!; [done| |exact Hstart|exact Hrun|].
    + apply Forall2_same_length_lookup. split; [by rewrite length_insert|].
      intros i x y Hx Hy. destruct (decide (i = out_itr st)) as [->|Hne].
      * rewrite list_lookup_insert_eq in Hy by lia. injection Hy as <-.
        rewrite Hno in Hx. injection Hx as <-. split_and!; simpl; [done| |].
        -- rewrite <- Ht, Hrec. by rewrite !take_app_le by lia.
        -- rewrite length_app. simpl. lia.
      * rewrite list_lookup_insert_ne in Hy by done.
        destruct (Hnodes _ _ _ Hx Hy) as (Hs' & Ht' & Hl').
        apply lookup_lt_Some in Hx.
        rewrite bool_decide_eq_true_2 in Hl' by lia.
        split_and!; [done..|lia].
    + split.
      * destruct (decide (out_itr st = O)) as [Hz|Hnz].
        -- rewrite Hz in *. rewrite list_lookup_insert_eq by lia.
           rewrite Hn in Hn0. injection Hn0 as <-.
           rewrite Hrm in Hr0. injection Hr0 as <-.
           eexists _, _. split; [done|]. simpl.
           split; [by apply list_lookup_middle|done].
        -- rewrite list_lookup_insert_ne by done. eauto.
      * rewrite last_lookup, length_insert, Hl, HN. simpl.
        rewrite <- Hret. rewrite list_lookup_insert_eq by lia.
        eexists _, _. split; [done|]. simpl.
        split; [by apply list_lookup_middle|done].
  - (* the replay threw *)
    rewrite Hn0. simpl.
    assert (is_Some ((init ++ [final]) !! O)) as [no Hno] by eauto.
    destruct (Hnodes _ _ _ Hno Hn0) as (_ & _ & Hl0).
    rewrite bool_decide_eq_true_2 in Hl0 by lia. rewrite Hl0.
    assert (forall i x y, (init ++ [final]) !! i = Some x ->
              rc_nodes st !! i = Some y ->
              grown m 1 x (pad_with_null (S m) y) /\
              recosts (pad_with_null (S m) y) !! m = Some null_recost) as Hpad.
    { intros i x y Hx Hy. destruct (Hnodes _ _ _ Hx Hy) as (Hs & Ht & Hly).
      unfold pad_with_null, grown. simpl.
      destruct (decide (length (recosts y) = S m)) as [Hc|Hc].
      - rewrite Hc. replace (S m - 1)%nat with m by lia.
        assert (length (take m (recosts y)) = m) as Htl.
        { rewrite length_take. lia. }
        split_and!; [done| | |].
        + by rewrite take_app_le, take_take, Nat.min_id by lia.
        + rewrite length_app. simpl. lia.
        + by apply list_lookup_middle.
      - assert (length (recosts y) = m) as Hm.
        { destruct (bool_decide _); [done|done]. }
        split_and!; [done| | |].
        + by rewrite take_app_le by lia.
        + rewrite length_app. simpl. lia.
        + by apply list_lookup_middle. }
    eexists _, _, Thrown, st. split_and!; [done| |exact Hstart|exact Hrun|].
    + apply Forall2_same_length_lookup. split; [by rewrite length_fmap|].
      intros i x y Hx Hy. rewrite list_lookup_fmap in Hy.
      destruct (rc_nodes st !! i) as [y'|] eqn:Hy'; [|done].
      injection Hy as <-. by apply (Hpad i).
    + simpl. apply Forall_forall. intros y' Hy'.
      apply list_elem_of_fmap in Hy' as (y & -> & Hy).
      apply list_elem_of_lookup in Hy as [i Hy].
      assert (is_Some ((init ++ [final]) !! i)) as [x Hx].
      { apply lookup_lt_is_Some. rewrite <- Hl. by eapply lookup_lt_Some. }
      by apply (Hpad i x).
Qed.

Lemma grown_trans m k j a b c :
  grown m k a b -> grown (m + k) j b c -> grown m (k + j) a c.
Proof.
  intros (Hs1 & Ht1 & Hl1) (Hs2 & Ht2 & Hl2). split_and!.
  - congruence.
  - rewrite <- Ht1, <- Ht2, take_take. f_equal. lia.
  - lia.
Qed.

Lemma grown_refl m n : length (recosts n) = m -> grown m 0 n n.
Proof. intros Hl. split_and!; [done| |lia]. by rewrite take_ge by lia. Qed.

Lemma grown_lookup m k n n' i :
  grown m k n n' -> (i < m)%nat -> recosts n' !! i = recosts n !! i.
Proof. intros (_ & <- & _) Hi. by rewrite lookup_take_lt. Qed.

Lemma leg_shaped_grown m k nodes nodes' :
  leg_shaped nodes -> Forall2 (grown m k) nodes nodes' -> leg_shaped nodes'.
Proof.
  intros (init & final & -> & Hfinal & Hinit) Hall.
  apply Forall2_app_inv_l in Hall as (init' & fin' & Hi & Hf & ->).
  apply Forall2_cons_inv_l in Hf as (final' & nil' & Hg & Hnil & ->).
  apply Forall2_nil_inv_l in Hnil as ->.
  exists init', final'. split_and!; [done| |].
  - destruct Hg as (Hs & _). by rewrite (strip_edge _ _ Hs).
  - clear Hg. induction Hi as [|x y l l' Hxy Hl IH]; [constructor|].
    apply Forall_cons in Hinit as [Hx Hinit]. constructor; [|by apply IH].
    destruct Hxy as (Hs & _). unfold node_edge_id.
    by rewrite (strip_edge _ _ Hs).
Qed.

Lemma recost_entry_grown o m j nodes nodes' :
  Forall2 (grown (S m) j) nodes nodes' ->
  recost_entry o m nodes -> recost_entry o m nodes'.
Proof.
  intros Hall. pose proof (Forall2_length _ _ _ Hall) as Hlen.
  rewrite Forall2_same_length_lookup in Hall. destruct Hall as [_ Hall].
  destruct o; simpl.
  - intros [(n0 & r & Hn0 & Hr & He) (nl & r' & Hnl & Hr' & Ht)]. split.
    + assert (is_Some (nodes' !! O)) as [n0' Hn0'].
      { apply lookup_lt_is_Some. rewrite <- Hlen. by eapply lookup_lt_Some. }
      exists n0', r. split_and!; [done| |done].
      rewrite (grown_lookup _ _ _ _ m (Hall _ _ _ Hn0 Hn0')) by lia. done.
    + rewrite last_lookup in Hnl.
      assert (is_Some (last nodes')) as [nl' Hnl'].
      { rewrite last_lookup. apply lookup_lt_is_Some.
        apply lookup_lt_Some in Hnl. lia. }
      exists nl', r'. split_and!; [done| |done].
      rewrite last_lookup, <- Hlen in Hnl'.
      rewrite (grown_lookup _ _ _ _ m (Hall _ _ _ Hnl Hnl')) by lia. done.
  - rewrite !Forall_forall. intros Hn n' Hn'.
    apply list_elem_of_lookup in Hn' as [i Hi].
    assert (is_Some (nodes !! i)) as [n Hni].
    { apply lookup_lt_is_Some. rewrite Hlen. by eapply lookup_lt_Some. }
    rewrite (grown_lookup _ _ _ _ m (Hall _ _ _ Hni Hi)) by lia.
    apply Hn. apply list_elem_of_lookup. eauto.
Qed.

Lemma recost_all_spec recostings :
  forall nodes m,
    leg_shaped nodes -> Forall (fun n => length (recosts n) = m) nodes ->
    Forall (replay O) recostings ->
    exists nodes',
      recost_all nodes recostings = Some nodes' /\
      Forall2 (grown m (length recostings)) nodes nodes' /\
      forall k p, recostings !! k = Some p ->
        exists before st0 o st,
          recost_all nodes (take k recostings) = Some before /\
          replay_start before = Some st0 /\
          run_recost p st0 = Some (o, st) /\
          recost_entry o (m + k) nodes'.
Proof.
  induction recostings as [|p0 rest IH]; intros nodes m Hshape Hlen Hps.
  - exists nodes. split_and!; [done| |by intros k p Hk].
    apply Forall2_same_length_lookup. split; [done|].
    intros i x y Hx Hy. rewrite Hx in Hy. injection Hy as <-.
    apply grown_refl. rewrite Forall_lookup in Hlen. by eapply Hlen.
  - apply Forall_cons in Hps as [Hp0 Hps].
    destruct (recost_once_spec nodes m p0 Hshape Hlen Hp0)
      as (nodes1 & st0 & o & st & Honce & Hg1 & Hst0 & Hrun & Hentry).
    assert (Forall (fun n => length (recosts n) = S m) nodes1) as Hlen1.
    { apply Forall_forall. intros n1 Hn1.
      apply list_elem_of_lookup in Hn1 as [i Hi].
      assert (is_Some (nodes !! i)) as [n Hni].
      { apply lookup_lt_is_Some. rewrite (Forall2_length _ _ _ Hg1).
        by eapply lookup_lt_Some. }
      rewrite Forall2_same_length_lookup in Hg1. destruct Hg1 as [_ Hg1].
      destruct (Hg1 _ _ _ Hni Hi) as (_ & _ & Hl). lia. }
    destruct (IH nodes1 (S m) (leg_shaped_grown _ _ _ _ Hshape Hg1) Hlen1 Hps)
      as (nodes' & Hall & Hg & Hk).
    exists nodes'. simpl. rewrite Honce. simpl. split_and!; [done| |].
    + apply Forall2_same_length_lookup. split.
      { rewrite (Forall2_length _ _ _ Hg1). by apply (Forall2_length _ _ _ Hg). }
      intros i x y Hx Hy.
      assert (is_Some (nodes1 !! i)) as [z Hz].
      { apply lookup_lt_is_Some. rewrite <- (Forall2_length _ _ _ Hg1).
        by eapply lookup_lt_Some. }
      rewrite Forall2_same_length_lookup in Hg1, Hg.
      destruct Hg1 as [_ Hg1]. destruct Hg as [_ Hg].
      apply (grown_trans m 1 (length rest) x z y); [by eapply Hg1|].
      replace (m + 1)%nat with (S m) by lia. by eapply Hg.
    + intros [|k] p Hp; simpl in *.
      * injection Hp as <-. exists nodes, st0, o, st.
        split_and!; [done..|]. rewrite Nat.add_0_r.
        by eapply recost_entry_grown.
      * destruct (Hk k p Hp) as (before & st0' & o' & st' & Hb & Hs & Hr & He).
        exists before, st0', o', st'. rewrite Honce. simpl.
        split_and!; [done..|]. by replace (m + S k)%nat with (S m + k)%nat by lia.
Qed.

(** C3.  On the nodes of a built leg whose recosts all have length [m],
    with replays that follow the protocol of [recost_forward], the function
    returns; every node has gained one recost per requested costing, so the
    recosts are of equal length across the nodes, and the entries it had
    are untouched.  For the [k]-th costing: if its replay throws, the entry
    of every node is the null entry; if it returns, the entry of the first
    node has elapsed cost 0 and that of the last node has transition cost
    0. *)
Theorem AccumulateRecostingInfoForward_recosts
    (recostings : list Recosting) (nodes : list TripLeg_Node) (m : nat) :
  leg_shaped nodes ->
  Forall (fun n => length (recosts n) = m) nodes ->
  Forall (replay O) recostings ->
  exists nodes',
    AccumulateRecostingInfoForward recostings nodes = Some nodes' /\
    Forall2 (fun n n' =>
               strip n' = strip n /\ take m (recosts n') = recosts n /\
               length (recosts n') = (m + length recostings)%nat)
            nodes nodes' /\
    forall k p, recostings !! k = Some p ->
      exists before st0 o st,
        AccumulateRecostingInfoForward (take k recostings) nodes = Some before /\
        replay_start before = Some st0 /\
        run_recost p st0 = Some (o, st) /\
        match o with
        | Thrown =>
            Forall (fun n' => recosts n' !! (m + k)%nat = Some null_recost) nodes'
        | Returned =>
            (exists n0 r, nodes' !! O = Some n0 /\
                          recosts n0 !! (m + k)%nat = Some r /\
                          r_elapsed_cost r = Some zero_cost) /\
            (exists nl r, last nodes' = Some nl /\
                          recosts nl !! (m + k)%nat = Some r /\
                          r_transition_cost r = Some zero_cost)
        end.
Proof.
  intros Hshape Hlen Hps.
  assert (length nodes ≠ O) as Hne.
  { destruct Hshape as (init & final & -> & _). rewrite length_app. simpl. lia. }
  unfold AccumulateRecostingInfoForward. rewrite decide_False by done.
  destruct (recost_all_spec recostings nodes m Hshape Hlen Hps)
    as (nodes' & Hall & Hg & Hk).
  exists nodes'. split_and!; [done..|].
  intros k p Hp. destruct (Hk k p Hp) as (before & st0 & o & st & Hb & Hs & Hr & He).
  exists before, st0, o, st. rewrite decide_False by done.
  split_and!; [done..|]. by destruct o.
Qed.

(** ** Recosting leaves everything but the recosts alone

    This holds for every replay, whether or not it follows the protocol. *)

Lemma set_last_transition_strip n c n' :
  set_last_transition n c = Some n' -> strip n' = strip n.
Proof.
  unfold set_last_transition. destruct (reverse (recosts n)); [done|].
  by intros [= <-].
Qed.

Lemma strip_insert_same (nodes : list TripLeg_Node) i n n' :
  nodes !! i = Some n -> strip n' = strip n ->
  strip <$> <[i := n']> nodes = strip <$> nodes.
Proof.
  intros Hi Hs. rewrite list_fmap_insert, Hs. apply list_insert_id.
  by rewrite list_lookup_fmap, Hi.
Qed.

Lemma label_cb_strip label st st' :
  label_cb label st = Some st' -> strip <$> rc_nodes st' = strip <$> rc_nodes st.
Proof.
  unfold label_cb. intros (n & Hn & H1)%bind_Some.
  apply bind_Some in H1 as (n' & Hn' & H1).
  apply bind_Some in H1 as (next & Hnext & H1). injection H1 as <-. simpl.
  rewrite (strip_insert_same _ _ next) by done.
  apply (strip_insert_same _ _ n); [done|]. by eapply set_last_transition_strip.
Qed.

Lemma run_recost_strip p :
  forall st o st',
    run_recost p st = Some (o, st') ->
    strip <$> rc_nodes st' = strip <$> rc_nodes st.
Proof.
  induction p as [| |k IH|label k IH]; intros st o st'; simpl.
  - by intros [= _ <-].
  - by intros [= _ <-].
  - intros ([e st1] & He & Hrun)%bind_Some. simpl in Hrun.
    rewrite (IH _ _ _ _ Hrun). unfold edge_cb in He.
    apply bind_Some in He as (n & _ & He). by injection He as _ <-.
  - intros (st1 & Hl & Hrun)%bind_Some.
    rewrite (IH _ _ _ Hrun). by eapply label_cb_strip.
Qed.

Lemma recost_once_strip nodes p nodes' :
  recost_once nodes p = Some nodes' -> strip <$> nodes' = strip <$> nodes.
Proof.
  unfold recost_once. intros (first & Hfirst & H1)%bind_Some.
  apply bind_Some in H1 as ([o st] & Hrun & H1). simpl in H1.
  apply run_recost_strip in Hrun. simpl in Hrun.
  rewrite (strip_insert_same _ _ first) in Hrun by done.
  destruct o.
  - apply bind_Some in H1 as (n & Hn & H1).
    apply bind_Some in H1 as (n' & Hn' & H1). injection H1 as <-.
    rewrite <- Hrun. apply (strip_insert_same _ _ n); [done|].
    by eapply set_last_transition_strip.
  - apply bind_Some in H1 as (n & Hn & H1). injection H1 as <-.
    rewrite <- Hrun, <- list_fmap_compose. by apply list_fmap_ext.
Qed.

Lemma AccumulateRecostingInfoForward_strip recostings nodes nodes' :
  AccumulateRecostingInfoForward recostings nodes = Some nodes' ->
  strip <$> nodes' = strip <$> nodes.
Proof.
  unfold AccumulateRecostingInfoForward. case_decide; [by intros [= <-]|].
  clear. revert nodes. induction recostings as [|p rest IH]; intros nodes; simpl.
  - by intros [= <-].
  - intros (nodes1 & H1 & Hrest)%bind_Some.
    rewrite (IH _ Hrest). by eapply recost_once_strip.
Qed.

Lemma strip_fmap_lookup (nodes nodes' : list TripLeg_Node) i n' :
  strip <$> nodes' = strip <$> nodes -> nodes' !! i = Some n' ->
  exists n, nodes !! i = Some n /\ strip n' = strip n.
Proof.
  intros Heq Hi. apply (f_equal (fun l => l !! i)) in Heq.
  rewrite !list_lookup_fmap, Hi in Heq. simpl in Heq.
  destruct (nodes !! i) as [n|]; [|done].
  exists n. split; [done|]. simpl in Heq. congruence.
Qed.

(** ** The loop over the path *)

Lemma wrap32_le z : 0 <= z -> wrap32 z <= z.
Proof. intros. unfold wrap32. apply Z.mod_le; lia. Qed.

Lemma GetAdminIndex_bound a m l :
  admin_bound m l ->
  admin_bound (GetAdminIndex a m l).1.2 (GetAdminIndex a m l).2 /\
  0 <= (GetAdminIndex a m l).1.1 < Z.of_nat (length (GetAdminIndex a m l).2) /\
  exists suffix, (GetAdminIndex a m l).2 = l ++ suffix.
Proof.
  intros Hb. unfold GetAdminIndex. destruct (m !! a) as [i|] eqn:Hi; simpl.
  - split_and!; [done|by eapply Hb|by eapply Hb|].
    exists []. by rewrite app_nil_r.
  - pose proof (wrap32_range (Z.of_nat (length l))).
    pose proof (wrap32_le (Z.of_nat (length l))).
    rewrite length_app. simpl. split_and!; [|lia|lia|by eexists].
    intros b i. rewrite lookup_insert. case_decide.
    + intros [= <-]. rewrite length_app. simpl. lia.
    + intros Hbi. apply Hb in Hbi. rewrite length_app. simpl. lia.
Qed.

Lemma node_admin_index_bound controller tile n m l ai m' l' :
  node_admin_index controller tile n m l = Some (ai, m', l') ->
  admin_bound m l ->
  admin_bound m' l' /\
  (forall i, ai = Some i -> 0 <= i < Z.of_nat (length l')) /\
  (ai = None <-> attributes controller kNodeaAdminIndex = false) /\
  exists suffix, l' = l ++ suffix.
Proof.
  unfold node_admin_index. intros H1 Hb.
  destruct (attributes controller kNodeaAdminIndex).
  - apply bind_Some in H1 as (a & _ & H1).
    destruct (GetAdminIndex_bound a m l Hb) as (Hb' & Hi & Hsuf).
    destruct (GetAdminIndex a m l) as [[i m1] l1]. injection H1 as <- <- <-.
    simpl in *. split_and!; [done| |done|done]. by intros ? [= <-].
  - injection H1 as <- <- <-. split_and!; [done..|]. exists []. by rewrite app_nil_r.
Qed.

Lemma node_admin_index_shape controller tile n m l ai m' l' :
  node_admin_index controller tile n m l = Some (ai, m', l') ->
  (ai = None <-> attributes controller kNodeaAdminIndex = false) /\
  exists suffix, l' = l ++ suffix.
Proof.
  unfold node_admin_index. intros H1.
  destruct (attributes controller kNodeaAdminIndex).
  - apply bind_Some in H1 as (a & _ & H1). unfold GetAdminIndex in H1.
    destruct (m !! a); injection H1 as <- <- <-.
    + split; [done|]. exists []. by rewrite app_nil_r.
    + split; [done|]. by eexists.
  - injection H1 as <- <- <-. split; [done|]. exists []. by rewrite app_nil_r.
Qed.

Lemma append_edge_shape_spec de ei is_first is_last k sp ep sv ev ts et
    ts' b tsp tep et' :
  append_edge_shape de ei is_first is_last k sp ep sv ev ts et =
    Some (ts', b, tsp, tep, et') ->
  b = (if is_first then 0
       else if trimmed_begin et k then wrap32 (shape_index ts + 1)
       else shape_index ts) /\
  forall j, j ≠ k -> trim_lookup et' j = trim_lookup et j.
Proof.
  unfold append_edge_shape, trimmed_begin, trim_lookup.
  destruct et as [m|]; simpl.
  - destruct (m !! k) as [[bi ei']|] eqn:Hk; simpl.
    + intros [= <- <- <- <- <-]. split.
      * destruct is_first; simpl; [by rewrite andb_false_r|].
        by destruct (trim bi).
      * intros j Hj. simpl. by rewrite lookup_insert_ne.
    + destruct (is_first || is_last) eqn:Hfl.
      * destruct is_first.
        -- intros (back & _ & [= <- <- <- <- <-])%bind_Some. done.
        -- intros (front & _ & [= <- <- <- <- <-])%bind_Some. done.
      * intros [= <- <- <- <- <-]. by destruct is_first.
  - destruct (is_first || is_last) eqn:Hfl.
    + destruct is_first.
      * intros (back & _ & [= <- <- <- <- <-])%bind_Some. done.
      * intros (front & _ & [= <- <- <- <- <-])%bind_Some. done.
    + intros [= <- <- <- <- <-]. by destruct is_first.
Qed.

Lemma build_step_spec controller graphreader mode_costing travel_types
    start_pct end_pct start_vrt end_vrt prev edge_index is_last edge_itr st st' :
  build_step controller graphreader mode_costing travel_types start_pct end_pct
    start_vrt end_vrt prev edge_index is_last edge_itr st = Some st' ->
  step_facts controller graphreader edge_index edge_itr st st'.
Proof.
  unfold build_step. intros H1.
  apply bind_Some in H1 as (graphtile & Hgt & H1).
  apply bind_Some in H1 as (de & Hde & H1).
  apply bind_Some in H1 as (start_tile & Hst & H1).
  apply bind_Some in H1 as (nd & Hnd & H1).
  apply bind_Some in H1 as ([[ai m'] l'] & Hadm & H1).
  apply bind_Some in H1 as (trip_edge & Hedge & H1).
  apply bind_Some in H1 as ([[[[ts b] tsp] tep] et'] & Happ & H1).
  apply bind_Some in H1 as (c & Hc & H1).
  apply bind_Some in H1 as ([ts' sa'] & Hsa & H1).
  apply append_edge_shape_spec in Happ as [Hb Het].
  assert (bs_node st' = bs_node st ++ [
            {| edge := Some
                 (set_shape_fields trip_edge
                    (value_if controller kEdgeLength
                       (n_max (n_of_Z (de_length de) * n_lit "kKmPerMeter" *
                               (tep - tsp))%num (n_lit "0.001")))
                    (value_if controller kEdgeBeginShapeIndex b)
                    (value_if controller kEdgeEndShapeIndex (shape_index ts'))
                    (SetHeadings controller de ts' b).1
                    (SetHeadings controller de ts' b).2);
               n_type := value_if controller kNodeType (node_type nd);
               fork := flag_if controller kNodeFork (is_fork nd);
               cost_elapsed :=
                 value_if controller kNodeElapsedTime
                   match prev with
                   | Some p => elapsed_cost p
                   | None => zero_cost
                   end;
               cost_transition :=
                 value_if controller kNodeTransitionTime (transition_cost edge_itr);
               admin_index := ai;
               time_zone :=
                 if attributes controller kNodeTimeZone
                 then tz_name (timezone nd) else None;
               recosts := [] |}] /\
          bs_trip_shape st' = ts' /\ bs_startnode st' = endnode de /\
          bs_edge_trimming st' = et' /\
          bs_admin_info_map st' = m' /\ bs_admin_info_list st' = l' /\
          (bs_is_first_edge st' = true ->
           GetGraphTile graphreader (endnode de) = None)) as Hst'.
  { destruct (negb (IsTransitLine de)).
    - destruct (leaves_tile de) eqn:Hlt.
      + destruct (GetGraphTile graphreader (endnode de)) as [t2|] eqn:Ht2.
        * apply bind_Some in H1 as (? & _ & H1). injection H1 as <-. done.
        * injection H1 as <-. done.
      + apply bind_Some in H1 as (? & _ & H1). injection H1 as <-. done.
    - injection H1 as <-. done. }
  destruct Hst' as (Hn & Hts & Hsn & Hetq & Hm & Hl & Hfirst).
  eexists _, _. split; [exact Hn|]. simpl.
  split_and!; try done.
  - change (id trip_edge = value_if controller kEdgeId (edgeid edge_itr)).
    by eapply AddTripEdge_id.
  - by rewrite Hb.
  - by rewrite Hts.
  - by rewrite Hsn.
  - by rewrite Hetq.
  - rewrite Hl. by destruct (node_admin_index_shape _ _ _ _ _ _ _ _ Hadm).
  - by destruct (node_admin_index_shape _ _ _ _ _ _ _ _ Hadm).
  - intros Hbound. rewrite Hm, Hl.
    destruct (node_admin_index_bound _ _ _ _ _ _ _ _ Hadm Hbound) as (? & ? & _).
    done.
Qed.

Lemma shape_index_range ts : 0 <= shape_index ts < 2 ^ 32.
Proof. apply wrap32_range. Qed.

Lemma loop_inv_step controller graphreader edge_trimming k edge_itr st st' :
  loop_inv controller graphreader edge_trimming k st ->
  step_facts controller graphreader k edge_itr st st' ->
  loop_inv controller graphreader edge_trimming (S k) st'.
Proof.
  intros [Hlen Hfirst Hedges Hlast Htrim Hlinks Hab Hadmin Hflag]
    (tn & te & Hn & Hte & Hrc & _ & Hbegin & Hend & Htile & Hfirst' & Htrim' &
     (suffix & Hsuf) & Hnone & Hbound).
  destruct (Hbound Hab) as [Hab' Hai].
  constructor.
  - rewrite Hn, length_app. simpl. lia.
  - intros _. apply Hfirst'.
  - rewrite Hn. apply Forall_app. split; [done|]. constructor; [|done].
    split; [by eexists|done].
  - intros n e. rewrite Hn, last_snoc. intros [= <-]. rewrite Hte.
    by intros [= <-].
  - intros j Hj. rewrite Htrim' by lia. apply Htrim. lia.
  - intros i n1 n2 e1 e2. rewrite Hn. intros H1 H2 He1 He2.
    destruct (decide (S i < k)%nat) as [Hlt|Hge].
    + rewrite lookup_app_l in H1, H2 by lia. by eapply Hlinks.
    + assert (S i = k) as Hk.
      { apply lookup_lt_Some in H2. rewrite length_app in H2. simpl in H2. lia. }
      rewrite lookup_app_l in H1 by lia.
      rewrite lookup_app_r in H2 by lia.
      replace (S i - length (bs_node st))%nat with O in H2 by lia.
      injection H2 as <-. rewrite Hte in He2. injection He2 as <-.
      assert (bs_is_first_edge st = false) as Hnf.
      { destruct (bs_is_first_edge st) eqn:Hf; [|done].
        rewrite Hfirst in Htile by (done || lia). by destruct Htile. }
      rewrite Hnf in Hbegin.
      assert (last (bs_node st) = Some n1) as Hl1.
      { rewrite last_lookup, <- H1. f_equal. lia. }
      exists (shape_index (bs_trip_shape st)).
      split; [apply shape_index_range|]. split; [by eapply Hlast|].
      rewrite Hbegin, Hk. unfold trimmed_begin. by rewrite Htrim by lia.
  - done.
  - rewrite Hn. apply Forall_app. split; [|constructor; [done|constructor]].
    eapply Forall_impl; [exact Hadmin|]. intros n Hni i Hi.
    specialize (Hni i Hi). rewrite Hsuf, length_app. lia.
  - rewrite Hn. apply Forall_app. split; [done|constructor; [done|constructor]].
Qed.

Lemma build_loop_inv controller graphreader mode_costing travel_types
    start_pct end_pct start_vrt end_vrt edge_trimming steps :
  forall prev k st st',
    build_loop controller graphreader mode_costing travel_types start_pct
      end_pct start_vrt end_vrt prev k steps st = Some st' ->
    loop_inv controller graphreader edge_trimming k st ->
    loop_inv controller graphreader edge_trimming (k + length steps) st'.
Proof.
  induction steps as [|edge_itr steps IH]; intros prev k st st'; simpl.
  - intros [= <-]. by rewrite Nat.add_0_r.
  - intros (st1 & Hstep & Hloop)%bind_Some Hinv.
    apply build_step_spec in Hstep.
    replace (k + S (length steps))%nat with (S k + length steps)%nat by lia.
    eapply IH; [done|]. by eapply loop_inv_step.
Qed.

(** ** Build *)




(** What the leg of a path of several edges is made of. *)
Lemma build_multi_spec recostings controller graphreader mode_costing path
    origin locations startnode start_pct end_pct start_vrt end_vrt
    edge_trimming leg edge_trimming' :
  build_multi recostings controller graphreader mode_costing path origin
    locations startnode start_pct end_pct start_vrt end_vrt edge_trimming =
    Some (leg, edge_trimming') ->
  exists st last_node admin_info_list,
    loop_inv controller graphreader edge_trimming (length path) st /\
    edge last_node = None /\
    strip <$> leg_node leg = strip <$> (bs_node st ++ [last_node]) /\
    admin leg = AssignAdmins controller admin_info_list /\
    (exists suffix, admin_info_list = bs_admin_info_list st ++ suffix) /\
    (forall i, admin_index last_node = Some i ->
               0 <= i < Z.of_nat (length admin_info_list)).
Proof.
  unfold build_multi. intros (st & Hloop & H1)%bind_Some.
  apply bind_Some in H1 as ([ai l] & Hadm & H1).
  apply bind_Some in H1 as (last_step & _ & H1).
  apply bind_Some in H1 as (nodes & Hacc & H1).
  injection H1 as <- <-.
  apply AccumulateRecostingInfoForward_strip in Hacc.
  eapply (build_loop_inv _ _ _ _ _ _ _ _ edge_trimming) in Hloop.
  2:{ constructor; simpl; done. }
  simpl in Hloop. pose proof Hloop as [_ _ _ _ _ _ Hab _ _].
  eexists st, _, l. split_and!; [exact Hloop| |exact Hacc|done| |]; simpl.
  - done.
  - destruct (attributes controller kNodeaAdminIndex).
    + apply bind_Some in Hadm as (lt & _ & Hadm).
      apply bind_Some in Hadm as (ln & _ & Hadm).
      apply bind_Some in Hadm as (a & _ & Hadm).
      destruct (GetAdminIndex_bound a (bs_admin_info_map st)
                  (bs_admin_info_list st) Hab)
        as (_ & _ & Hsuf).
      destruct (GetAdminIndex a _ _) as [[i m1] l1]. by injection Hadm as <- <-.
    + injection Hadm as <- <-. exists []. by rewrite app_nil_r.
  - destruct (attributes controller kNodeaAdminIndex).
    + apply bind_Some in Hadm as (lt & _ & Hadm).
      apply bind_Some in Hadm as (ln & _ & Hadm).
      apply bind_Some in Hadm as (a & _ & Hadm).
      destruct (GetAdminIndex_bound a (bs_admin_info_map st)
                  (bs_admin_info_list st) Hab)
        as (_ & Hi & _).
      destruct (GetAdminIndex a _ _) as [[i m1] l1]. injection Hadm as <- <-.
      by intros ? [= <-].
    + by injection Hadm as <- <-.
Qed.

(** What the leg of a single-edge path is made of. *)
Lemma build_single_spec recostings controller graphreader mode_costing
    path_begin origin locations startnode start_pct end_pct end_sos
    start_vrt end_vrt leg :
  build_single recostings controller graphreader mode_costing path_begin origin
    locations startnode start_pct end_pct end_sos start_vrt end_vrt = Some leg ->
  exists first_node last_node admin_info_list,
    is_Some (edge first_node) /\ admin_index first_node = None /\
    edge last_node = None /\
    strip <$> leg_node leg = strip <$> [first_node; last_node] /\
    admin leg = AssignAdmins controller admin_info_list /\
    forall i, admin_index last_node = Some i ->
      0 <= i < Z.of_nat (length admin_info_list) \/
      (i = 0 /\ admin_info_list = [] /\
       exists edge : DirectedEdge,
         GetGraphTile graphreader (endnode edge) = None).
Proof.
  unfold build_single. intros (tile & _ & H1)%bind_Some.
  apply bind_Some in H1 as (edge0 & _ & H1).
  apply bind_Some in H1 as ([edge1 tile1] & _ & H1).
  apply bind_Some in H1 as (opp & _ & H1).
  apply bind_Some in H1 as (sni & _ & H1).
  apply bind_Some in H1 as (trip_edge & _ & H1).
  apply bind_Some in H1 as (c & _ & H1).
  apply bind_Some in H1 as ([shape' sa'] & _ & H1).
  apply bind_Some in H1 as ([ai l] & Hadm & H1).
  apply bind_Some in H1 as (nodes & Hacc & H1).
  injection H1 as <-. simpl.
  apply AccumulateRecostingInfoForward_strip in Hacc.
  eexists _, _, l. split_and!; [| | |exact Hacc|done|]; simpl.
  - by eexists.
  - done.
  - done.
  - intros i ->.
    destruct (GetGraphTile graphreader (endnode edge1)) as [end_tile|] eqn:Het.
    + left. destruct (attributes controller kNodeaAdminIndex); [|done].
      apply bind_Some in Hadm as (en & _ & Hadm).
      apply bind_Some in Hadm as (a & _ & Hadm).
      unfold GetAdminIndex in Hadm. rewrite lookup_empty in Hadm.
      injection Hadm as <- <-. simpl. unfold wrap32.
      change (Z.of_nat 0) with 0. rewrite Z.mod_0_l by lia. lia.
    + right. unfold value_if in Hadm.
      destruct (attributes controller kNodeaAdminIndex); [|done].
      injection Hadm as <- <-. split_and!; [done..|]. by exists edge1.
Qed.

Lemma Build_cases recostings controller graphreader mode_costing path origin
    dest through_loc interrupted edge_trimming leg edge_trimming' :
  Build recostings controller graphreader mode_costing path origin dest
    through_loc interrupted edge_trimming = Some (leg, edge_trimming') ->
  (length path = 1%nat /\
   exists path_begin locations startnode start_pct end_pct end_sos start_vrt end_vrt,
     build_single recostings controller graphreader mode_costing path_begin
       origin locations startnode start_pct end_pct end_sos start_vrt end_vrt =
       Some leg) \/
  ((1 < length path)%nat /\
   exists locations startnode start_pct end_pct start_vrt end_vrt,
     build_multi recostings controller graphreader mode_costing path origin
       locations startnode start_pct end_pct start_vrt end_vrt edge_trimming =
       Some (leg, edge_trimming')).
Proof.
  unfold Build. destruct interrupted; [done|].
  intros (locations & _ & H1)%bind_Some.
  apply bind_Some in H1 as (path_begin & Hpb & H1).
  apply bind_Some in H1 as (path_last & _ & H1).
  apply bind_Some in H1 as (startnode & _ & H1).
  destruct (snapped origin _) as [[start_pct start_sos] start_vrt].
  destruct (snapped dest _) as [[end_pct end_sos] end_vrt].
  case_decide as Hlen.
  - apply bind_Some in H1 as (leg' & Hs & H1). injection H1 as <- <-.
    left. split; [done|]. by eexists _, _, _, _, _, _, _, _.
  - right. split; [|by eexists _, _, _, _, _, _].
    apply lookup_lt_Some in Hpb. lia.
Qed.




Lemma wrap32_succ z : 0 <= z < 2 ^ 32 - 1 -> wrap32 (z + 1) = z + 1.
Proof. intros. apply wrap32_small. lia. Qed.

(** C4.  After a successful [Build] with both shape-index attributes on,
    consecutive edge records [i] and [i+1] agree: the begin index of the
    second is the end index of the first, unless the trimming map that
    [Build] received has an entry for edge [i+1] whose begin is trimmed;
    then it is the end index plus one (in the 32 bits of the field). *)
Theorem Build_shape_indices_contiguous
    (recostings : list Recosting) (controller : AttributesController)
    (graphreader : GraphReader) (mode_costing : TravelMode -> option DynamicCost)
    (path : list PathInfo) (origin dest : Location) (through_loc : list Location)
    (interrupted : bool)
    (edge_trimming : option (gmap nat (EdgeTrimmingInfo * EdgeTrimmingInfo)))
    (leg : TripLeg)
    (edge_trimming' : option (gmap nat (EdgeTrimmingInfo * EdgeTrimmingInfo))) :
  Build recostings controller graphreader mode_costing path origin dest
    through_loc interrupted edge_trimming = Some (leg, edge_trimming') ->
  attributes controller kEdgeBeginShapeIndex = true ->
  attributes controller kEdgeEndShapeIndex = true ->
  forall i n1 n2 e1 e2,
    leg_node leg !! i = Some n1 -> leg_node leg !! S i = Some n2 ->
    edge n1 = Some e1 -> edge n2 = Some e2 ->
    exists end_index begin_index,
      end_shape_index e1 = Some end_index /\
      begin_shape_index e2 = Some begin_index /\
      0 <= end_index < 2 ^ 32 /\
      (trimmed_begin edge_trimming (S i) = false -> begin_index = end_index) /\
      (trimmed_begin edge_trimming (S i) = true ->
       begin_index = wrap32 (end_index + 1) /\
       (end_index < 2 ^ 32 - 1 -> begin_index = end_index + 1)).
Proof.
  intros HB Hbeg Hend i n1 n2 e1 e2 H1 H2 He1 He2.
  assert (exists nodes final,
            strip <$> leg_node leg = strip <$> (nodes ++ [final]) /\
            edge final = None /\
            forall i n1 n2 e1 e2,
              nodes !! i = Some n1 -> nodes !! S i = Some n2 ->
              edge n1 = Some e1 -> edge n2 = Some e2 ->
              shape_link controller edge_trimming (S i) e1 e2)
    as (nodes & final & Hstrip & Hfinal & Hlinks).
  { destruct (Build_cases _ _ _ _ _ _ _ _ _ _ _ _ HB)
      as [[Hlen (pb & locs & sn & sp & ep & es & sv & ev & Hs)]
         |[Hlen (locs & sn & sp & ep & sv & ev & Hm)]].
    - destruct (build_single_spec _ _ _ _ _ _ _ _ _ _ _ _ _ _ Hs)
        as (first & final & l & Hf & _ & Hl & Hstrip & _).
      exists [first], final. split_and!; [done..|]. by intros [|?].
    - destruct (build_multi_spec _ _ _ _ _ _ _ _ _ _ _ _ _ _ _ Hm)
        as (st & final & l & Hinv & Hl & Hstrip & _).
      exists (bs_node st), final. by destruct Hinv. }
  destruct (strip_fmap_lookup _ _ _ _ Hstrip H1) as (m1 & Hm1 & Hs1).
  destruct (strip_fmap_lookup _ _ _ _ Hstrip H2) as (m2 & Hm2 & Hs2).
  rewrite (strip_edge _ _ Hs1) in He1. rewrite (strip_edge _ _ Hs2) in He2.
  assert (S i < length nodes)%nat as Hlt.
  { destruct (decide (S i < length nodes)%nat) as [|Hge]; [done|].
    apply lookup_lt_Some in Hm2 as Hb. rewrite length_app in Hb. simpl in Hb.
    rewrite lookup_app_r in Hm2 by lia.
    replace (S i - length nodes)%nat with O in Hm2 by lia.
    injection Hm2 as <-. congruence. }
  rewrite lookup_app_l in Hm1, Hm2 by lia.
  destruct (Hlinks _ _ _ _ _ Hm1 Hm2 He1 He2) as (end_index & Hr & He & Hb).
  unfold value_if in He, Hb. rewrite Hend in He. rewrite Hbeg in Hb.
  eexists _, _. split_and!; [done|done|lia|lia| |].
  - intros Ht. by rewrite Ht.
  - intros Ht. rewrite Ht. split; [done|]. intros. apply wrap32_succ. lia.
Qed.

(** [Build] ends in one of its two branches, on the path that it was
    given. *)
Lemma Build_branches recostings controller graphreader mode_costing path origin
    dest through_loc interrupted edge_trimming leg edge_trimming' :
  Build recostings controller graphreader mode_costing path origin dest
    through_loc interrupted edge_trimming = Some (leg, edge_trimming') ->
  exists path_begin path_last startnode locations,
    path !! O = Some path_begin /\ last path = Some path_last /\
    first_startnode graphreader path_begin = Some startnode /\
    ((path = [path_begin] /\ edge_trimming' = edge_trimming /\
      build_single recostings controller graphreader mode_costing path_begin
        origin locations startnode
        (snapped origin (edgeid path_begin)).1.1
        (snapped dest (edgeid path_last)).1.1
        (snapped dest (edgeid path_last)).1.2
        (snapped origin (edgeid path_begin)).2
        (snapped dest (edgeid path_last)).2 = Some leg) \/
     ((1 < length path)%nat /\
      build_multi recostings controller graphreader mode_costing path origin
        locations startnode (snapped origin (edgeid path_begin)).1.1
        (snapped dest (edgeid path_last)).1.1
        (snapped origin (edgeid path_begin)).2
        (snapped dest (edgeid path_last)).2 edge_trimming =
        Some (leg, edge_trimming'))).
Proof.
  unfold Build. destruct interrupted; [done|].
  intros (locations & _ & H1)%bind_Some.
  apply bind_Some in H1 as (path_begin & Hpb & H1).
  apply bind_Some in H1 as (path_last & Hpl & H1).
  apply bind_Some in H1 as (startnode & Hsn & H1).
  exists path_begin, path_last, startnode.
  destruct (snapped origin _) as [[start_pct start_sos] start_vrt].
  destruct (snapped dest _) as [[end_pct end_sos] end_vrt]. simpl.
  eexists. split_and!; [done..|].
  case_decide as Hlen.
  - apply bind_Some in H1 as (leg' & Hs & H1). injection H1 as <- <-.
    left. split_and!; [|done|].
    + destruct path as [|p [|q path]]; simpl in *; try done. by injection Hpb as <-.
    + exact Hs.
  - right. split; [|exact H1].
    apply lookup_lt_Some in Hpb. lia.
Qed.

(** The admin index of the last node of a single-edge leg, and where an
    index outside the admin list comes from: the branch of lines 1390-1393,
    taken when [GetGraphTile] finds no tile for the end node of the edge
    that is traversed. *)
Lemma build_single_admin recostings controller graphreader mode_costing
    path_begin origin locations startnode start_pct end_pct end_sos
    start_vrt end_vrt leg :
  build_single recostings controller graphreader mode_costing path_begin origin
    locations startnode start_pct end_pct end_sos start_vrt end_vrt = Some leg ->
  exists first_node last_node admin_info_list,
    admin_index first_node = None /\
    strip <$> leg_node leg = strip <$> [first_node; last_node] /\
    admin leg = AssignAdmins controller admin_info_list /\
    forall i, admin_index last_node = Some i ->
      0 <= i < Z.of_nat (length admin_info_list) \/
      (i = 0 /\ admin_info_list = [] /\
       exists tile edge0 opp,
         GetGraphTile graphreader (edgeid path_begin) = Some tile /\
         tile_directededge tile (edgeid path_begin) = Some edge0 /\
         GetOpposingEdge graphreader (edgeid path_begin) = Some opp /\
         is_Some (nodeinfo graphreader (endnode opp.1)) /\
         GetGraphTile graphreader
           (endnode (if (end_pct <? start_pct)%num then opp.1 else edge0)) = None).
Proof.
  unfold build_single. intros (tile & Htile & H1)%bind_Some.
  apply bind_Some in H1 as (edge0 & Hedge0 & H1).
  apply bind_Some in H1 as ([edge1 tile1] & Htaken & H1).
  apply bind_Some in H1 as (opp & Hopp & H1).
  apply bind_Some in H1 as (sni & Hsni & H1).
  apply bind_Some in H1 as (trip_edge & _ & H1).
  apply bind_Some in H1 as (c & _ & H1).
  apply bind_Some in H1 as ([shape' sa'] & _ & H1).
  apply bind_Some in H1 as ([ai l] & Hadm & H1).
  apply bind_Some in H1 as (nodes & Hacc & H1).
  injection H1 as <-. simpl.
  apply AccumulateRecostingInfoForward_strip in Hacc.
  eexists _, _, l. split_and!; [|exact Hacc|done|]; simpl; [done|].
  intros i ->.
  destruct (GetGraphTile graphreader (endnode edge1)) as [end_tile|] eqn:Het.
  - left. destruct (attributes controller kNodeaAdminIndex); [|done].
    apply bind_Some in Hadm as (en & _ & Hadm).
    apply bind_Some in Hadm as (a & _ & Hadm).
    unfold GetAdminIndex in Hadm. rewrite lookup_empty in Hadm.
    injection Hadm as <- <-. simpl. unfold wrap32.
    change (Z.of_nat 0) with 0. rewrite Z.mod_0_l by lia. lia.
  - right. unfold value_if in Hadm.
    destruct (attributes controller kNodeaAdminIndex); [|done].
    injection Hadm as <- <-. split_and!; [done..|].
    exists tile, edge0, opp. split_and!; [done|done|done|by eexists|].
    destruct (end_pct <? start_pct)%num.
    + rewrite Hopp in Htaken. injection Htaken as ->. done.
    + injection Htaken as <- _. done.
Qed.

(** C7, as the code has it.  After a successful [Build] with the admin
    category enabled, every admin index that a node carries is a position
    in the admin list of the leg, with one exception: a single-edge leg
    traversed against its edge, for which [GetGraphTile] finds no tile for
    the end node of the opposing edge although [nodeinfo] has answered for
    that node (line 1349); there the index is 0 and the admin list is
    empty.  With a reader whose [nodeinfo] answers only for nodes whose
    tile [GetGraphTile] finds, there is no exception. *)
Theorem Build_admin_index_valid
    (recostings : list Recosting) (controller : AttributesController)
    (graphreader : GraphReader) (mode_costing : TravelMode -> option DynamicCost)
    (path : list PathInfo) (origin dest : Location) (through_loc : list Location)
    (interrupted : bool)
    (edge_trimming : option (gmap nat (EdgeTrimmingInfo * EdgeTrimmingInfo)))
    (leg : TripLeg)
    (edge_trimming' : option (gmap nat (EdgeTrimmingInfo * EdgeTrimmingInfo))) :
  Build recostings controller graphreader mode_costing path origin dest
    through_loc interrupted edge_trimming = Some (leg, edge_trimming') ->
  category_attribute_enabled controller kAdminCategory = true ->
  forall n i, n ∈ leg_node leg -> admin_index n = Some i ->
    (0 <= i < Z.of_nat (length (admin leg)) \/
     exists path_begin opp,
       path = [path_begin] /\ i = 0 /\ admin leg = [] /\
       ((snapped dest (edgeid path_begin)).1.1 <?
        (snapped origin (edgeid path_begin)).1.1)%num = true /\
       GetOpposingEdge graphreader (edgeid path_begin) = Some opp /\
       is_Some (nodeinfo graphreader (endnode opp.1)) /\
       GetGraphTile graphreader (endnode opp.1) = None) /\
    ((forall node_id, is_Some (nodeinfo graphreader node_id) ->
                      is_Some (GetGraphTile graphreader node_id)) ->
     0 <= i < Z.of_nat (length (admin leg))).
Proof.
  intros HB Hcat n i Hn Hi.
  apply list_elem_of_lookup in Hn as [k Hk].
  assert (forall l, length (AssignAdmins controller l) = length l) as Hadm.
  { intros l. unfold AssignAdmins. by rewrite Hcat, length_fmap. }
  destruct (Build_branches _ _ _ _ _ _ _ _ _ _ _ _ HB)
    as (pb & pl & sn & locs & Hpb & Hpl & Hsn & [(-> & _ & Hs)|(Hlen & Hm)]).
  - simpl in Hpl. injection Hpl as <-.
    destruct (build_single_admin _ _ _ _ _ _ _ _ _ _ _ _ _ _ Hs)
      as (first & final & l & Hf & Hstrip & Hadmin & Hlast).
    destruct (strip_fmap_lookup _ _ _ _ Hstrip Hk) as (n0 & Hn0 & Hs0).
    assert (admin_index n = admin_index n0) as Hai.
    { by apply (f_equal admin_index) in Hs0. }
    rewrite Hai in Hi. rewrite Hadmin, Hadm.
    destruct k as [|[|k]]; simpl in Hn0; [| |done].
    + injection Hn0 as <-. congruence.
    + injection Hn0 as <-.
      destruct (Hlast i Hi)
        as [?|(-> & Hl & tile & edge0 & opp & Ht & He & Hopp & Hni & Hend)];
        [by split; [left|]|].
      unfold first_startnode in Hsn. rewrite Ht in Hsn. simpl in Hsn.
      rewrite He in Hsn. simpl in Hsn.
      apply bind_Some in Hsn as (first_tile & Hft & _).
      destruct (_ <? _)%num eqn:Hop; [|congruence].
      split.
      * right. exists pb, opp. rewrite Hl. unfold AssignAdmins. rewrite Hcat.
        by split_and!.
      * intros Hco. destruct (Hco _ Hni) as [t Ht']. congruence.
  - destruct (build_multi_spec _ _ _ _ _ _ _ _ _ _ _ _ _ _ _ Hm)
      as (st & final & l & Hinv & _ & Hstrip & Hadmin & (suffix & Hsuf) & Hlast).
    destruct (strip_fmap_lookup _ _ _ _ Hstrip Hk) as (n0 & Hn0 & Hs0).
    assert (admin_index n = admin_index n0) as Hai.
    { by apply (f_equal admin_index) in Hs0. }
    rewrite Hai in Hi. rewrite Hadmin, Hadm.
    assert (0 <= i < Z.of_nat (length l)) as Hok.
    { apply lookup_app_Some in Hn0 as [Hn0|[_ Hn0]].
      + destruct Hinv as [_ _ _ _ _ _ _ Hbound _].
        rewrite Forall_lookup in Hbound. specialize (Hbound _ _ Hn0 i Hi).
        rewrite Hsuf, length_app. lia.
      + apply list_lookup_singleton_Some in Hn0 as [_ <-]. by apply Hlast. }
    by split; [left|].
Qed.

(** ** Recosting at the end of Build

    The nodes that [Build] hands to [AccumulateRecostingInfoForward] are
    those of a built leg, without recosts, as soon as every edge id of the
    path is a valid id and 0 is one ([kEdgeId] may be off, and the id of
    an edge record then reads as 0). *)

Lemma build_loop_ids controller graphreader mode_costing travel_types
    start_pct end_pct start_vrt end_vrt steps :
  Is_Valid 0 = true ->
  Forall (fun step => Is_Valid (edgeid step) = true) steps ->
  forall prev k st st',
    build_loop controller graphreader mode_costing travel_types start_pct
      end_pct start_vrt end_vrt prev k steps st = Some st' ->
    Forall (fun n => Is_Valid (node_edge_id n) = true) (bs_node st) ->
    Forall (fun n => Is_Valid (node_edge_id n) = true) (bs_node st').
Proof.
  intros Hzero. induction 1 as [|edge_itr steps Hid Hsteps IH];
    intros prev k st st'; simpl.
  - by intros [= <-].
  - intros (st1 & Hstep & Hloop)%bind_Some Hnodes.
    apply build_step_spec in Hstep as (tn & te & Hn & Hte & _ & Hte_id & _).
    eapply IH; [exact Hloop|]. rewrite Hn. apply Forall_app. split; [done|].
    constructor; [|done]. unfold node_edge_id. rewrite Hte, Hte_id.
    unfold value_if. by destruct (attributes controller kEdgeId).
Qed.

Lemma Build_recosting_input recostings controller graphreader mode_costing
    path origin dest through_loc interrupted edge_trimming leg edge_trimming' :
  Build recostings controller graphreader mode_costing path origin dest
    through_loc interrupted edge_trimming = Some (leg, edge_trimming') ->
  Is_Valid 0 = true ->
  Forall (fun step => Is_Valid (edgeid step) = true) path ->
  exists nodes,
    leg_shaped nodes /\ Forall (fun n => recosts n = []) nodes /\
    AccumulateRecostingInfoForward recostings nodes = Some (leg_node leg).
Proof.
  intros HB Hzero Hpath.
  assert (exists path_begin, path !! O = Some path_begin) as [pb0 Hpb0].
  { unfold Build in HB. destruct interrupted; [done|].
    apply bind_Some in HB as (? & _ & HB).
    apply bind_Some in HB as (pb & Hpb & _). by exists pb. }
  destruct (Build_cases _ _ _ _ _ _ _ _ _ _ _ _ HB)
    as [[Hlen _]|[Hlen (locs & sn & sp & ep & sv & ev & Hm)]].
  - (* a single edge *)
    unfold Build in HB. destruct interrupted; [done|].
    apply bind_Some in HB as (locations & _ & HB).
    rewrite Hpb0 in HB. simpl in HB.
    apply bind_Some in HB as (path_last & _ & HB).
    apply bind_Some in HB as (startnode & _ & HB).
    destruct (snapped origin _) as [[start_pct start_sos] start_vrt].
    destruct (snapped dest _) as [[end_pct end_sos] end_vrt].
    rewrite decide_True in HB by done.
    apply bind_Some in HB as (leg' & Hs & HB). injection HB as -> _.
    unfold build_single in Hs.
    apply bind_Some in Hs as (tile & _ & H1).
    apply bind_Some in H1 as (edge0 & _ & H1).
    apply bind_Some in H1 as ([edge1 tile1] & _ & H1).
    apply bind_Some in H1 as (opp & _ & H1).
    apply bind_Some in H1 as (sni & _ & H1).
    apply bind_Some in H1 as (trip_edge & Hedge & H1).
    apply bind_Some in H1 as (c & _ & H1).
    apply bind_Some in H1 as ([shape' sa'] & _ & H1).
    apply bind_Some in H1 as ([ai l] & _ & H1).
    apply bind_Some in H1 as (nodes & Hacc & H1).
    injection H1 as <-. simpl.
    eexists. split_and!; [|
      |exact Hacc].
    + eexists [_], _. split_and!; [done|done|].
      constructor; [|done]. simpl. split; [by eexists|].
      unfold node_edge_id. simpl. rewrite (AddTripEdge_id _ _ _ _ _ _ _ _ _ _ _ _ _ _ _ _ Hedge).
      rewrite Forall_lookup in Hpath. specialize (Hpath _ _ Hpb0).
      unfold value_if. by destruct (attributes controller kEdgeId).
    + by repeat constructor.
  - (* several edges *)
    unfold build_multi in Hm.
    apply bind_Some in Hm as (st & Hloop & H1).
    apply bind_Some in H1 as ([ai l] & _ & H1).
    apply bind_Some in H1 as (last_step & _ & H1).
    apply bind_Some in H1 as (nodes & Hacc & H1).
    injection H1 as <- _. simpl.
    pose proof (build_loop_ids _ _ _ _ _ _ _ _ _ Hzero Hpath _ _ _ _ Hloop) as Hids.
    eapply (build_loop_inv _ _ _ _ _ _ _ _ edge_trimming) in Hloop.
    2:{ constructor; simpl; done. }
    destruct Hloop as [_ _ Hedges _ _ _ _ _ _].
    eexists. split_and!; [| |exact Hacc].
    + eexists (bs_node st), _. split_and!; [done|done|].
      specialize (Hids (Forall_nil_2 _)).
      rewrite Forall_lookup in Hedges. rewrite Forall_lookup in Hids.
      apply Forall_lookup. intros i n Hn.
      split; [by destruct (Hedges _ _ Hn)|by eapply Hids].
    + apply Forall_app. split; [|by repeat constructor].
      eapply Forall_impl; [exact Hedges|]. by intros n [_ ?].
Qed.

(** With replays that follow the protocol, the recosts of a leg that
    [Build] returns have one entry per requested costing at every node. *)
Lemma Build_recosts_aligned recostings controller graphreader mode_costing
    path origin dest through_loc interrupted edge_trimming leg edge_trimming' :
  Build recostings controller graphreader mode_costing path origin dest
    through_loc interrupted edge_trimming = Some (leg, edge_trimming') ->
  Is_Valid 0 = true ->
  Forall (fun step => Is_Valid (edgeid step) = true) path ->
  Forall (replay O) recostings ->
  Forall (fun n => length (recosts n) = length recostings) (leg_node leg).
Proof.
  intros HB Hzero Hpath Hps.
  destruct (Build_recosting_input _ _ _ _ _ _ _ _ _ _ _ _ HB Hzero Hpath)
    as (nodes & Hshape & Hnone & Hacc).
  assert (Forall (fun n => length (recosts n) = O) nodes) as Hlen.
  { eapply Forall_impl; [exact Hnone|]. by intros n ->. }
  destruct (recost_all_spec recostings nodes O Hshape Hlen Hps)
    as (nodes' & Hall & Hg & _).
  unfold AccumulateRecostingInfoForward in Hacc.
  rewrite decide_False in Hacc.
  2:{ destruct Hshape as (init & final & -> & _). rewrite length_app. simpl. lia. }
  rewrite Hall in Hacc. injection Hacc as <-.
  apply Forall_lookup. intros i n' Hi.
  rewrite Forall2_same_length_lookup in Hg. destruct Hg as [Hl Hg].
  assert (is_Some (nodes !! i)) as [n Hn].
  { apply lookup_lt_is_Some. rewrite Hl. by eapply lookup_lt_Some. }
  by destruct (Hg _ _ _ Hn Hi) as (_ & _ & ->).
Qed.

(** * Further properties *)

(** ** Locations *)

Lemma RemovePathEdges_path_edges (location : Location) (edge_id : GraphId) :
  path_edges (RemovePathEdges location edge_id) =
    match first_match edge_id (path_edges location) with
    | Some (_, e) => [e]
    | None => []
    end.
Proof.
  pose proof (find_if_first_match edge_id (path_edges location)) as Hf.
  unfold RemovePathEdges.
  destruct (first_match edge_id (path_edges location)) as [[i e]|].
  - destruct Hf as (Hpos & Hi & Hlt). rewrite Hpos.
    rewrite decide_False by lia. case_decide as Hlen.
    + simpl. unfold DeleteSubrange, SwapElements.
      destruct (path_edges location) as [|x l] eqn:El; [simpl in Hlt; lia|].
      rewrite Hi. simpl. rewrite drop_ge.
      2:{ rewrite length_insert. simpl. lia. }
      destruct i as [|i]; simpl in *; [congruence|done].
    + destruct (path_edges location) as [|x [|y l]] eqn:El; simpl in *; try lia.
      destruct i as [|i]; simpl in *; [congruence|lia].
  - rewrite Hf. by rewrite decide_True.
Qed.

Lemma RemovePathEdges_rest (location : Location) (edge_id : GraphId) :
  date_time (RemovePathEdges location edge_id) = date_time location /\
  side_of_street (RemovePathEdges location edge_id) = side_of_street location /\
  projected_ll (RemovePathEdges location edge_id) = projected_ll location.
Proof. unfold RemovePathEdges. repeat case_decide; done. Qed.

Lemma Location_eq (l1 l2 : Location) :
  path_edges l1 = path_edges l2 -> date_time l1 = date_time l2 ->
  side_of_street l1 = side_of_street l2 -> projected_ll l1 = projected_ll l2 ->
  l1 = l2.
Proof. destruct l1, l2. simpl. by intros -> -> -> ->. Qed.

Lemma first_match_Some edge_id (l : list PathEdge) i e :
  first_match edge_id l = Some (i, e) -> e ∈ l /\ graph_id e = edge_id.
Proof.
  unfold first_match. intros (Hi & He & _)%list_find_Some.
  split; [|done]. apply list_elem_of_lookup. eauto.
Qed.

Lemma first_match_None edge_id (l : list PathEdge) :
  first_match edge_id l = None <-> forall e, e ∈ l -> graph_id e ≠ edge_id.
Proof. unfold first_match. by rewrite list_find_None, Forall_forall. Qed.

Lemma first_match_singleton edge_id (e : PathEdge) :
  first_match edge_id [e] =
    if decide (graph_id e = edge_id) then Some (O, e) else None.
Proof. unfold first_match. simpl. by case_decide. Qed.

(** Pruning a location twice against the same edge is pruning it once; at
    most one candidate is left; and pruning the result against another edge
    leaves no candidate. *)
Theorem RemovePathEdges_idempotent (location : Location) (edge_id : GraphId) :
  RemovePathEdges (RemovePathEdges location edge_id) edge_id =
    RemovePathEdges location edge_id /\
  (length (path_edges (RemovePathEdges location edge_id)) <= 1)%nat /\
  forall other, other ≠ edge_id ->
    path_edges (RemovePathEdges (RemovePathEdges location edge_id) other) = [].
Proof.
  pose proof (RemovePathEdges_path_edges location edge_id) as Hp.
  assert (forall id,
            path_edges (RemovePathEdges (RemovePathEdges location edge_id) id) =
            match first_match edge_id (path_edges location) with
            | Some (_, e) => if decide (id = edge_id) then [e] else []
            | None => []
            end) as Htwice.
  { intros id. rewrite RemovePathEdges_path_edges, Hp.
    destruct (first_match edge_id (path_edges location)) as [[i e]|] eqn:Ef.
    - apply first_match_Some in Ef as [_ He]. rewrite first_match_singleton.
      repeat case_decide; congruence.
    - done. }
  split_and!.
  - apply Location_eq.
    + rewrite Htwice, Hp.
      destruct (first_match edge_id (path_edges location)) as [[i e]|]; [|done].
      by rewrite decide_True.
    + destruct (RemovePathEdges_rest (RemovePathEdges location edge_id) edge_id)
        as (? & _). done.
    + destruct (RemovePathEdges_rest (RemovePathEdges location edge_id) edge_id)
        as (_ & ? & _). done.
    + destruct (RemovePathEdges_rest (RemovePathEdges location edge_id) edge_id)
        as (_ & _ & ?). done.
  - rewrite Hp. destruct (first_match _ _) as [[i e]|]; simpl; lia.
  - intros other Hother. rewrite Htwice.
    destruct (first_match _ _) as [[i e]|]; [|done]. by rewrite decide_False.
Qed.

Lemma copy_throughs_result path throughs :
  forall pe tps,
    copy_throughs path pe throughs = Some tps ->
    Forall2 (fun through tp =>
               (path_edges through = [] /\ tp = through) \/
               (exists pi e,
                  pi ∈ path /\ edgeid pi ∈ through_ids through /\
                  tp = RemovePathEdges through (edgeid pi) /\
                  path_edges tp = [e] /\ e ∈ path_edges through /\
                  graph_id e = edgeid pi))
            throughs tps.
Proof.
  induction throughs as [|through throughs IH]; intros pe tps; simpl.
  - intros [= <-]. constructor.
  - intros (tp & Htp & (rest & Hrest & [= <-])%bind_Some)%bind_Some.
    constructor; [|by eapply IH].
    destruct (RemovePathEdges_at_inv _ _ _ _ Htp)
      as [(pi & Hpi & ->)|(_ & Hbare & ->)]; [right|by left].
    destruct (scan_through_spec _ _ _ _ Hpi) as (_ & Hin & _).
    assert (exists i e, first_match (edgeid pi) (path_edges through) = Some (i, e))
      as (i & e & Hfm).
    { destruct (first_match (edgeid pi) (path_edges through)) as [[i e]|] eqn:Ef;
        [by eauto|].
      exfalso. rewrite first_match_None in Ef.
      unfold through_ids in Hin. rewrite elem_of_list_to_set in Hin.
      apply list_elem_of_fmap in Hin as (e & He & Hein). by apply (Ef e). }
    exists pi, e. destruct (first_match_Some _ _ _ _ Hfm) as [He Hid].
    split_and!; [by eapply list_elem_of_lookup_2|done|done| |done|done].
    by rewrite RemovePathEdges_path_edges, Hfm.
Qed.

Lemma CopyLocations_parts (locations : list Location)
    (origin dest : Location) (throughs : list Location)
    (path : list PathInfo) (r : list Location) :
  path ≠ [] ->
  CopyLocations locations origin throughs dest path = Some r ->
  exists path_begin path_last tps,
    path !! O = Some path_begin /\ last path = Some path_last /\
    r = locations ++ [RemovePathEdges origin (edgeid path_begin)] ++ tps ++
        [RemovePathEdges dest (edgeid path_last)] /\
    length r = (length locations + 2 + length throughs)%nat /\
    Forall2 (fun through tp =>
               (path_edges through = [] /\ tp = through) \/
               (exists pi e,
                  pi ∈ path /\ edgeid pi ∈ through_ids through /\
                  tp = RemovePathEdges through (edgeid pi) /\
                  path_edges tp = [e] /\ e ∈ path_edges through /\
                  graph_id e = edgeid pi))
            throughs tps.
Proof.
  intros Hne. unfold CopyLocations.
  assert (is_Some (path !! O)) as [first Hfirst].
  { apply lookup_lt_is_Some. destruct path; [done|simpl; lia]. }
  assert (is_Some (path !! (length path - 1)%nat)) as [final Hfinal].
  { apply lookup_lt_is_Some. destruct path; [done|simpl; lia]. }
  unfold RemovePathEdges_at. rewrite Hfirst, Hfinal. simpl.
  intros (tps & Htps & [= <-])%bind_Some.
  apply copy_throughs_result in Htps as Hall.
  exists first, final, tps. split_and!; [done| | |  |done].
  - rewrite last_lookup. rewrite <- Hfinal. f_equal. lia.
  - by rewrite <- !app_assoc.
  - rewrite !length_app. simpl. rewrite <- (Forall2_length _ _ _ Hall). lia.
Qed.

(** What [CopyLocations] appends on a path that is not empty: the origin
    pruned against the first path edge, every through location in turn, and
    the destination pruned against the last path edge.  A through location
    with candidates is pruned against a path edge that is among them, so
    that exactly one candidate is left on it; one without candidates is
    copied as it is. *)
Theorem CopyLocations_result (locations : list Location)
    (origin dest : Location) (throughs : list Location)
    (path : list PathInfo) (r : list Location) :
  path ≠ [] ->
  CopyLocations locations origin throughs dest path = Some r ->
  exists path_begin path_last tps,
    path !! O = Some path_begin /\ last path = Some path_last /\
    r = locations ++ [RemovePathEdges origin (edgeid path_begin)] ++ tps ++
        [RemovePathEdges dest (edgeid path_last)] /\
    length r = (length locations + 2 + length throughs)%nat /\
    Forall2 (fun through tp =>
               (path_edges through = [] /\ tp = through) \/
               (exists pi e,
                  pi ∈ path /\ edgeid pi ∈ through_ids through /\
                  tp = RemovePathEdges through (edgeid pi) /\
                  path_edges tp = [e] /\ e ∈ path_edges through /\
                  graph_id e = edgeid pi))
            throughs tps.
Proof. apply CopyLocations_parts. Qed.

Lemma update_first_last_lookup {A : Type} (f g : A -> A) (l : list A) i :
  update_first_last f g l !! i =
    (fun x => (if decide (i = length l - 1)%nat then g else fun y => y)
                ((if decide (i = O) then f else fun y => y) x)) <$> l !! i.
Proof.
  unfold update_first_last. destruct l as [|x l']; [done|].
  simpl. rewrite Nat.sub_0_r.
  assert (is_Some ((f x :: l') !! length l')) as [y Hy].
  { apply lookup_lt_is_Some. simpl. lia. }
  rewrite Hy. destruct (decide (i = length l')) as [->|Hne].
  - rewrite list_lookup_insert_eq by (simpl; lia).
    destruct l' as [|x' l'']; simpl in *.
    + injection Hy as <-. done.
    + by rewrite Hy.
  - rewrite list_lookup_insert_ne by done.
    destruct i as [|i]; simpl; [done|]. by destruct (l' !! i).
Qed.

Lemma update_first_last_length {A : Type} (f g : A -> A) (l : list A) :
  length (update_first_last f g l) = length l.
Proof.
  unfold update_first_last.
  destruct (l !! O); destruct (_ !! _); by rewrite ?length_insert.
Qed.

Lemma update_first_last_Forall {A : Type} (P : A -> Prop) (f g : A -> A) l :
  (forall x, P x -> P (f x)) -> (forall x, P x -> P (g x)) ->
  Forall P l -> Forall P (update_first_last f g l).
Proof.
  intros Hf Hg Hl. apply Forall_lookup. intros i x.
  rewrite update_first_last_lookup. rewrite Forall_lookup in Hl.
  destruct (l !! i) as [y|] eqn:Hy; [|done]. simpl. intros [= <-].
  specialize (Hl _ _ Hy). repeat case_decide; auto.
Qed.

(** The locations of the leg as [Build] leaves them: the copies made by
    [CopyLocations] with the ends projected, and in the single-edge case
    possibly the side of street of the destination turned. *)
Lemma Build_location_list recostings controller graphreader mode_costing path
    origin dest through_loc interrupted edge_trimming leg edge_trimming' :
  Build recostings controller graphreader mode_costing path origin dest
    through_loc interrupted edge_trimming = Some (leg, edge_trimming') ->
  exists locs path_begin path_last (turn : Location -> Location),
    CopyLocations [] origin through_loc dest path = Some locs /\
    path !! O = Some path_begin /\ last path = Some path_last /\
    (forall l, path_edges (turn l) = path_edges l /\
               projected_ll (turn l) = projected_ll l) /\
    location leg =
      update_first_last (fun l => l) turn
        (update_first_last (fun l => l)
           (fun l => project l (snapped dest (edgeid path_last)).1.2
                       (snapped dest (edgeid path_last)).2)
           (update_first_last
              (fun l => project l (snapped origin (edgeid path_begin)).1.2
                          (snapped origin (edgeid path_begin)).2)
              (fun l => l) locs)).
Proof.
  unfold Build. destruct interrupted; [done|].
  intros (locs & Hlocs & H1)%bind_Some.
  apply bind_Some in H1 as (path_begin & Hpb & H1).
  apply bind_Some in H1 as (path_last & Hpl & H1).
  apply bind_Some in H1 as (startnode & _ & H1).
  exists locs, path_begin, path_last.
  destruct (snapped origin _) as [[start_pct start_sos] start_vrt].
  destruct (snapped dest _) as [[end_pct end_sos] end_vrt]. simpl.
  assert (forall (ls : list Location),
            update_first_last (fun l => l) (fun l => l) ls = ls) as Hid.
  { intros ls. apply list_eq. intros i. rewrite update_first_last_lookup.
    destruct (ls !! i); simpl; [|done]. by repeat case_decide. }
  case_decide as Hlen.
  - apply bind_Some in H1 as (leg' & Hs & [= <- _]).
    unfold build_single in Hs.
    apply bind_Some in Hs as (tile & _ & H1).
    apply bind_Some in H1 as (edge0 & _ & H1).
    apply bind_Some in H1 as ([edge1 tile1] & _ & H1).
    apply bind_Some in H1 as (opp & _ & H1).
    apply bind_Some in H1 as (sni & _ & H1).
    apply bind_Some in H1 as (trip_edge & _ & H1).
    apply bind_Some in H1 as (c & _ & H1).
    apply bind_Some in H1 as ([shape' sa'] & _ & H1).
    apply bind_Some in H1 as ([ai l] & _ & H1).
    apply bind_Some in H1 as (nodes & _ & H1).
    injection H1 as <-. simpl.
    destruct (end_pct <? start_pct)%num.
    + destruct end_sos.
      * exists (fun l => l). by rewrite Hid.
      * exists (fun l => set_side_of_street l kRight). done.
      * exists (fun l => set_side_of_street l kLeft). done.
    + exists (fun l => l). by rewrite Hid.
  - unfold build_multi in H1.
    apply bind_Some in H1 as (st & _ & H1).
    apply bind_Some in H1 as ([ai l] & _ & H1).
    apply bind_Some in H1 as (last_step & _ & H1).
    apply bind_Some in H1 as (nodes & _ & H1).
    injection H1 as <- _. simpl. exists (fun l => l). by rewrite Hid.
Qed.

(** The leg that [Build] returns has one location for the origin, one per
    through location and one for the destination; none of them has kept
    more than one candidate edge, and the first and the last one carry a
    projected point. *)
Theorem Build_locations
    (recostings : list Recosting) (controller : AttributesController)
    (graphreader : GraphReader) (mode_costing : TravelMode -> option DynamicCost)
    (path : list PathInfo) (origin dest : Location) (through_loc : list Location)
    (interrupted : bool)
    (edge_trimming : option (gmap nat (EdgeTrimmingInfo * EdgeTrimmingInfo)))
    (leg : TripLeg)
    (edge_trimming' : option (gmap nat (EdgeTrimmingInfo * EdgeTrimmingInfo))) :
  Build recostings controller graphreader mode_costing path origin dest
    through_loc interrupted edge_trimming = Some (leg, edge_trimming') ->
  length (location leg) = (2 + length through_loc)%nat /\
  Forall (fun l => (length (path_edges l) <= 1)%nat) (location leg) /\
  (exists l, location leg !! O = Some l /\ is_Some (projected_ll l)) /\
  (exists l, last (location leg) = Some l /\ is_Some (projected_ll l)).
Proof.
  intros HB.
  destruct (Build_location_list _ _ _ _ _ _ _ _ _ _ _ _ HB)
    as (locs & pb & pl & turn & Hlocs & Hpb & _ & Hturn & Hleg).
  assert (path ≠ []) as Hne by (by intros ->).
  destruct (CopyLocations_parts _ _ _ _ _ _ Hne Hlocs)
    as (pb' & pl' & tps & _ & _ & Hr & Hlen & Hall).
  simpl in Hlen.
  assert (Forall (fun l => (length (path_edges l) <= 1)%nat) locs) as Hone.
  { rewrite Hr. simpl. constructor.
    { rewrite RemovePathEdges_path_edges.
      destruct (first_match _ _) as [[??]|]; simpl; lia. }
    apply Forall_app. split.
    - apply Forall_lookup. intros i tp Hi.
      destruct (Forall2_lookup_r _ _ _ _ _ Hall Hi)
        as (through & _ & [[Hbare ->]|(pi & e & _ & _ & _ & -> & _)]);
        [rewrite Hbare|]; simpl; lia.
    - constructor; [|done]. rewrite RemovePathEdges_path_edges.
      destruct (first_match _ _) as [[??]|]; simpl; lia. }
  assert (length (location leg) = (2 + length through_loc)%nat) as Hl.
  { by rewrite Hleg, !update_first_last_length. }
  split_and!.
  - done.
  - rewrite Hleg.
    apply update_first_last_Forall; [done|by intros l; destruct (Hturn l) as [-> _]|].
    apply update_first_last_Forall; [done..|].
    by apply update_first_last_Forall.
  - assert (is_Some (locs !! O)) as [l0 Hl0].
    { apply lookup_lt_is_Some. lia. }
    rewrite Hleg, !update_first_last_lookup, Hl0. simpl.
    eexists. split; [done|]. rewrite !update_first_last_length.
    repeat case_decide; try destruct (Hturn (project
      (project l0 (snapped origin (edgeid pb)).1.2 (snapped origin (edgeid pb)).2)
      (snapped dest (edgeid pl)).1.2 (snapped dest (edgeid pl)).2)) as [_ ->];
      try destruct (Hturn (project l0 (snapped origin (edgeid pb)).1.2
                             (snapped origin (edgeid pb)).2)) as [_ ->];
      simpl; by eexists.
  - rewrite last_lookup, Hl. simpl.
    assert (is_Some (locs !! S (length through_loc))) as [ln Hln].
    { apply lookup_lt_is_Some. lia. }
    rewrite Hleg, !update_first_last_lookup, Hln. simpl.
    eexists. split; [done|]. rewrite !update_first_last_length.
    repeat case_decide; try lia.
    match goal with |- is_Some (projected_ll (turn ?x)) =>
      destruct (Hturn x) as [_ ->] end.
    simpl. by eexists.
Qed.

(** ** One turn of the loop, in full *)

(** Everything that a successful turn of the loop has read and written. *)
Lemma build_step_parts controller graphreader mode_costing travel_types
    start_pct end_pct start_vrt end_vrt prev edge_index is_last edge_itr st st' :
  build_step controller graphreader mode_costing travel_types start_pct end_pct
    start_vrt end_vrt prev edge_index is_last edge_itr st = Some st' ->
  exists graphtile de start_tile nd ai block_id sow trip_edge ts b tsp tep c,
    GetGraphTile graphreader (edgeid edge_itr) = Some graphtile /\
    tile_directededge graphtile (edgeid edge_itr) = Some de /\
    GetGraphTile graphreader (bs_startnode st) = Some start_tile /\
    node start_tile (bs_startnode st) = Some nd /\
    node_admin_index controller start_tile nd
      (bs_admin_info_map st) (bs_admin_info_list st) =
      Some (ai, bs_admin_info_map st', bs_admin_info_list st') /\
    AddTripEdge controller (edgeid edge_itr) (trip_id edge_itr) block_id
      (mode edge_itr) (travel_types (mode edge_itr))
      (mode_costing (mode edge_itr)) de (drive_on_right nd) graphtile sow
      (GraphId_id (bs_startnode st)) (named_intersection nd) (Some start_tile)
      (restriction_index edge_itr) = Some trip_edge /\
    append_edge_shape de (edgeinfo graphtile (edgeinfo_offset de))
      (bs_is_first_edge st) is_last edge_index start_pct end_pct start_vrt
      end_vrt (bs_trip_shape st) (bs_edge_trimming st) =
      Some (ts, b, tsp, tep, bs_edge_trimming st') /\
    mode_costing (mode edge_itr) = Some c /\
    SetShapeAttributes controller graphtile de ts (Z.to_nat b)
      (bs_shape_attributes st) tsp tep
      (let s := (secs (elapsed_cost edge_itr) -
                 secs (transition_cost edge_itr))%num in
       match prev with
       | Some p => (s - secs (elapsed_cost p))%num
       | None => s
       end)
      (cut_for_traffic c) =
      Some (bs_trip_shape st', bs_shape_attributes st') /\
    bs_startnode st' = endnode de /\
    bs_node st' = bs_node st ++ [
      {| edge := Some
           (set_shape_fields trip_edge
              (value_if controller kEdgeLength
                 (n_max (n_of_Z (de_length de) * n_lit "kKmPerMeter" *
                         (tep - tsp))%num (n_lit "0.001")))
              (value_if controller kEdgeBeginShapeIndex b)
              (value_if controller kEdgeEndShapeIndex
                 (shape_index (bs_trip_shape st')))
              (SetHeadings controller de (bs_trip_shape st') b).1
              (SetHeadings controller de (bs_trip_shape st') b).2);
         n_type := value_if controller kNodeType (node_type nd);
         fork := flag_if controller kNodeFork (is_fork nd);
         cost_elapsed :=
           value_if controller kNodeElapsedTime
             match prev with
             | Some p => elapsed_cost p
             | None => zero_cost
             end;
         cost_transition :=
           value_if controller kNodeTransitionTime (transition_cost edge_itr);
         admin_index := ai;
         time_zone :=
           if attributes controller kNodeTimeZone
           then tz_name (timezone nd) else None;
         recosts := [] |}].
Proof.
  unfold build_step. intros H1.
  apply bind_Some in H1 as (graphtile & Hgt & H1).
  apply bind_Some in H1 as (de & Hde & H1).
  apply bind_Some in H1 as (start_tile & Hst & H1).
  apply bind_Some in H1 as (nd & Hnd & H1).
  apply bind_Some in H1 as ([[ai m'] l'] & Hadm & H1).
  apply bind_Some in H1 as (trip_edge & Hedge & H1).
  apply bind_Some in H1 as ([[[[ts b] tsp] tep] et'] & Happ & H1).
  apply bind_Some in H1 as (c & Hc & H1).
  apply bind_Some in H1 as ([ts' sa'] & Hsa & H1).
  eexists graphtile, de, start_tile, nd, ai, _, _, trip_edge, ts, b, tsp, tep, c.
  destruct (negb (IsTransitLine de)).
  - destruct (leaves_tile de) eqn:Hlt.
    + destruct (GetGraphTile graphreader (endnode de)) as [t2|] eqn:Ht2.
      * apply bind_Some in H1 as (? & _ & H1). injection H1 as <-. simpl.
        by split_and!.
      * injection H1 as <-. simpl. by split_and!.
    + apply bind_Some in H1 as (? & _ & H1). injection H1 as <-. simpl.
      by split_and!.
  - injection H1 as <-. simpl. by split_and!.
Qed.

(** The nodes that the loop has written stay as they are. *)
Lemma build_loop_nodes_prefix controller graphreader mode_costing travel_types
    start_pct end_pct start_vrt end_vrt steps :
  forall prev k st st',
    build_loop controller graphreader mode_costing travel_types start_pct
      end_pct start_vrt end_vrt prev k steps st = Some st' ->
    exists more, bs_node st' = bs_node st ++ more /\ length more = length steps.
Proof.
  induction steps as [|edge_itr steps IH]; intros prev k st st'; simpl.
  - intros [= <-]. exists []. by rewrite app_nil_r.
  - intros (st1 & Hstep & Hloop)%bind_Some.
    apply build_step_spec in Hstep as (tn & te & Hn & _).
    destruct (IH _ _ _ _ Hloop) as (more & Hmore & Hlen).
    exists (tn :: more). rewrite Hmore, Hn, <- app_assoc. simpl.
    split; [done|]. by rewrite Hlen.
Qed.

(** ** The nodes of a leg of several edges *)

Lemma strip_fmap_field {A : Type} (f : TripLeg_Node -> A)
    (nodes nodes' : list TripLeg_Node) :
  (forall n, f (strip n) = f n) ->
  strip <$> nodes' = strip <$> nodes -> f <$> nodes' = f <$> nodes.
Proof.
  intros Hf Hs. apply (f_equal (fmap f)) in Hs.
  rewrite <- !list_fmap_compose in Hs.
  rewrite (list_fmap_ext (f ∘ strip) f nodes') in Hs by (intros; apply Hf).
  by rewrite (list_fmap_ext (f ∘ strip) f nodes) in Hs by (intros; apply Hf).
Qed.

(** The nodes that the loop appends for the steps it is given: edge id and
    costs of each. *)
Lemma build_loop_costs controller graphreader mode_costing travel_types
    start_pct end_pct start_vrt end_vrt steps :
  forall prev k st st',
    build_loop controller graphreader mode_costing travel_types start_pct
      end_pct start_vrt end_vrt prev k steps st = Some st' ->
    exists more,
      bs_node st' = bs_node st ++ more /\
      (fun n => edge n ≫= id) <$> more =
        (fun step => value_if controller kEdgeId (edgeid step)) <$> steps /\
      cost_elapsed <$> more =
        value_if controller kNodeElapsedTime <$>
          take (length steps)
            (match prev with Some p => elapsed_cost p | None => zero_cost end ::
             (elapsed_cost <$> steps)) /\
      cost_transition <$> more =
        (fun step => value_if controller kNodeTransitionTime
                       (transition_cost step)) <$> steps.
Proof.
  induction steps as [|edge_itr steps IH]; intros prev k st st'; simpl.
  - intros [= <-]. exists []. by rewrite app_nil_r.
  - intros (st1 & Hstep & Hloop)%bind_Some.
    apply build_step_parts in Hstep
      as (graphtile & de & start_tile & nd & ai & block_id & sow & trip_edge &
          ts & b & tsp & tep & c & _ & _ & _ & _ & _ & Hedge & _ & _ & _ & _ & Hn).
    destruct (IH _ _ _ _ Hloop) as (more & Hmore & Hids & Hel & Htr).
    eexists (_ :: more). rewrite Hmore, Hn, <- app_assoc.
    split; [done|]. rewrite !fmap_cons, Hids, Hel, Htr. simpl.
    by rewrite (AddTripEdge_id _ _ _ _ _ _ _ _ _ _ _ _ _ _ _ _ Hedge).
Qed.

Lemma take_length_cons {A : Type} (x : A) (l : list A) :
  take (length l) (x :: l) ++ (default x (last l)) :: [] = x :: l.
Proof.
  revert x. induction l as [|y l IH]; intros x; simpl; [done|].
  f_equal. rewrite <- (IH y) at 3. f_equal. rewrite last_cons.
  by destruct (last l).
Qed.

(** What the nodes of a leg of several edges carry of the path. *)
Lemma build_multi_costs recostings controller graphreader mode_costing path
    origin locations startnode start_pct end_pct start_vrt end_vrt
    edge_trimming leg edge_trimming' :
  build_multi recostings controller graphreader mode_costing path origin
    locations startnode start_pct end_pct start_vrt end_vrt edge_trimming =
    Some (leg, edge_trimming') ->
  (fun n => edge n ≫= id) <$> leg_node leg =
    ((fun step => value_if controller kEdgeId (edgeid step)) <$> path) ++ [None] /\
  cost_elapsed <$> leg_node leg =
    value_if controller kNodeElapsedTime <$>
      (zero_cost :: (elapsed_cost <$> path)) /\
  cost_transition <$> leg_node leg =
    value_if controller kNodeTransitionTime <$>
      ((transition_cost <$> path) ++ [zero_cost]).
Proof.
  unfold build_multi. intros (st & Hloop & H1)%bind_Some.
  apply bind_Some in H1 as ([ai l] & _ & H1).
  apply bind_Some in H1 as (last_step & Hlast & H1).
  apply bind_Some in H1 as (nodes & Hacc & H1).
  injection H1 as <- _. cbn [leg_node].
  apply AccumulateRecostingInfoForward_strip in Hacc.
  apply build_loop_costs in Hloop as (more & Hmore & Hids & Hel & Htr).
  simpl in Hmore. rewrite Hmore in Hacc.
  rewrite (strip_fmap_field (fun n => edge n ≫= id) _ _ (fun n => eq_refl) Hacc).
  rewrite (strip_fmap_field cost_elapsed _ _ (fun n => eq_refl) Hacc).
  rewrite (strip_fmap_field cost_transition _ _ (fun n => eq_refl) Hacc).
  unfold GraphId in *.
  rewrite !fmap_app, Hids, Hel, Htr. split_and!; [done| |].
  - rewrite <- (take_length_cons zero_cost (elapsed_cost <$> path)) at 2.
    rewrite fmap_app, length_fmap. simpl. do 3 f_equal.
    rewrite fmap_last, Hlast. done.
  - by rewrite <- list_fmap_compose.
Qed.

(** What the two nodes of a single-edge leg carry of the path. *)
Lemma build_single_costs recostings controller graphreader mode_costing
    path_begin origin locations startnode start_pct end_pct end_sos
    start_vrt end_vrt leg :
  build_single recostings controller graphreader mode_costing path_begin origin
    locations startnode start_pct end_pct end_sos start_vrt end_vrt = Some leg ->
  (fun n => edge n ≫= id) <$> leg_node leg =
    [value_if controller kEdgeId (edgeid path_begin); None] /\
  cost_elapsed <$> leg_node leg =
    [None; value_if controller kNodeElapsedTime (elapsed_cost path_begin)] /\
  cost_transition <$> leg_node leg = [None; None].
Proof.
  unfold build_single. intros (tile & _ & H1)%bind_Some.
  apply bind_Some in H1 as (edge0 & _ & H1).
  apply bind_Some in H1 as ([edge1 tile1] & _ & H1).
  apply bind_Some in H1 as (opp & _ & H1).
  apply bind_Some in H1 as (sni & _ & H1).
  apply bind_Some in H1 as (trip_edge & Hedge & H1).
  apply bind_Some in H1 as (c & _ & H1).
  apply bind_Some in H1 as ([shape' sa'] & _ & H1).
  apply bind_Some in H1 as ([ai l] & Hadm & H1).
  apply bind_Some in H1 as (nodes & Hacc & H1).
  injection H1 as <-. cbn [leg_node].
  apply AccumulateRecostingInfoForward_strip in Hacc.
  rewrite (strip_fmap_field (fun n => edge n ≫= id) _ _ (fun n => eq_refl) Hacc).
  rewrite (strip_fmap_field cost_elapsed _ _ (fun n => eq_refl) Hacc).
  rewrite (strip_fmap_field cost_transition _ _ (fun n => eq_refl) Hacc).
  simpl. by rewrite (AddTripEdge_id _ _ _ _ _ _ _ _ _ _ _ _ _ _ _ _ Hedge).
Qed.

Lemma fmap_all_Some {A B : Type} (f : A -> option B) (l : list A) :
  Forall (fun x => is_Some (f x)) l -> exists k, f <$> l = Some <$> k.
Proof.
  induction 1 as [|x l [y Hy] _ [k IH]]; [by exists []|].
  exists (y :: k). by rewrite !fmap_cons, Hy, IH.
Qed.

(** The nodes of the leg, recosts apart: one with an edge record per step
    of the path, then one without. *)
Lemma Build_nodes_shape recostings controller graphreader mode_costing path
    origin dest through_loc interrupted edge_trimming leg edge_trimming' :
  Build recostings controller graphreader mode_costing path origin dest
    through_loc interrupted edge_trimming = Some (leg, edge_trimming') ->
  exists nodes final,
    strip <$> leg_node leg = strip <$> (nodes ++ [final]) /\
    length nodes = length path /\
    Forall (fun n => is_Some (edge n)) nodes /\ edge final = None.
Proof.
  intros HB.
  destruct (Build_cases _ _ _ _ _ _ _ _ _ _ _ _ HB)
    as [[Hlen (pb & locs & sn & sp & ep & es & sv & ev & Hs)]
       |[Hlen (locs & sn & sp & ep & sv & ev & Hm)]].
  - destruct (build_single_spec _ _ _ _ _ _ _ _ _ _ _ _ _ _ Hs)
      as (first & final & l & Hf & _ & Hl & Hstrip & _).
    exists [first], final. split_and!; [done|by rewrite Hlen| |done].
    by constructor.
  - destruct (build_multi_spec _ _ _ _ _ _ _ _ _ _ _ _ _ _ _ Hm)
      as (st & final & l & Hinv & Hl & Hstrip & _).
    exists (bs_node st), final. destruct Hinv as [Hn _ He _ _ _ _ _ _].
    split_and!; [done|done| |done].
    eapply Forall_impl; [exact He|]. by intros n [? _].
Qed.

(** The nodes of the leg that [Build] returns are one node with an edge
    record for every step of the path, in path order, followed by a last
    node that has no edge record; the id of each edge record is the edge id
    of its step when [edge.id] is requested and is absent otherwise. *)
Theorem Build_edge_ids
    (recostings : list Recosting) (controller : AttributesController)
    (graphreader : GraphReader) (mode_costing : TravelMode -> option DynamicCost)
    (path : list PathInfo) (origin dest : Location) (through_loc : list Location)
    (interrupted : bool)
    (edge_trimming : option (gmap nat (EdgeTrimmingInfo * EdgeTrimmingInfo)))
    (leg : TripLeg)
    (edge_trimming' : option (gmap nat (EdgeTrimmingInfo * EdgeTrimmingInfo))) :
  Build recostings controller graphreader mode_costing path origin dest
    through_loc interrupted edge_trimming = Some (leg, edge_trimming') ->
  exists edges,
    edge <$> leg_node leg = (Some <$> edges) ++ [None] /\
    id <$> edges =
      (fun step => value_if controller kEdgeId (edgeid step)) <$> path.
Proof.
  intros HB.
  assert ((fun n => edge n ≫= id) <$> leg_node leg =
          ((fun step => value_if controller kEdgeId (edgeid step)) <$> path) ++
          [None]) as Hids.
  { destruct (Build_branches _ _ _ _ _ _ _ _ _ _ _ _ HB)
      as (pb & pl & sn & locs & Hpb & Hpl & Hsn & [(-> & _ & Hs)|(Hlen & Hm)]).
    - by destruct (build_single_costs _ _ _ _ _ _ _ _ _ _ _ _ _ _ Hs) as (-> & _).
    - by destruct (build_multi_costs _ _ _ _ _ _ _ _ _ _ _ _ _ _ _ Hm) as (-> & _). }
  destruct (Build_nodes_shape _ _ _ _ _ _ _ _ _ _ _ _ HB)
    as (nodes & final & Hstrip & _ & Hedges & Hfinal).
  destruct (fmap_all_Some edge nodes Hedges) as (edges & Hsome).
  assert (edge <$> leg_node leg = (Some <$> edges) ++ [None]) as Hshape.
  { rewrite (strip_fmap_field edge _ _ (fun n => eq_refl) Hstrip).
    by rewrite fmap_app, Hsome, fmap_cons, Hfinal. }
  exists edges. split; [done|].
  assert ((fun n => edge n ≫= id) <$> leg_node leg =
          (fun o : option TripLeg_Edge => o ≫= id) <$> (edge <$> leg_node leg))
    as Hcomp by (by rewrite <- list_fmap_compose).
  rewrite Hcomp, Hshape, fmap_app, <- list_fmap_compose in Hids.
  simpl in Hids. by apply app_inj_tail in Hids as [Hids _].
Qed.

(** The costs on the nodes of the leg.  Over several edges the node of step
    [k] carries the elapsed cost of the path at the end of step [k-1] (zero
    for the first node) and the transition cost of step [k], and the
    terminal node the elapsed cost of the whole path and a zero transition
    cost.  In a single-edge leg the first node carries no cost at all and
    the second one only the elapsed cost of the step. *)
Theorem Build_node_costs
    (recostings : list Recosting) (controller : AttributesController)
    (graphreader : GraphReader) (mode_costing : TravelMode -> option DynamicCost)
    (path : list PathInfo) (origin dest : Location) (through_loc : list Location)
    (interrupted : bool)
    (edge_trimming : option (gmap nat (EdgeTrimmingInfo * EdgeTrimmingInfo)))
    (leg : TripLeg)
    (edge_trimming' : option (gmap nat (EdgeTrimmingInfo * EdgeTrimmingInfo))) :
  Build recostings controller graphreader mode_costing path origin dest
    through_loc interrupted edge_trimming = Some (leg, edge_trimming') ->
  ((1 < length path)%nat ->
   cost_elapsed <$> leg_node leg =
     value_if controller kNodeElapsedTime <$>
       (zero_cost :: (elapsed_cost <$> path)) /\
   cost_transition <$> leg_node leg =
     value_if controller kNodeTransitionTime <$>
       ((transition_cost <$> path) ++ [zero_cost])) /\
  (length path = 1%nat ->
   cost_elapsed <$> leg_node leg =
     None :: (value_if controller kNodeElapsedTime <$> (elapsed_cost <$> path)) /\
   cost_transition <$> leg_node leg = [None; None]).
Proof.
  intros HB.
  destruct (Build_branches _ _ _ _ _ _ _ _ _ _ _ _ HB)
    as (pb & pl & sn & locs & Hpb & Hpl & Hsn & [(-> & _ & Hs)|(Hlen & Hm)]).
  - split; [simpl; lia|]. intros _.
    by destruct (build_single_costs _ _ _ _ _ _ _ _ _ _ _ _ _ _ Hs) as (_ & -> & ->).
  - split; [|lia]. intros _.
    by destruct (build_multi_costs _ _ _ _ _ _ _ _ _ _ _ _ _ _ _ Hm) as (_ & -> & ->).
Qed.

(** ** The admins of a leg of several edges *)

Lemma build_loop_admins controller graphreader mode_costing travel_types
    start_pct end_pct start_vrt end_vrt steps :
  attributes controller kNodeaAdminIndex = true ->
  forall prev k st st',
    build_loop controller graphreader mode_costing travel_types start_pct
      end_pct start_vrt end_vrt prev k steps st = Some st' ->
    exists refs more,
      path_admins graphreader (bs_startnode st) steps =
        Some (refs, bs_startnode st') /\
      bs_node st' = bs_node st ++ more /\
      admin_index <$> more =
        Some <$> (intern_from refs (bs_admin_info_map st)
                    (bs_admin_info_list st)).1.1 /\
      bs_admin_info_map st' =
        (intern_from refs (bs_admin_info_map st) (bs_admin_info_list st)).1.2 /\
      bs_admin_info_list st' =
        (intern_from refs (bs_admin_info_map st) (bs_admin_info_list st)).2.
Proof.
  intros Hflag.
  induction steps as [|edge_itr steps IH]; intros prev k st st'; simpl.
  - intros [= <-]. exists [], []. by rewrite app_nil_r.
  - intros (st1 & Hstep & Hloop)%bind_Some.
    apply build_step_parts in Hstep
      as (graphtile & de & start_tile & nd & ai & block_id & sow & trip_edge &
          ts & b & tsp & tep & c & Hgt & Hde & Hst & Hnd & Hadm & _ & _ & _ &
          _ & Hsn & Hn).
    destruct (IH _ _ _ _ Hloop) as (refs & more & Hpa & Hmore & Hidx & Hm & Hl).
    unfold node_admin_index in Hadm. rewrite Hflag in Hadm.
    apply bind_Some in Hadm as (a & Ha & Hadm).
    unfold node_admin, step_edge. rewrite Hst, Hgt. simpl.
    rewrite Hnd, Hde. simpl. rewrite Ha. simpl.
    rewrite Hsn in Hpa. rewrite Hpa. simpl.
    exists (a :: refs). eexists (_ :: more). split; [done|].
    rewrite Hmore, Hn, <- app_assoc. split; [done|].
    rewrite fmap_cons, Hidx, Hm, Hl. cbn [intern_from admin_index].
    destruct (GetAdminIndex a (bs_admin_info_map st) (bs_admin_info_list st))
      as [[i m1] l1] eqn:Hget.
    injection Hadm as <- <- <-.
    by destruct (intern_from refs m1 l1) as [[idxs m2] l2].
Qed.

Lemma AssignAdmins_length controller l :
  category_attribute_enabled controller kAdminCategory = true ->
  length (AssignAdmins controller l) = length l.
Proof. intros Hcat. unfold AssignAdmins. by rewrite Hcat, length_fmap. Qed.

(** Over several edges and with admin indices requested, the admin indices
    of the nodes are those that interning hands out for the admin
    descriptors of the nodes along the path, begin node of the first edge
    first and end node of the last edge last; the admins of the leg are
    made from the interned list. *)
Theorem Build_admins_interned
    (recostings : list Recosting) (controller : AttributesController)
    (graphreader : GraphReader) (mode_costing : TravelMode -> option DynamicCost)
    (path : list PathInfo) (origin dest : Location) (through_loc : list Location)
    (interrupted : bool)
    (edge_trimming : option (gmap nat (EdgeTrimmingInfo * EdgeTrimmingInfo)))
    (leg : TripLeg)
    (edge_trimming' : option (gmap nat (EdgeTrimmingInfo * EdgeTrimmingInfo))) :
  Build recostings controller graphreader mode_costing path origin dest
    through_loc interrupted edge_trimming = Some (leg, edge_trimming') ->
  (1 < length path)%nat ->
  attributes controller kNodeaAdminIndex = true ->
  exists path_begin startnode refs final a,
    path !! O = Some path_begin /\
    first_startnode graphreader path_begin = Some startnode /\
    path_admins graphreader startnode path = Some (refs, final) /\
    node_admin graphreader final = Some a /\
    admin_index <$> leg_node leg = Some <$> (intern_seq (refs ++ [a])).1.1 /\
    admin leg = AssignAdmins controller (intern_seq (refs ++ [a])).2.
Proof.
  intros HB Hlen Hflag.
  destruct (Build_branches _ _ _ _ _ _ _ _ _ _ _ _ HB)
    as (pb & pl & sn & locs & Hpb & Hpl & Hsn & [(-> & _)|(_ & Hm)]);
    [simpl in Hlen; lia|].
  unfold build_multi in Hm.
  apply bind_Some in Hm as (st & Hloop & H1).
  apply bind_Some in H1 as ([ai l] & Hadm & H1).
  apply bind_Some in H1 as (last_step & _ & H1).
  apply bind_Some in H1 as (nodes & Hacc & H1).
  injection H1 as <- _. cbn [leg_node admin].
  apply AccumulateRecostingInfoForward_strip in Hacc.
  rewrite (strip_fmap_field admin_index _ _ (fun n => eq_refl) Hacc).
  apply (build_loop_admins _ _ _ _ _ _ _ _ _ Hflag) in Hloop
    as (refs & more & Hpa & Hmore & Hidx & Hmap & Hlist).
  simpl in Hpa, Hmore, Hidx, Hmap, Hlist.
  rewrite Hflag in Hadm.
  apply bind_Some in Hadm as (last_tile & Hlt & Hadm).
  apply bind_Some in Hadm as (ln & Hln & Hadm).
  apply bind_Some in Hadm as (a & Ha & Hadm).
  exists pb, sn, refs, (bs_startnode st), a.
  split_and!; [done|done|done| | |].
  - unfold node_admin. rewrite Hlt. simpl. rewrite Hln. simpl. done.
  - rewrite Hmore, fmap_app, Hidx. unfold intern_seq.
    rewrite intern_from_app. rewrite Hmap, Hlist in Hadm.
    destruct (intern_from refs ∅ []) as [[idxs m1] l1]. simpl in *.
    destruct (GetAdminIndex a m1 l1) as [[i m2] l2]. injection Hadm as <- <-.
    simpl. by rewrite fmap_app.
  - f_equal. unfold intern_seq. rewrite intern_from_app.
    rewrite Hmap, Hlist in Hadm.
    destruct (intern_from refs ∅ []) as [[idxs m1] l1]. simpl in *.
    destruct (GetAdminIndex a m1 l1) as [[i m2] l2]. by injection Hadm as <- <-.
Qed.

(** ** What Build needs of the graph and of the costings *)

Lemma build_loop_reads controller graphreader mode_costing travel_types
    start_pct end_pct start_vrt end_vrt steps :
  forall prev k st st',
    build_loop controller graphreader mode_costing travel_types start_pct
      end_pct start_vrt end_vrt prev k steps st = Some st' ->
    Forall (fun step => is_Some (step_edge graphreader step) /\
                        is_Some (mode_costing (mode step))) steps.
Proof.
  induction steps as [|edge_itr steps IH]; intros prev k st st'; simpl.
  - constructor.
  - intros (st1 & Hstep & Hloop)%bind_Some.
    apply build_step_parts in Hstep
      as (graphtile & de & start_tile & nd & ai & block_id & sow & trip_edge &
          ts & b & tsp & tep & c & Hgt & Hde & _ & _ & _ & _ & _ & Hc & _).
    constructor; [|by eapply IH].
    unfold step_edge. rewrite Hgt. simpl. rewrite Hde, Hc. by split; eexists.
Qed.

(** [Build] returns a leg only if every edge of the path is found in its
    tile and there is a costing for the travel mode of every step: a missing
    tile on the path and a null costing are dereferenced. *)
Theorem Build_reads_path
    (recostings : list Recosting) (controller : AttributesController)
    (graphreader : GraphReader) (mode_costing : TravelMode -> option DynamicCost)
    (path : list PathInfo) (origin dest : Location) (through_loc : list Location)
    (interrupted : bool)
    (edge_trimming : option (gmap nat (EdgeTrimmingInfo * EdgeTrimmingInfo)))
    (leg : TripLeg)
    (edge_trimming' : option (gmap nat (EdgeTrimmingInfo * EdgeTrimmingInfo))) :
  Build recostings controller graphreader mode_costing path origin dest
    through_loc interrupted edge_trimming = Some (leg, edge_trimming') ->
  interrupted = false /\
  Forall (fun step => is_Some (step_edge graphreader step) /\
                      is_Some (mode_costing (mode step))) path.
Proof.
  intros HB. split; [by destruct interrupted|].
  destruct (Build_branches _ _ _ _ _ _ _ _ _ _ _ _ HB)
    as (pb & pl & sn & locs & Hpb & Hpl & Hsn & [(-> & _ & Hs)|(_ & Hm)]).
  - unfold build_single in Hs.
    apply bind_Some in Hs as (tile & Ht & H1).
    apply bind_Some in H1 as (edge0 & He & H1).
    apply bind_Some in H1 as ([edge1 tile1] & _ & H1).
    apply bind_Some in H1 as (opp & _ & H1).
    apply bind_Some in H1 as (sni & _ & H1).
    apply bind_Some in H1 as (trip_edge & _ & H1).
    apply bind_Some in H1 as (c & Hc & H1).
    constructor; [|done]. unfold step_edge. rewrite Ht. simpl.
    rewrite He, Hc. by split; eexists.
  - unfold build_multi in Hm. apply bind_Some in Hm as (st & Hloop & _).
    by eapply build_loop_reads.
Qed.

(** ** The trimming map *)

Lemma append_edge_shape_trim de ei is_first is_last k sp ep sv ev ts et
    ts' b tsp tep et' :
  append_edge_shape de ei is_first is_last k sp ep sv ev ts et =
    Some (ts', b, tsp, tep, et') ->
  forall j,
    trim_lookup et' j =
      if decide (j = k)
      then mark_entry is_first is_last sp ep sv ev <$> trim_lookup et j
      else trim_lookup et j.
Proof.
  intros Happ j. destruct (decide (j = k)) as [->|Hne].
  2:{ by destruct (append_edge_shape_spec _ _ _ _ _ _ _ _ _ _ _ _ _ _ _ _ Happ)
        as [_ ->]. }
  revert Happ. unfold append_edge_shape, trim_lookup, mark_entry, mark_trim.
  destruct et as [m|]; simpl.
  - destruct (m !! k) as [[bi ei']|] eqn:Hk; simpl.
    + intros [= <- <- <- <- <-]. simpl. by rewrite lookup_insert_eq.
    + destruct (is_first || is_last) eqn:Hfl.
      * destruct is_first.
        -- intros (back & _ & [= <- <- <- <- <-])%bind_Some. simpl.
           by rewrite Hk.
        -- intros (front & _ & [= <- <- <- <- <-])%bind_Some. simpl.
           by rewrite Hk.
      * intros [= <- <- <- <- <-]. simpl. by rewrite Hk.
  - destruct (is_first || is_last) eqn:Hfl.
    + destruct is_first.
      * intros (back & _ & [= <- <- <- <- <-])%bind_Some. done.
      * intros (front & _ & [= <- <- <- <- <-])%bind_Some. done.
    + intros [= <- <- <- <- <-]. done.
Qed.

Lemma build_loop_trim controller graphreader mode_costing travel_types
    start_pct end_pct start_vrt end_vrt edge_trimming steps :
  forall prev k st st',
    build_loop controller graphreader mode_costing travel_types start_pct
      end_pct start_vrt end_vrt prev k steps st = Some st' ->
    loop_inv controller graphreader edge_trimming k st ->
    forall j,
      trim_lookup (bs_edge_trimming st') j =
        if decide (k <= j < k + length steps)%nat
        then mark_entry (bool_decide (j = k) && bs_is_first_edge st)
               (bool_decide (S j = k + length steps)%nat)
               start_pct end_pct start_vrt end_vrt <$>
             trim_lookup (bs_edge_trimming st) j
        else trim_lookup (bs_edge_trimming st) j.
Proof.
  induction steps as [|edge_itr steps IH]; intros prev k st st'; simpl.
  - intros [= <-] _ j. rewrite decide_False by lia. done.
  - intros (st1 & Hstep & Hloop)%bind_Some Hinv j.
    pose proof (build_step_spec _ _ _ _ _ _ _ _ _ _ _ _ _ _ Hstep) as Hfacts.
    pose proof (loop_inv_step _ _ _ _ _ _ _ Hinv Hfacts) as Hinv1.
    apply build_step_parts in Hstep
      as (graphtile & de & start_tile & nd & ai & block_id & sow & trip_edge &
          ts & b & tsp & tep & c & _ & _ & _ & _ & _ & _ & Happ & _).
    pose proof (append_edge_shape_trim _ _ _ _ _ _ _ _ _ _ _ _ _ _ _ _ Happ)
      as Hat.
    rewrite (IH _ _ _ _ Hloop Hinv1 j).
    destruct (decide (j = k)) as [->|Hjk].
    + rewrite (decide_False (P := (S k <= k < S k + length steps)%nat)) by lia.
      rewrite (decide_True (P := (k <= k < k + S (length steps))%nat)) by lia.
      rewrite Hat. rewrite (decide_True (P := k = k)) by done.
      rewrite (bool_decide_eq_true_2 (k = k)) by done. simpl.
      f_equal. f_equal. apply bool_decide_ext.
      destruct steps; simpl; split; (done || lia).
    + rewrite Hat. rewrite !(decide_False (P := j = k)) by done.
      destruct (decide (S k <= j < S k + length steps)%nat) as [Hin|Hout].
      * rewrite decide_True by lia.
        rewrite (bool_decide_eq_false_2 (j = k)) by done. simpl.
        replace (bool_decide (S j = S k + length steps)%nat)
          with (bool_decide (S j = k + S (length steps))%nat)
          by (apply bool_decide_ext; lia).
        destruct (decide (j = S k)) as [->|Hjs].
        -- rewrite bool_decide_eq_true_2 by done. simpl.
           assert (bs_is_first_edge st1 = false) as ->; [|done].
           destruct steps as [|next steps]; [simpl in Hin; lia|].
           simpl in Hloop. apply bind_Some in Hloop as (st2 & Hnext & _).
           apply build_step_spec in Hnext
             as (tn & te & _ & _ & _ & _ & _ & _ & Htile & _).
           destruct (bs_is_first_edge st1) eqn:Hf; [|done].
           destruct Hinv1 as [_ Hfirst _ _ _ _ _ _ _].
           rewrite Hfirst in Htile by done. by destruct Htile.
        -- by rewrite bool_decide_eq_false_2 by done.
      * by rewrite decide_False by lia.
Qed.

(** The trimming map that [Build] hands back.  On a single-edge path it is
    the map as received.  Over several edges the map keeps its keys; the
    entry of the first edge has its begin marked as trimmed at the snapped
    origin and that of the last edge its end at the snapped destination,
    unless they were marked before; every other entry is as it was. *)
Theorem Build_trimming_map
    (recostings : list Recosting) (controller : AttributesController)
    (graphreader : GraphReader) (mode_costing : TravelMode -> option DynamicCost)
    (path : list PathInfo) (origin dest : Location) (through_loc : list Location)
    (interrupted : bool)
    (edge_trimming : option (gmap nat (EdgeTrimmingInfo * EdgeTrimmingInfo)))
    (leg : TripLeg)
    (edge_trimming' : option (gmap nat (EdgeTrimmingInfo * EdgeTrimmingInfo))) :
  Build recostings controller graphreader mode_costing path origin dest
    through_loc interrupted edge_trimming = Some (leg, edge_trimming') ->
  exists path_begin path_last,
    path !! O = Some path_begin /\ last path = Some path_last /\
    (length path = 1%nat -> edge_trimming' = edge_trimming) /\
    (forall j, is_Some (trim_lookup edge_trimming' j) <->
               is_Some (trim_lookup edge_trimming j)) /\
    ((1 < length path)%nat ->
     forall j,
       trim_lookup edge_trimming' j =
         if decide (j < length path)%nat
         then mark_entry (bool_decide (j = O))
                (bool_decide (S j = length path))
                (snapped origin (edgeid path_begin)).1.1
                (snapped dest (edgeid path_last)).1.1
                (snapped origin (edgeid path_begin)).2
                (snapped dest (edgeid path_last)).2 <$>
              trim_lookup edge_trimming j
         else trim_lookup edge_trimming j).
Proof.
  intros HB.
  destruct (Build_branches _ _ _ _ _ _ _ _ _ _ _ _ HB)
    as (pb & pl & sn & locs & Hpb & Hpl & Hsn & [(-> & -> & Hs)|(Hlen & Hm)]).
  - exists pb, pl. split_and!; [done..|]. simpl. lia.
  - exists pb, pl.
    assert (forall j,
       trim_lookup edge_trimming' j =
         if decide (j < length path)%nat
         then mark_entry (bool_decide (j = O))
                (bool_decide (S j = length path))
                (snapped origin (edgeid pb)).1.1
                (snapped dest (edgeid pl)).1.1
                (snapped origin (edgeid pb)).2
                (snapped dest (edgeid pl)).2 <$>
              trim_lookup edge_trimming j
         else trim_lookup edge_trimming j) as Hall.
    { unfold build_multi in Hm.
      apply bind_Some in Hm as (st & Hloop & H1).
      apply bind_Some in H1 as ([ai l] & _ & H1).
      apply bind_Some in H1 as (last_step & _ & H1).
      apply bind_Some in H1 as (nodes & _ & H1).
      injection H1 as _ <-. intros j.
      rewrite (build_loop_trim _ _ _ _ _ _ _ _ edge_trimming _ _ _ _ _ Hloop).
      2:{ constructor; simpl; done. }
      simpl. rewrite andb_true_r.
      destruct (decide (j < length path)%nat).
      - by rewrite decide_True by lia.
      - by rewrite decide_False by lia. }
    split_and!; [done|done|lia| |done].
    intros j. rewrite Hall. case_decide; [|done]. by rewrite fmap_is_Some.
Qed.

(** ** The shape indices at the two ends of the leg *)

(** The shape indices of the edge records span the shape of the leg: the
    first edge begins at index 0 and the last one ends at the last point of
    the shape, which is the shape of the bounding box and, when requested,
    the shape of the leg. *)
Theorem Build_shape_cover
    (recostings : list Recosting) (controller : AttributesController)
    (graphreader : GraphReader) (mode_costing : TravelMode -> option DynamicCost)
    (path : list PathInfo) (origin dest : Location) (through_loc : list Location)
    (interrupted : bool)
    (edge_trimming : option (gmap nat (EdgeTrimmingInfo * EdgeTrimmingInfo)))
    (leg : TripLeg)
    (edge_trimming' : option (gmap nat (EdgeTrimmingInfo * EdgeTrimmingInfo))) :
  Build recostings controller graphreader mode_costing path origin dest
    through_loc interrupted edge_trimming = Some (leg, edge_trimming') ->
  exists points first_node first_edge last_node last_edge,
    bbox leg = Some points /\
    leg_shape leg = value_if controller kShape points /\
    leg_node leg !! O = Some first_node /\
    edge first_node = Some first_edge /\
    begin_shape_index first_edge = value_if controller kEdgeBeginShapeIndex 0 /\
    leg_node leg !! (length path - 1)%nat = Some last_node /\
    edge last_node = Some last_edge /\
    end_shape_index last_edge =
      value_if controller kEdgeEndShapeIndex
        (wrap32 (Z.of_nat (length points) - 1)).
Proof.
  intros HB.
  assert (exists points nodes n0 e0 nl el,
            bbox leg = Some points /\
            leg_shape leg = value_if controller kShape points /\
            strip <$> leg_node leg = strip <$> nodes /\
            nodes !! O = Some n0 /\ edge n0 = Some e0 /\
            begin_shape_index e0 = value_if controller kEdgeBeginShapeIndex 0 /\
            nodes !! (length path - 1)%nat = Some nl /\ edge nl = Some el /\
            end_shape_index el =
              value_if controller kEdgeEndShapeIndex (shape_index points))
    as (points & nodes & n0 & e0 & nl & el & Hbb & Hsh & Hstrip & Hn0 & He0 &
        Hb0 & Hnl & Hel & Hend).
  { destruct (Build_branches _ _ _ _ _ _ _ _ _ _ _ _ HB)
      as (pb & pl & sn & locs & Hpb & Hpl & Hsn & [(-> & _ & Hs)|(Hlen & Hm)]).
    - unfold build_single in Hs.
      apply bind_Some in Hs as (tile & _ & H1).
      apply bind_Some in H1 as (edge0 & _ & H1).
      apply bind_Some in H1 as ([edge1 tile1] & _ & H1).
      apply bind_Some in H1 as (opp & _ & H1).
      apply bind_Some in H1 as (sni & _ & H1).
      apply bind_Some in H1 as (trip_edge & _ & H1).
      apply bind_Some in H1 as (c & _ & H1).
      apply bind_Some in H1 as ([shape' sa'] & _ & H1).
      apply bind_Some in H1 as ([ai l] & _ & H1).
      apply bind_Some in H1 as (nodes & Hacc & H1).
      injection H1 as <-. simpl.
      apply AccumulateRecostingInfoForward_strip in Hacc.
      eexists _, _, _, _, _, _.
      split_and!; [done|done|exact Hacc|done|done|done|done|done|done].
    - unfold build_multi in Hm.
      apply bind_Some in Hm as (st & Hloop & H1).
      apply bind_Some in H1 as ([ai l] & _ & H1).
      apply bind_Some in H1 as (last_step & _ & H1).
      apply bind_Some in H1 as (nodes & Hacc & H1).
      injection H1 as <- _. simpl.
      apply AccumulateRecostingInfoForward_strip in Hacc.
      pose proof Hloop as Hinv.
      eapply (build_loop_inv _ _ _ _ _ _ _ _ edge_trimming) in Hinv.
      2:{ constructor; simpl; done. }
      simpl in Hinv. destruct Hinv as [Hn _ Hedges Hlast _ _ _ _ _].
      destruct path as [|step0 steps]; [simpl in Hlen; lia|].
      simpl in Hloop. apply bind_Some in Hloop as (st1 & Hstep & Hloop).
      apply build_step_parts in Hstep
        as (graphtile & de & start_tile & nd & ai0 & block_id & sow &
            trip_edge & ts & b & tsp & tep & c & _ & _ & _ & _ & _ & _ &
            Happ & _ & _ & _ & Hn1).
      apply append_edge_shape_spec in Happ as [Hb _]. simpl in Hb, Hn1.
      apply build_loop_nodes_prefix in Hloop as (more & Hmore & _).
      assert (is_Some (bs_node st !! length steps)) as [nl Hnl].
      { apply lookup_lt_is_Some. rewrite Hn. simpl. lia. }
      assert (last (bs_node st) = Some nl) as Hlast_node.
      { rewrite last_lookup, Hn. simpl. done. }
      rewrite Forall_lookup in Hedges.
      destruct (Hedges _ _ Hnl) as [[el Hel] _].
      eexists _, _, _, _, nl, el.
      split_and!; [done|done|exact Hacc| | | | |exact Hel|].
      + rewrite Hmore, Hn1. simpl. done.
      + done.
      + simpl. by rewrite Hb.
      + simpl. rewrite Nat.sub_0_r. rewrite lookup_app_l; [done|].
        by eapply lookup_lt_Some.
      + by eapply Hlast. }
  destruct (strip_fmap_lookup (leg_node leg) nodes O n0 (eq_sym Hstrip) Hn0)
    as (m0 & Hm0 & Hs0).
  destruct (strip_fmap_lookup (leg_node leg) nodes _ nl (eq_sym Hstrip) Hnl)
    as (ml & Hml & Hsl).
  exists points, m0, e0, ml, el.
  split_and!; [done|done|done| |done|done| |done].
  - by rewrite <- (strip_edge _ _ Hs0).
  - by rewrite <- (strip_edge _ _ Hsl).
Qed.

(** ** The shape-attribute cutter, once more *)

(** With one tuple nothing is cut. *)
Lemma cut_shape_single edge_length s :
  forall prev rest total r,
    cut_shape edge_length [s] prev rest total = Some r -> r.1 = rest.
Proof.
  intros prev rest. revert prev.
  induction rest as [|p rest' IHrest]; intros prev total r; simpl.
  - by intros [= <-].
  - rewrite andb_false_r. intros (r' & Hr' & [= <-])%bind_Some. simpl.
    f_equal. by eapply IHrest.
Qed.

Lemma add_segment_lengths controller segs :
  forall sa,
    length (sa_time (foldl (add_segment controller) sa segs)) =
      (length (sa_time sa) +
       if attributes controller kShapeAttributesTime then length segs else O)%nat /\
    length (sa_length (foldl (add_segment controller) sa segs)) =
      (length (sa_length sa) +
       if attributes controller kShapeAttributesLength then length segs else O)%nat /\
    length (sa_speed (foldl (add_segment controller) sa segs)) =
      (length (sa_speed sa) +
       if attributes controller kShapeAttributesSpeed then length segs else O)%nat.
Proof.
  induction segs as [|seg segs IH]; intros sa; simpl.
  - by destruct (attributes controller _), (attributes controller _),
      (attributes controller _); rewrite ?Nat.add_0_r.
  - destruct (IH (add_segment controller sa seg)) as (-> & -> & ->).
    unfold add_segment. simpl.
    destruct (attributes controller kShapeAttributesTime),
      (attributes controller kShapeAttributesLength),
      (attributes controller kShapeAttributesSpeed);
      rewrite ?length_app; simpl; split_and!; lia.
Qed.

Lemma traffic_tuples_length ts speed : (length (traffic_tuples ts speed) <= 3)%nat.
Proof. unfold traffic_tuples. repeat case_match; simpl; lia. Qed.

Lemma speed_tuples_length tile edge src_pct tgt_pct edge_seconds cut :
  (1 <= length (speed_tuples tile edge src_pct tgt_pct edge_seconds cut) <= 4)%nat.
Proof.
  unfold speed_tuples.
  set (speeds := if cut then _ else _).
  assert (length speeds <= 3)%nat as Hle.
  { subst speeds. destruct cut; [apply traffic_tuples_length|simpl; lia]. }
  unfold needs_cap. destruct (last speeds) as [back|] eqn:Hlast.
  - assert (1 <= length speeds)%nat.
    { destruct speeds; [done|simpl; lia]. }
    case_match; rewrite ?length_app; simpl; lia.
  - rewrite length_app. simpl. lia.
Qed.

(** What [SetShapeAttributes] does to the shape and to the attribute lists
    when the leg has shape attributes: the points up to [shape_begin] stay,
    the points after it are kept in order with at most three cuts set
    between them, and every requested list grows by one entry per segment
    of the shape after [shape_begin]; a list that is not requested stays as
    it is. *)
Theorem SetShapeAttributes_segments
    (controller : AttributesController) (tile : GraphTile) (edge : DirectedEdge)
    (shape : list PointLL) (shape_begin : nat) (sa : ShapeAttributes)
    (src_pct tgt_pct edge_seconds : number) (cut_for_traffic : bool)
    (shape' : list PointLL) (attrs' : option ShapeAttributes) :
  SetShapeAttributes controller tile edge shape shape_begin (Some sa)
    src_pct tgt_pct edge_seconds cut_for_traffic = Some (shape', attrs') ->
  exists sa',
    attrs' = Some sa' /\
    take (S shape_begin) shape' = take (S shape_begin) shape /\
    shape `sublist_of` shape' /\
    (length shape <= length shape' <= length shape + 3)%nat /\
    let segments := (length shape' - S shape_begin)%nat in
    length (sa_time sa') =
      (length (sa_time sa) +
       if attributes controller kShapeAttributesTime then segments else O)%nat /\
    length (sa_length sa') =
      (length (sa_length sa) +
       if attributes controller kShapeAttributesLength then segments else O)%nat /\
    length (sa_speed sa') =
      (length (sa_speed sa) +
       if attributes controller kShapeAttributesSpeed then segments else O)%nat.
Proof.
  unfold SetShapeAttributes.
  destruct (shape !! shape_begin) as [prev|] eqn:Hprev.
  - intros (r & Hcut & [= <- <-])%bind_Some.
    apply cut_shape_points in Hcut as (Hlen & Hsub & Hle).
    apply lookup_lt_Some in Hprev as Hlt.
    pose proof (speed_tuples_length tile edge src_pct tgt_pct edge_seconds
                  cut_for_traffic) as Hsp.
    rewrite !length_drop in Hle.
    assert (length (take (S shape_begin) shape) = S shape_begin) as Htake.
    { rewrite length_take. lia. }
    apply sublist_length in Hsub as Hge. rewrite length_drop in Hge.
    eexists. split; [done|]. split; [|split; [|split]].
    + rewrite take_app_le by lia. rewrite take_take. f_equal. lia.
    + rewrite <- (take_drop (S shape_begin) shape) at 1.
      by apply sublist_app.
    + rewrite length_app, Htake. lia.
    + cbv zeta. rewrite length_app, Htake.
      replace (S shape_begin + length r.1 - S shape_begin)%nat
        with (length r.2) by lia.
      apply add_segment_lengths.
  - intros [= <- <-]. apply lookup_ge_None in Hprev.
    eexists. split; [done|]. split; [done|]. split; [done|]. split; [lia|].
    cbv zeta. replace (length shape - S shape_begin)%nat with O by lia.
    by destruct (attributes controller _), (attributes controller _),
      (attributes controller _); rewrite ?Nat.add_0_r.
Qed.

(** The cutter reads past the end of its list of speeds exactly when the
    shape has a point after [shape_begin] and no tuple lies at or after
    [src_pct]; a leg without shape attributes is left alone; and without
    traffic cutting the only tuple is the cap at [tgt_pct], so the call
    returns as soon as [src_pct <= tgt_pct]. *)
Theorem SetShapeAttributes_reads_in_range
    (controller : AttributesController) (tile : GraphTile) (edge : DirectedEdge)
    (shape : list PointLL) (shape_begin : nat) (sa : ShapeAttributes)
    (src_pct tgt_pct edge_seconds : number) (cut_for_traffic : bool) :
  (SetShapeAttributes controller tile edge shape shape_begin (Some sa)
     src_pct tgt_pct edge_seconds cut_for_traffic = None <->
   (S shape_begin < length shape)%nat /\
   Forall (fun s => (src_pct <=? s.1)%num = false)
     (speed_tuples tile edge src_pct tgt_pct edge_seconds cut_for_traffic)) /\
  SetShapeAttributes controller tile edge shape shape_begin None
    src_pct tgt_pct edge_seconds cut_for_traffic = Some (shape, None) /\
  (cut_for_traffic = false -> (src_pct <=? tgt_pct)%num = true ->
   is_Some (SetShapeAttributes controller tile edge shape shape_begin (Some sa)
              src_pct tgt_pct edge_seconds cut_for_traffic)).
Proof.
  pose proof (SetShapeAttributes_None controller tile edge shape shape_begin sa
                src_pct tgt_pct edge_seconds cut_for_traffic) as Hiff.
  split_and!; [done|done|].
  intros -> Hle.
  destruct (SetShapeAttributes _ _ _ _ _ _ _ _ _ _) eqn:E; [by eexists|].
  destruct (proj1 Hiff eq_refl) as [_ Hall].
  unfold speed_tuples in Hall. simpl in Hall.
  apply Forall_cons in Hall as [Hcap _]. simpl in Hcap. congruence.
Qed.

(** Without traffic cutting the shape is left as it is: cuts are made at
    traffic breakpoints only. *)
Theorem SetShapeAttributes_no_traffic
    (controller : AttributesController) (tile : GraphTile) (edge : DirectedEdge)
    (shape : list PointLL) (shape_begin : nat) (attrs : option ShapeAttributes)
    (src_pct tgt_pct edge_seconds : number)
    (shape' : list PointLL) (attrs' : option ShapeAttributes) :
  SetShapeAttributes controller tile edge shape shape_begin attrs
    src_pct tgt_pct edge_seconds false = Some (shape', attrs') ->
  shape' = shape.
Proof.
  unfold SetShapeAttributes. destruct attrs as [sa|]; [|by intros [= <- _]].
  destruct (shape !! shape_begin) as [prev|]; [|by intros [= <- _]].
  intros (r & Hcut & [= <- _])%bind_Some.
  change (speed_tuples tile edge src_pct tgt_pct edge_seconds false)
    with [(tgt_pct, baseline_speed edge src_pct tgt_pct edge_seconds)] in Hcut.
  cbn [find_if fst] in Hcut.
  destruct (src_pct <=? tgt_pct)%num; cbn [drop] in Hcut.
  - apply cut_shape_single in Hcut as ->. apply take_drop.
  - destruct (drop (S shape_begin) shape) as [|p rest] eqn:Hd.
    + simpl in Hcut. injection Hcut as <-. simpl.
      rewrite <- (take_drop (S shape_begin) shape) at 2. by rewrite Hd.
    + done.
Qed.

(** ** The edge assembler, once more *)

(** What stops [AddTripEdge] on an edge for which the traces of lines
    617-770 are not entered: one that does not have both lane connectivity
    and an access restriction, and that has no end restriction.  The call
    fails exactly when the speed is requested and there is no costing or its
    [EdgeCost] fails, or when the edge has an access restriction, the
    restriction index is not negative, and there is no costing or the index
    is outside the access restrictions of the edge. *)
Theorem AddTripEdge_stops
    (controller : AttributesController) (edge : GraphId)
    (trip_id block_id : Z) (mode : TravelMode) (travel_type : Z)
    (costing : option DynamicCost) (de : DirectedEdge) (dor : bool)
    (tile : GraphTile) (sow sni : Z) (hjn : bool)
    (start_tile : option GraphTile) (ridx : Z) :
  laneconnectivity de && access_restriction de = false ->
  end_restriction de = false ->
  (AddTripEdge controller edge trip_id block_id mode travel_type costing de dor
     tile sow sni hjn start_tile ridx = None <->
   (attributes controller kEdgeSpeed = true /\
    (costing ≫= fun c => EdgeCost c de tile sow) = None) \/
   (access_restriction de && (0 <=? ridx) = true /\
    (costing ≫= fun c =>
       GetAccessRestrictions tile (GraphId_id edge) (access_mode c)
         !! Z.to_nat ridx) = None)).
Proof. intros _ _. apply AddTripEdge_None. Qed.

(** Pedestrian, bicycle and vehicle type exclude one another and go with
    the travel mode: a vehicle type is written for driving only, a bicycle
    type for cycling that is not on foot, a pedestrian type for walking and
    for cycling on steps or where cyclists dismount, which is reported as
    the pedestrian travel mode; transit carries none of the three. *)
Theorem AddTripEdge_travel_types
    (controller : AttributesController) (edge : GraphId)
    (trip_id block_id : Z) (mode : TravelMode) (travel_type : Z)
    (costing : option DynamicCost) (de : DirectedEdge) (dor : bool)
    (tile : GraphTile) (sow sni : Z) (hjn : bool)
    (start_tile : option GraphTile) (ridx : Z) (e : TripLeg_Edge) :
  AddTripEdge controller edge trip_id block_id mode travel_type costing de dor
    tile sow sni hjn start_tile ridx = Some e ->
  let on_foot := dismount de || bool_decide (de_use de = kSteps) in
  (is_Some (vehicle_type e) ->
   mode = kDrive /\ pedestrian_type e = None /\ bicycle_type e = None) /\
  (is_Some (bicycle_type e) ->
   mode = kBicycle /\ on_foot = false /\
   pedestrian_type e = None /\ vehicle_type e = None) /\
  (is_Some (pedestrian_type e) ->
   (mode = kPedestrian \/ (mode = kBicycle /\ on_foot = true)) /\
   bicycle_type e = None /\ vehicle_type e = None) /\
  (mode = kBicycle -> on_foot = true ->
   travel_mode e = value_if controller kEdgeTravelMode TripLeg_TravelMode_kPedestrian /\
   pedestrian_type e =
     value_if controller kEdgePedestrianType TripLeg_PedestrianType_kFoot) /\
  (mode = kPublicTransit ->
   pedestrian_type e = None /\ bicycle_type e = None /\ vehicle_type e = None).
Proof.
  unfold AddTripEdge. intros He.
  apply bind_Some in He as (sp & _ & He).
  apply bind_Some in He as (rs & _ & He).
  injection He as <-. cbv zeta. simpl.
  unfold edge_vehicle_type, edge_bicycle_type, edge_pedestrian_type,
    edge_travel_mode, bicycle_on_foot, value_if.
  destruct mode; simpl;
    destruct (dismount de || bool_decide (de_use de = kSteps));
    destruct (attributes controller kEdgeVehicleType),
      (attributes controller kEdgeBicycleType),
      (attributes controller kEdgePedestrianType),
      (attributes controller kEdgeTravelMode);
    split_and!; try done; try (by intros [? [=]]); intros _;
    split_and!; (done || (by left) || (by right)).
Qed.

(** ** Recosting, for every replay *)

(** Whatever the replays do, [AccumulateRecostingInfoForward] writes to the
    recosts only: when it returns, the leg has the nodes it had, each with
    every other field as it was.  Without a requested costing, and on a leg
    without nodes, nothing changes at all. *)
Theorem AccumulateRecostingInfoForward_frame
    (recostings : list Recosting) (nodes nodes' : list TripLeg_Node) :
  AccumulateRecostingInfoForward recostings nodes = Some nodes' ->
  length nodes' = length nodes /\
  Forall2 (fun n n' => strip n' = strip n) nodes nodes' /\
  (recostings = [] \/ nodes = [] -> nodes' = nodes).
Proof.
  intros Hacc.
  pose proof (AccumulateRecostingInfoForward_strip _ _ _ Hacc) as Hstrip.
  assert (length nodes' = length nodes) as Hlen.
  { apply (f_equal length) in Hstrip. by rewrite !length_fmap in Hstrip. }
  split_and!; [done| |].
  - apply Forall2_same_length_lookup. split; [done|].
    intros i n n' Hn Hn'.
    destruct (strip_fmap_lookup _ _ _ _ Hstrip Hn') as (m & Hm & Hs).
    congruence.
  - unfold AccumulateRecostingInfoForward in Hacc.
    intros [->| ->]; simpl in Hacc.
    + case_decide; by injection Hacc as <-.
    + by injection Hacc as <-.
Qed.

(** ** Admin interning, once more *)

(** The indices that interning hands out are dense and tell descriptors
    apart: one index per reference, two references receive the same index
    exactly when their descriptors are equal, and the indices handed out
    are exactly the positions of the list; the map is the inverse of the
    list. *)
Theorem intern_seq_dense (refs : list AdminInfo) :
  Z.of_nat (length (first_refs refs)) <= 2 ^ 32 ->
  length (intern_seq refs).1.1 = length refs /\
  NoDup (intern_seq refs).2 /\
  (forall k1 k2 a1 a2 i1 i2,
     refs !! k1 = Some a1 -> refs !! k2 = Some a2 ->
     (intern_seq refs).1.1 !! k1 = Some i1 ->
     (intern_seq refs).1.1 !! k2 = Some i2 ->
     (i1 = i2 <-> a1 = a2)) /\
  (forall i, i ∈ (intern_seq refs).1.1 <->
             0 <= i < Z.of_nat (length (intern_seq refs).2)) /\
  (forall a i, (intern_seq refs).1.2 !! a = Some i <->
               0 <= i /\ (intern_seq refs).2 !! Z.to_nat i = Some a).
Proof.
  intros Hlen. destruct (intern_seq_spec refs Hlen) as ([Hnd Hmap] & Hl & Hidx).
  split_and!.
  - unfold intern_seq. apply intern_from_length.
  - done.
  - intros k1 k2 a1 a2 i1 i2 H1 H2 Hi1 Hi2.
    destruct (Hidx _ _ H1) as (n1 & Hn1 & Ha1).
    destruct (Hidx _ _ H2) as (n2 & Hn2 & Ha2).
    rewrite Hn1 in Hi1. rewrite Hn2 in Hi2.
    injection Hi1 as <-. injection Hi2 as <-.
    rewrite Hl in Hnd. split.
    + intros Heq. assert (n1 = n2) as -> by lia. congruence.
    + intros ->. f_equal. by eapply NoDup_lookup.
  - intros i. rewrite Hl. split.
    + intros Hi. apply list_elem_of_lookup in Hi as [k Hk].
      assert (is_Some (refs !! k)) as [a Ha].
      { apply lookup_lt_is_Some. rewrite <- (intern_from_length refs ∅ []).
        by eapply lookup_lt_Some. }
      destruct (Hidx _ _ Ha) as (n & Hn & Hfa).
      rewrite Hn in Hk. injection Hk as <-.
      apply lookup_lt_Some in Hfa. lia.
    + intros Hi.
      assert (is_Some (first_refs refs !! Z.to_nat i)) as [a Ha].
      { apply lookup_lt_is_Some. lia. }
      assert (a ∈ refs) as Hin.
      { apply first_refs_elem. by eapply list_elem_of_lookup_2. }
      apply list_elem_of_lookup in Hin as [k Hk].
      destruct (Hidx _ _ Hk) as (n & Hn & Hfa).
      rewrite Hl in Hnd.
      assert (n = Z.to_nat i) as -> by (by eapply NoDup_lookup).
      apply list_elem_of_lookup. exists k. rewrite Hn. f_equal. lia.
  - intros a i. rewrite Hmap. split.
    + intros (n & Hn & ->). split; [lia|]. by rewrite Nat2Z.id.
    + intros [Hi Hn]. exists (Z.to_nat i). split; [done|lia].
Qed.

(** ** Splitting a string *)

Lemma last_cons_cons {A : Type} (x y : A) (l : list A) :
  last (x :: y :: l) = last (y :: l).
Proof. done. Qed.

Lemma split_tokens_join (delimiter : Ascii.ascii) (source : list Ascii.ascii) :
  forall token,
    delimiter ∉ token ->
    join delimiter (split_tokens token source delimiter) ++
      (if decide (last source = Some delimiter) then [delimiter] else []) =
      token ++ source /\
    Forall (fun t => delimiter ∉ t) (split_tokens token source delimiter) /\
    (split_tokens token source delimiter = [] <-> token = [] /\ source = []).
Proof.
  induction source as [|c source IH]; intros token Htoken; simpl.
  - case_decide as Ht.
    + subst. split_and!; [done|constructor|done].
    + simpl. rewrite !app_nil_r.
      split_and!; [done|by constructor|]. split; [done|]. by intros [? _].
  - destruct (decide (c = delimiter)) as [->|Hc].
    + destruct (IH [] (not_elem_of_nil _)) as (Hjoin & Hall & Hnil).
      split_and!; [|by constructor|split; [done|by intros [_ ?]]].
      destruct (split_tokens [] source delimiter) as [|t ts] eqn:Hts.
      * destruct (proj1 Hnil eq_refl) as [_ ->]. simpl.
        by rewrite decide_True.
      * assert (source ≠ []) as Hne.
        { intros ->. by destruct (proj2 Hnil (conj eq_refl eq_refl)). }
        destruct source as [|c' source']; [done|].
        rewrite last_cons_cons. rewrite app_nil_l in Hjoin.
        change (join delimiter (token :: t :: ts))
          with (token ++ delimiter :: join delimiter (t :: ts)).
        rewrite <- app_assoc, <- app_comm_cons. by rewrite Hjoin.
    + assert (delimiter ∉ token ++ [c]) as Htc.
      { rewrite elem_of_app, list_elem_of_singleton. naive_solver. }
      destruct (IH _ Htc) as (Hjoin & Hall & Hnil).
      split_and!; [|done|].
      * rewrite <- app_assoc in Hjoin. simpl in Hjoin. rewrite <- Hjoin.
        f_equal. destruct source as [|c' source']; [|done]. simpl.
        rewrite decide_False; [done|]. congruence.
      * rewrite Hnil. split; [|by intros [_ ?]].
        intros [Ht _]. by destruct token.
Qed.

Lemma split_tokens_whole (delimiter : Ascii.ascii) (source : list Ascii.ascii) :
  forall token,
    delimiter ∉ source ->
    split_tokens token source delimiter =
      if decide (token ++ source = []) then [] else [token ++ source].
Proof.
  induction source as [|c source IH]; intros token Hd; simpl.
  - rewrite app_nil_r. by case_decide.
  - apply not_elem_of_cons in Hd as [Hc Hd].
    rewrite decide_False by done. rewrite IH by done.
    rewrite <- app_assoc. simpl. repeat case_decide; try done.
    all: by destruct token.
Qed.

(** [split] cuts the source at every delimiter and nowhere else: no token
    holds the delimiter, and the tokens joined by the delimiter are the
    source again, up to a delimiter at the very end of the source, after
    which no empty token is made.  Only the empty source has no token, and
    a source without the delimiter is its own single token. *)
Theorem split_join (source : list Ascii.ascii) (delimiter : Ascii.ascii) :
  Forall (fun t => delimiter ∉ t) (split source delimiter) /\
  join delimiter (split source delimiter) ++
    (if decide (last source = Some delimiter) then [delimiter] else []) =
    source /\
  (split source delimiter = [] <-> source = []) /\
  (delimiter ∉ source -> source ≠ [] -> split source delimiter = [source]).
Proof.
  unfold split.
  destruct (split_tokens_join delimiter source [] (not_elem_of_nil _))
    as (Hjoin & Hall & Hnil).
  split_and!; [done|done| |].
  - rewrite Hnil. naive_solver.
  - intros Hd Hne. rewrite split_tokens_whole by done. simpl.
    by rewrite decide_False.
Qed.

(** ** The records of a node *)

Lemma access_traversability_combine de k :
  access_traversability de k =
    combine_access (has_access (forwardaccess de) k)
                   (has_access (reverseaccess de) k).
Proof.
  unfold access_traversability, combine_access.
  by destruct (has_access (forwardaccess de) k),
    (has_access (reverseaccess de) k).
Qed.

Lemma edge_traversability_as_stored de k :
  edge_traversability de k =
    (if forward de then fun t => t else swap_direction)
      (access_traversability de k).
Proof.
  rewrite access_traversability_combine.
  destruct (forward de) eqn:Hf.
  - by apply edge_traversability_forward.
  - by apply edge_traversability_reverse.
Qed.

(** An edge listed as an intersecting edge has its walkability and its
    cyclability stated in the direction in which the edge is stored,
    whereas the same edge as a path edge has its traversability stated in
    the direction of travel: for a forward edge the two agree, for an edge
    stored against its direction Forward and Backward are exchanged.  On
    the first edge of a path, where there is no previous edge, the name
    consistency with the previous edge is false. *)
Theorem AddTripIntersectingEdge_direction
    (attributes_at : NodeAttr -> bool) (controller : AttributesController)
    (edge : GraphId) (trip_id block_id : Z) (mode : TravelMode)
    (travel_type : Z) (costing : option DynamicCost) (de : DirectedEdge)
    (dor : bool) (tile : GraphTile) (sow sni : Z) (hjn : bool)
    (start_tile : option GraphTile) (ridx : Z) (e : TripLeg_Edge)
    (directededge : DirectedEdge) (prev_de : option DirectedEdge)
    (local_edge_index : Z) (nodeinfo : NodeInfo) :
  AddTripEdge controller edge trip_id block_id mode travel_type costing de dor
    tile sow sni hjn start_tile ridx = Some e ->
  attributes controller kEdgeTraversability = true ->
  let ie := AddTripIntersectingEdge attributes_at directededge prev_de
              local_edge_index nodeinfo de in
  let as_travelled t := if forward de then t else swap_direction t in
  (attributes_at kNodeIntersectingEdgeWalkability = true ->
   mode = kPedestrian \/ mode = kPublicTransit ->
   traversability e = as_travelled <$> walkability ie) /\
  (attributes_at kNodeIntersectingEdgeCyclability = true ->
   mode = kBicycle ->
   traversability e = as_travelled <$> cyclability ie) /\
  (attributes_at kNodeIntersectingEdgeFromEdgeNameConsistency = true ->
   prev_de = None -> prev_name_consistency ie = Some false).
Proof.
  intros He Hflag. cbv zeta.
  apply AddTripEdge_traversability in He. rewrite He.
  unfold value_if. rewrite Hflag, edge_traversability_as_stored.
  unfold AddTripIntersectingEdge. simpl.
  split_and!.
  - intros -> [-> | ->]; simpl; by destruct (forward de).
  - intros -> ->. simpl. by destruct (forward de).
  - by intros -> ->.
Qed.

Lemma mapM_Forall {A B : Type} (P : B -> Prop) (f : A -> option (list B))
    (l : list A) (k : list (list B)) :
  (forall x y, f x = Some y -> Forall P y) ->
  mapM f l = Some k -> Forall P (concat k).
Proof.
  intros Hf Hm. apply mapM_Some in Hm. apply Forall_concat.
  induction Hm as [|x y l k Hxy _ IH]; constructor; [by eapply Hf|done].
Qed.

Lemma across_transition_listed graphreader directededge prior endnode sel :
  across_transition graphreader directededge prior endnode = Some sel ->
  Forall (fun nd => is_shortcut nd.2 = false /\
                    localedgeidx nd.2 ≠ prior /\
                    localedgeidx nd.2 ≠ localedgeidx directededge) sel.
Proof.
  unfold across_transition.
  destruct (GetGraphTile graphreader endnode) as [endtile|]; [|by intros [= <-]].
  intros (nodeinfo2 & _ & (edges & _ & [= <-])%bind_Some)%bind_Some.
  apply Forall_fmap, Forall_forall. intros de2 Hde2. simpl.
  apply list_elem_of_filter in Hde2 as [Hskip _].
  unfold skipped_across in Hskip.
  apply orb_false_iff in Hskip as [Hskip H3].
  apply orb_false_iff in Hskip as [H1 H2].
  apply Z.eqb_neq in H2, H3. done.
Qed.

(** The intersecting edges of a node: one record per listed edge.  No
    shortcut is listed, nor the path edge itself, nor the edge with the
    local index opposing the previous path edge; nothing is listed at an
    invalid start node; and a node without transitions lists no more
    edges than it has. *)
Theorem intersecting_edges_listed
    (attributes_at : NodeAttr -> bool) (graphreader : GraphReader)
    (start_tile : GraphTile) (nodeinfo : NodeInfo) (startnode : GraphId)
    (directededge : DirectedEdge) (prev_de : option DirectedEdge)
    (prior_opp_local_index : Z) (ies : list TripLeg_IntersectingEdge) :
  intersecting_edges attributes_at graphreader start_tile nodeinfo startnode
    directededge prev_de prior_opp_local_index = Some ies ->
  exists selection,
    intersecting_selection graphreader start_tile nodeinfo startnode
      directededge prior_opp_local_index = Some selection /\
    ies = (fun nd => AddTripIntersectingEdge attributes_at directededge prev_de
                       (localedgeidx nd.2) nd.1 nd.2) <$> selection /\
    Forall (fun nd => is_shortcut nd.2 = false /\
                      localedgeidx nd.2 ≠ prior_opp_local_index /\
                      localedgeidx nd.2 ≠ localedgeidx directededge)
           selection /\
    (Is_Valid startnode = false -> ies = []) /\
    (transition_count nodeinfo <= 0 ->
     (length ies <= Z.to_nat (edge_count nodeinfo))%nat).
Proof.
  unfold intersecting_edges. intros (selection & Hsel & [= <-])%bind_Some.
  exists selection. split_and!; [done|done| | |].
  - unfold intersecting_selection in Hsel.
    destruct (Is_Valid startnode); [|by injection Hsel as <-].
    apply bind_Some in Hsel as (edges & _ & Hsel).
    assert (Forall (fun nd : NodeInfo * DirectedEdge =>
                      is_shortcut nd.2 = false /\
                      localedgeidx nd.2 ≠ prior_opp_local_index /\
                      localedgeidx nd.2 ≠ localedgeidx directededge)
              ((fun de => (nodeinfo, de)) <$>
                 filter (fun de => skipped_here directededge
                                     prior_opp_local_index de = false) edges))
      as Hhere.
    { apply Forall_fmap, Forall_forall. intros de Hde. simpl.
      apply list_elem_of_filter in Hde as [Hskip _].
      unfold skipped_here in Hskip.
      apply orb_false_iff in Hskip as [Hskip _].
      apply orb_false_iff in Hskip as [Hskip H3].
      apply orb_false_iff in Hskip as [H1 H2].
      apply Z.eqb_neq in H2, H3. done. }
    destruct (0 <? transition_count nodeinfo); [|by injection Hsel as <-].
    apply bind_Some in Hsel as (t0 & _ & Hsel).
    apply bind_Some in Hsel as (ends & _ & Hsel).
    apply bind_Some in Hsel as (across & Hacross & [= <-]).
    apply Forall_app. split; [done|].
    eapply mapM_Forall; [|exact Hacross].
    intros x y. apply across_transition_listed.
  - intros Hv. unfold intersecting_selection in Hsel. rewrite Hv in Hsel.
    by injection Hsel as <-.
  - intros Htc. rewrite length_fmap.
    unfold intersecting_selection in Hsel.
    destruct (Is_Valid startnode); [|injection Hsel as <-; simpl; lia].
    apply bind_Some in Hsel as (edges & Hedges & Hsel).
    assert ((0 <? transition_count nodeinfo) = false) as Hno
      by (apply Z.ltb_ge; lia).
    rewrite Hno in Hsel. injection Hsel as <-.
    rewrite length_fmap.
    unfold node_edges in Hedges.
    apply bind_Some in Hedges as (d0 & _ & Hedges).
    apply length_mapM in Hedges. rewrite length_seqZ in Hedges.
    pose proof (length_filter
                  (fun de => skipped_here directededge prior_opp_local_index de
                             = false) edges).
    lia.
Qed.

(** The station block and the egress block of a node.  The call stops only
    when the start tile does not have the start node of a station or
    egress node.  A block is written exactly for a node of its type, so
    never both; it is written even when the stop record is missing, and is
    empty then; when none of its attributes is requested it has no
    identifier, no name and no coordinates. *)
Theorem AddTransitNodes_blocks
    (attributes_at : NodeAttr -> bool) (nodeinfo : NodeInfo)
    (startnode : GraphId) (start_tile graphtile : GraphTile) :
  kTransitStation ≠ kTransitEgress ->
  let empty := {| tsi_onestop_id := None; tsi_name := None; tsi_ll := None |} in
  (AddTransitNodes attributes_at nodeinfo startnode start_tile graphtile = None <->
   (node_type nodeinfo = kTransitStation \/ node_type nodeinfo = kTransitEgress) /\
   node start_tile startnode = None) /\
  forall station egress,
    AddTransitNodes attributes_at nodeinfo startnode start_tile graphtile =
      Some (station, egress) ->
    (is_Some station <-> node_type nodeinfo = kTransitStation) /\
    (is_Some egress <-> node_type nodeinfo = kTransitEgress) /\
    (station = None \/ egress = None) /\
    (forall info n,
       station = Some info \/ egress = Some info ->
       node start_tile startnode = Some n ->
       (GetTransitStop start_tile (stop_index n) = None -> info = empty) /\
       ((forall a, attributes_at a = false) ->
        tsi_onestop_id info = None /\ tsi_name info = None /\
        forall ll, tsi_ll info ≠ Some (Some ll))).
Proof.
  intros Hne. cbv zeta. unfold AddTransitNodes.
  destruct (node_type nodeinfo =? kTransitStation) eqn:Hs;
    destruct (node_type nodeinfo =? kTransitEgress) eqn:Hg.
  - apply Z.eqb_eq in Hs, Hg. congruence.
  - apply Z.eqb_eq in Hs. apply Z.eqb_neq in Hg.
    destruct (node start_tile startnode) as [n|] eqn:Hn; simpl.
    + split; [split; [done|by intros [_ ?]]|].
      intros station egress [= <- <-]. split_and!.
      * split; [done|by eexists].
      * split; [by intros [? ?]|done].
      * by right.
      * intros info n' [[= <-]|[=]] [= <-]. split; [by intros ->|].
        intros Hoff. unfold transit_stop_info. rewrite !Hoff.
        by destruct (GetTransitStop start_tile (stop_index n)).
    + split; [|done]. split; [intros _; auto|done].
  - apply Z.eqb_neq in Hs. apply Z.eqb_eq in Hg.
    destruct (node start_tile startnode) as [n|] eqn:Hn; simpl.
    + split; [split; [done|by intros [_ ?]]|].
      intros station egress [= <- <-]. split_and!.
      * split; [by intros [? ?]|done].
      * split; [done|by eexists].
      * by left.
      * intros info n' [[=]|[= <-]] [= <-]. split; [by intros ->|].
        intros Hoff. unfold transit_stop_info. rewrite !Hoff.
        by destruct (GetTransitStop start_tile (stop_index n)).
    + split; [|done]. split; [intros _; auto|done].
  - apply Z.eqb_neq in Hs, Hg. simpl.
    split; [split; [done|by intros [[?|?] _]]|].
    intros station egress [= <- <-]. split_and!.
    + split; [by intros [? ?]|done].
    + split; [by intros [? ?]|done].
    + by left.
    + by intros info n [[=]|[=]].
Qed.

End Builder.

(** * A small graph to run the builder on

    Numbers are rationals; points lie on a line and are given by their
    position in metres.  One tile holds three nodes in a row and the four
    directed edges between them: [A] from node 0 to node 1 (100 m) and [B]
    from node 1 to node 2 (150 m), with their opposing edges. *)

Definition Q_ltb (a b : QArith_base.Q) : bool := negb (QArith_base.Qle_bool b a).

Definition Q_abs (a : QArith_base.Q) : QArith_base.Q :=
  QArith_base.Qmake (Z.abs (QArith_base.Qnum a)) (QArith_base.Qden a).

Definition Q_floor (a : QArith_base.Q) : Z :=
  QArith_base.Qnum a / Z.pos (QArith_base.Qden a).

Definition Q_lit (s : string) : QArith_base.Q :=
  if String.eqb s "3.6" then QArith_base.Qmake 36 10
  else if String.eqb s "6" then QArith_base.Qmake 6 1
  else if String.eqb s "0.6" then QArith_base.Qmake 6 10
  else if String.eqb s "255.0" then QArith_base.Qmake 255 1
  else if String.eqb s "1000" then QArith_base.Qmake 1000 1
  else if String.eqb s "10" then QArith_base.Qmake 10 1
  else if String.eqb s "0.5" then QArith_base.Qmake 1 2
  else if String.eqb s "1.0" then QArith_base.Qmake 1 1
  else if String.eqb s "kKmPerMeter" then QArith_base.Qmake 1 1000
  else if String.eqb s "0.001" then QArith_base.Qmake 1 1000
  else QArith_base.Qmake 0 1.

#[local] Instance arithQ : Arith QArith_base.Q := {|
  n_add := QArith_base.Qplus;
  n_sub := QArith_base.Qminus;
  n_mul := QArith_base.Qmult;
  n_div := QArith_base.Qdiv;
  n_abs := Q_abs;
  n_max := fun a b => if QArith_base.Qle_bool a b then b else a;
  n_round := fun a =>
    QArith_base.inject_Z
      (Q_floor (QArith_base.Qplus a (QArith_base.Qmake 1 2)));
  n_ltb := Q_ltb;
  n_leb := QArith_base.Qle_bool;
  n_of_Z := QArith_base.inject_Z;
  n_lit := Q_lit;
  n_to_uint32 := fun a => wrap32 (Q_floor a);
  n_indeterminate := QArith_base.Qmake 0 1
|}.

(** The points of a shape that lie strictly between two distances along
    it, between the two given end vertices. *)
Definition line_trim (start_dist : QArith_base.Q) (start_vertex : QArith_base.Q)
    (end_dist : QArith_base.Q) (end_vertex : QArith_base.Q)
    (shape : list QArith_base.Q) : list QArith_base.Q :=
  match shape with
  | [] => [start_vertex; end_vertex]
  | p0 :: _ =>
      start_vertex ::
      filter (fun p =>
                Is_true (Q_ltb start_dist (Q_abs (QArith_base.Qminus p p0)) &&
                         Q_ltb (Q_abs (QArith_base.Qminus p p0)) end_dist))
             shape ++
      [end_vertex]
  end.

#[local] Instance geometryQ : Geometry QArith_base.Q QArith_base.Q := {|
  Distance := fun a b => Q_abs (QArith_base.Qminus a b);
  PointAlongSegment := fun a b c =>
    QArith_base.Qplus a (QArith_base.Qmult (QArith_base.Qminus b a) c);
  mkPointLL := fun lng lat => lng;
  pt_lat := fun _ => QArith_base.Qmake 0 1;
  pt_lng := fun p => p;
  PointLL_default := QArith_base.Qmake 0 1;
  trim_shape := line_trim
|}.

#[local] Instance sample_constants : Constants := {|
  kAutoAccess := 1;
  kPedestrianAccess := 2;
  kBicycleAccess := 4;
  kAllAccess := 4095;
  kCurrentFlowMask := 8;
  UNKNOWN_TRAFFIC_SPEED_RAW := 127;
  kInvalidGraphId := 70368744177663;
  kNoElevationData := 32768;
  GraphId_id := fun g => Z.land (Z.shiftr g 25) (2 ^ 21 - 1)
|}.

#[local] Instance sample_external
  : External (number := QArith_base.Q) (PointLL := QArith_base.Q) := {|
  TimeInfo := Z;
  TimeInfo_make := fun _ _ => 43200;
  TimeInfo_forward := fun t _ _ => t;
  second_of_week := fun t => t;
  tz_name := fun _ => None;
  GetOffsetForHeading := fun _ _ => QArith_base.Qmake 30 1;
  HeadingAlongPolyline := fun _ _ _ => QArith_base.Qmake 90 1;
  HeadingAtEndOfPolyline := fun _ _ _ => QArith_base.Qmake 90 1
|}.

(** The graph id of the object with index [i] in tile 0. *)
Definition gid (i : Z) : GraphId := Z.shiftl i 25.

Definition sample_edge (len : Z) (endnode_index : Z) (fwd : bool)
    (opp local : Z) (info : Z) (fwd_access rev_access : Z) (lanes : bool)
  : DirectedEdge :=
  {| de_length := len; endnode := gid endnode_index; forward := fwd;
     opp_index := opp; opp_local_idx := opp; localedgeidx := local;
     leaves_tile := false; classification := 3; de_use := kOtherUse 0;
     forwardaccess := fwd_access; reverseaccess := rev_access;
     toll := false; unpaved := false; tunnel := false; bridge := true;
     roundabout := false; internal := false; destonly := false;
     dismount := false; truck_route := false; bike_network := 0;
     cyclelane := CycleLane_kNone; sidewalk_left := true;
     sidewalk_right := false; de_speed := 50; truck_speed := 40;
     weighted_grade := 6; max_up_slope := 0; max_down_slope := 0;
     lanecount := 2; density := 5; surface := 0; edgeinfo_offset := info;
     de_sign := false; de_turnlanes := lanes; laneconnectivity := false;
     access_restriction := false; end_restriction := false; lineid := 0 |}.

(** Edges 0 ([A]), 1 (its opposing edge), 2 ([B]) and 3 (its opposing
    edge); [A] allows cars one way only. *)
Definition sample_edges : list DirectedEdge :=
  [ sample_edge 100 1 true 0 0 0 1 0 true;
    sample_edge 100 0 false 0 0 0 0 1 false;
    sample_edge 150 2 true 0 1 1 1 1 false;
    sample_edge 150 1 false 1 0 1 1 1 false ].

Definition sample_node (first_edge : Z) : NodeInfo :=
  {| node_type := 0; is_fork := false; ni_admin_index := 0; timezone := 0;
     edge_index := first_edge; drive_on_right := true;
     named_intersection := false; is_transit := false |}.

Definition sample_nodes : list NodeInfo :=
  [sample_node 0; sample_node 1; sample_node 3].

Definition lookup_index {A : Type} (l : list A) (i : Z) : option A :=
  if i <? 0 then None else l !! Z.to_nat i.

Definition sample_admin : AdminInfo :=
  {| country_text := "United States"; state_text := "Pennsylvania";
     country_iso := "US"; state_iso := "PA" |}.

Definition sample_tile
  : GraphTile (PointLL := QArith_base.Q) :=
  {| tile_directededge := fun g => lookup_index sample_edges (GraphId_id g);
     directededge_at := lookup_index sample_edges;
     node := fun g => lookup_index sample_nodes (GraphId_id g);
     admininfo := lookup_index [sample_admin];
     edgeinfo := fun offset =>
       {| GetNamesAndTypes := [("Main Street", false)];
          wayid := 1000 + offset; mean_elevation := 0; speed_limit := 50;
          shape :=
            if offset =? 0
            then [QArith_base.Qmake 0 1; QArith_base.Qmake 50 1;
                  QArith_base.Qmake 100 1]
            else [QArith_base.Qmake 100 1; QArith_base.Qmake 250 1] |};
     GetSigns := fun _ _ => [];
     turnlanes := fun idx => if idx =? 0 then [5; 9] else [];
     GetLaneConnectivity := fun _ => [];
     GetAccessRestrictions := fun _ _ => [];
     trafficspeed := fun _ =>
       {| breakpoint1 := 0; breakpoint2 := 0; speed3 := 127 |};
     has_elevation := false;
     dataset_id := 7;
     GetTransitDeparture := fun _ _ _ => None;
     GetTransitRoute := fun _ => None;
     GetName := fun _ => "";
     GetOpposingEdgeId := fun de =>
       match lookup_index sample_nodes (GraphId_id (endnode de)) with
       | Some n => gid (edge_index n + opp_index de)
       | None => kInvalidGraphId
       end |}.

(** The reader knows tile 0 only. *)
Definition sample_reader
  : GraphReader (PointLL := QArith_base.Q) :=
  {| GetGraphTile := fun g =>
       if Z.land g (2 ^ 25 - 1) =? 0 then Some sample_tile else None;
     GetOpposingEdge := fun g =>
       de ← tile_directededge sample_tile g;
       opp ← tile_directededge sample_tile (GetOpposingEdgeId sample_tile de);
       Some (opp, sample_tile);
     nodeinfo := node sample_tile |}.

Definition sample_costing
  : DynamicCost (number := QArith_base.Q) (PointLL := QArith_base.Q) :=
  {| EdgeCost := fun de _ _ =>
       Some {| secs := QArith_base.Qmake (de_length de) 10;
               cost := QArith_base.Qmake (de_length de) 10 |};
     access_mode := 1; flow_mask := 0; travel_type := 0 |}.

Definition sample_mode_costing (mode : TravelMode)
  : option (DynamicCost (number := QArith_base.Q) (PointLL := QArith_base.Q)) :=
  match mode with
  | kDrive => Some sample_costing
  | _ => None
  end.

Definition sample_step (edge_index : Z) (elapsed : Z)
  : PathInfo (number := QArith_base.Q) :=
  {| edgeid := gid edge_index; mode := kDrive; trip_id := 0;
     elapsed_cost := {| secs := QArith_base.Qmake elapsed 1;
                        cost := QArith_base.Qmake elapsed 1 |};
     transition_cost := {| secs := QArith_base.Qmake 0 1;
                           cost := QArith_base.Qmake 0 1 |};
     restriction_index := -1 |}.

(** The path over [A] then [B], from 20 m along [A] to 75 m along [B]. *)
Definition sample_path : list (PathInfo (number := QArith_base.Q)) :=
  [sample_step 0 8; sample_step 2 16].

Definition sample_location (edge_index : Z) (pct ll : QArith_base.Q)
  : Location (number := QArith_base.Q) :=
  {| path_edges :=
       [ {| graph_id := gid 9; percent_along := QArith_base.Qmake 0 1;
            pe_side_of_street := kNoneSide;
            pe_lat := QArith_base.Qmake 0 1; pe_lng := QArith_base.Qmake 0 1 |};
         {| graph_id := gid edge_index; percent_along := pct;
            pe_side_of_street := kLeft;
            pe_lat := QArith_base.Qmake 0 1; pe_lng := ll |} ];
     date_time := None; side_of_street := None; projected_ll := None |}.

Definition sample_origin : Location (number := QArith_base.Q) :=
  sample_location 0 (QArith_base.Qmake 1 5) (QArith_base.Qmake 20 1).

Definition sample_dest : Location (number := QArith_base.Q) :=
  sample_location 2 (QArith_base.Qmake 1 2) (QArith_base.Qmake 175 1).

Definition all_on : AttributesController :=
  {| attributes := fun _ => true; category_attribute_enabled := fun _ => true |}.

Definition all_off : AttributesController :=
  {| attributes := fun _ => false; category_attribute_enabled := fun _ => false |}.

(** Only [node.admin_index] is requested: no attribute of the admin
    category is. *)
Definition admin_index_only : AttributesController :=
  {| attributes := fun a =>
       match a with
       | kNodeaAdminIndex => true
       | _ => false
       end;
     category_attribute_enabled := fun _ => false |}.

(** A trimming map that marks a trimmed begin at edge 1. *)
Definition sample_trimming
  : gmap nat (EdgeTrimmingInfo (number := QArith_base.Q) (PointLL := QArith_base.Q) *
              EdgeTrimmingInfo (number := QArith_base.Q) (PointLL := QArith_base.Q)) :=
  {[ 1%nat :=
       ({| trim := true; vertex := QArith_base.Qmake 110 1;
           distance_along := QArith_base.Qmake 1 15 |},
        {| trim := false; vertex := QArith_base.Qmake 0 1;
           distance_along := QArith_base.Qmake 1 1 |}) ]}.

Definition sample_build (controller : AttributesController)
    (recostings : list (Recosting (number := QArith_base.Q)))
    (edge_trimming : option (gmap nat (EdgeTrimmingInfo * EdgeTrimmingInfo))) :=
  Build recostings controller sample_reader sample_mode_costing sample_path
    sample_origin sample_dest [] false edge_trimming.

(** The legs that the builder returns on the sample path. *)
Definition sample_leg := Eval vm_compute in sample_build all_on [] None.

Definition sample_leg_trimmed :=
  Eval vm_compute in sample_build all_on [] (Some sample_trimming).

Definition sample_leg_admin_index_only :=
  Eval vm_compute in sample_build admin_index_only [] None.

(** [AddTripEdge] on an edge of the sample tile, driven as the first edge
    of the path. *)
Definition sample_AddTripEdge (controller : AttributesController)
    (de : DirectedEdge) :=
  AddTripEdge controller (gid 0) 0 0 kDrive 0 (Some sample_costing) de true
    sample_tile 43200 0 false None (-1).

(** The edge record of the first sample edge with every flag off. *)
Definition sample_unrequested_edge :=
  Eval vm_compute in
    sample_AddTripEdge all_off (sample_edge 100 1 true 0 0 0 1 0 true).

(** A second admin descriptor. *)
Definition other_admin : AdminInfo :=
  {| country_text := "United States"; state_text := "Ohio";
     country_iso := "US"; state_iso := "OH" |}.

(** The edge record of the first sample edge with every flag on, and that
    of the same edge taken against its direction. *)
Definition sample_edge_forward :=
  Eval vm_compute in
    sample_AddTripEdge all_on (sample_edge 100 1 true 0 0 0 1 0 true).

Definition sample_edge_reverse :=
  Eval vm_compute in
    sample_AddTripEdge all_on (sample_edge 100 1 false 0 0 0 1 0 true).

(** A replay in the manner of [recost_forward]: one label for every valid
    edge id, until the invalid id comes back; it gives up after [fuel]
    edges.  The second replay throws on its first edge. *)
Fixpoint sample_replay (fuel : nat) : Recosting (number := QArith_base.Q) :=
  match fuel with
  | O => RecostThrow
  | S fuel' =>
      RecostEdge (fun e =>
        if Is_Valid e
        then RecostLabel
               {| label_transition_cost :=
                    {| secs := QArith_base.Qmake 1 1; cost := QArith_base.Qmake 1 1 |};
                  label_cost :=
                    {| secs := QArith_base.Qmake 9 1; cost := QArith_base.Qmake 9 1 |} |}
               (sample_replay fuel')
        else RecostReturn)
  end.

Definition sample_failing_replay : Recosting (number := QArith_base.Q) :=
  RecostEdge (fun _ => RecostThrow).

(** Three nodes as [Build] leaves them before recosting. *)
Definition sample_leg_nodes
  : list (TripLeg_Node (number := QArith_base.Q)) :=
  let with_edge :=
    {| edge := Some unset_edge; n_type := None; fork := None;
       cost_elapsed := None; cost_transition := None; admin_index := None;
       time_zone := None; recosts := [] |} in
  [with_edge; with_edge;
   {| edge := None; n_type := None; fork := None; cost_elapsed := None;
      cost_transition := None; admin_index := None; time_zone := None;
      recosts := [] |}].

(** A through location snapped to the start of [B]. *)
Definition sample_through : Location (number := QArith_base.Q) :=
  sample_location 2 (QArith_base.Qmake 0 1) (QArith_base.Qmake 100 1).

Definition sample_locations :=
  Eval vm_compute in
    CopyLocations [] sample_origin [sample_through] sample_dest sample_path.

(** The sample tile with a traffic record whose first breakpoint lies at
    102/255 = 0.4 of the edge. *)
Definition sample_traffic_tile
  : GraphTile (PointLL := QArith_base.Q) :=
  {| tile_directededge := tile_directededge sample_tile;
     directededge_at := directededge_at sample_tile;
     node := node sample_tile;
     admininfo := admininfo sample_tile;
     edgeinfo := edgeinfo sample_tile;
     GetSigns := GetSigns sample_tile;
     turnlanes := turnlanes sample_tile;
     GetLaneConnectivity := GetLaneConnectivity sample_tile;
     GetAccessRestrictions := GetAccessRestrictions sample_tile;
     trafficspeed := fun _ =>
       {| breakpoint1 := 102; breakpoint2 := 0; speed3 := 127 |};
     has_elevation := has_elevation sample_tile;
     dataset_id := dataset_id sample_tile;
     GetTransitDeparture := GetTransitDeparture sample_tile;
     GetTransitRoute := GetTransitRoute sample_tile;
     GetName := GetName sample_tile;
     GetOpposingEdgeId := GetOpposingEdgeId sample_tile |}.

(** [SetShapeAttributes] on the whole of [A], driven in 10 seconds, from
    its first shape point on. *)
Definition sample_SetShapeAttributes (tile : GraphTile (PointLL := QArith_base.Q))
    (cut_for_traffic : bool) :=
  SetShapeAttributes all_on tile (sample_edge 100 1 true 0 0 0 1 0 true)
    [QArith_base.Qmake 0 1; QArith_base.Qmake 50 1; QArith_base.Qmake 100 1]
    O (Some {| sa_time := []; sa_length := []; sa_speed := [] |})
    (QArith_base.Qmake 0 1) (QArith_base.Qmake 1 1) (QArith_base.Qmake 10 1)
    cut_for_traffic.

Definition sample_shape_cut :=
  Eval vm_compute in sample_SetShapeAttributes sample_traffic_tile true.

Definition sample_shape_uncut :=
  Eval vm_compute in sample_SetShapeAttributes sample_traffic_tile false.

(** An edge open to pedestrians in the direction in which it is stored
    only, walked against that direction. *)
Definition sample_footway : DirectedEdge := sample_edge 100 1 false 0 0 0 2 0 false.

Definition sample_edge_walked :=
  Eval vm_compute in
    AddTripEdge all_on (gid 0) 0 0 kPedestrian 0 (Some sample_costing)
      sample_footway true sample_tile 43200 0 false None (-1).

Definition sample_recosted :=
  Eval vm_compute in
    AccumulateRecostingInfoForward [sample_replay 5; sample_failing_replay]
      sample_leg_nodes.

(** The node data of the sample tile: the middle node has two edges, no
    node has a transition, and stop 0 is the only transit stop. *)
#[local] Instance sample_node_data
  : NodeData (PointLL := QArith_base.Q) := {|
  heading := fun _ local => 90 * local;
  local_driveability := fun _ _ => TripLeg_Traversability_kBoth;
  name_consistency := fun _ _ => true;
  is_shortcut := fun _ => false;
  shortcut := fun _ => 0;
  superseded := fun _ => 0;
  edge_count := fun n => if edge_index n =? 1 then 2 else 1;
  transition_count := fun _ => 0;
  transition_index := fun _ => 0;
  transition := fun _ _ => None;
  stop_index := fun n => edge_index n;
  latlng := fun n _ => QArith_base.Qmake (100 * edge_index n) 1;
  GetTransitStop := fun _ idx =>
    if idx =? 0
    then Some {| ts_one_stop_offset := 1; ts_name_offset := 0 |} else None;
  kTransitStation := 5;
  kTransitEgress := 4
|}.

(** The middle node as a transit station. *)
Definition sample_station : NodeInfo :=
  {| node_type := 5; is_fork := false; ni_admin_index := 0; timezone := 0;
     edge_index := 1; drive_on_right := true;
     named_intersection := false; is_transit := true |}.

(** The intersecting edges of the middle node when the path leaves it
    over [B] and did not come over [A]. *)
Definition sample_intersecting :=
  Eval vm_compute in
    intersecting_edges (fun _ => true) sample_reader sample_tile (sample_node 1)
      (gid 1) (sample_edge 150 2 true 0 1 1 1 1 false) None 7.



(** A reader whose [nodeinfo] answers for node 1 although [GetGraphTile]
    finds no tile for that node. *)
Definition sample_split_reader
  : GraphReader (PointLL := QArith_base.Q) :=
  {| GetGraphTile := fun g =>
       if g =? gid 1 then None else GetGraphTile sample_reader g;
     GetOpposingEdge := GetOpposingEdge sample_reader;
     nodeinfo := nodeinfo sample_reader |}.

(** The one step over [B] taken against the edge: from the middle of [B]
    back to 30 m along it. *)
Definition sample_backward_build
    (graphreader : GraphReader (PointLL := QArith_base.Q)) :=
  Build [] all_on graphreader sample_mode_costing [sample_step 2 8]
    (sample_location 2 (QArith_base.Qmake 1 2) (QArith_base.Qmake 175 1))
    (sample_location 2 (QArith_base.Qmake 1 5) (QArith_base.Qmake 130 1))
    [] false None.

(** * The properties on the small graph *)

Example sample_build_nodes :
  (fun r => length (leg_node r.1)) <$> sample_build all_on [] None = Some 3%nat.
Proof. vm_compute. reflexivity. Qed.

Lemma sample_leg_eq : sample_build all_on [] None = sample_leg.
Proof. vm_compute. reflexivity. Qed.

Lemma sample_leg_trimmed_eq :
  sample_build all_on [] (Some sample_trimming) = sample_leg_trimmed.
Proof. vm_compute. reflexivity. Qed.

Lemma sample_leg_admin_index_only_eq :
  sample_build admin_index_only [] None = sample_leg_admin_index_only.
Proof. vm_compute. reflexivity. Qed.

(** C4 on the sample path with a trimmed begin at edge 1: the shape
    indices of the two edge records are 0..2 and 3..4. *)
Lemma Build_shape_indices_contiguous_witness :
  exists leg et' n1 n2 e1 e2,
    sample_build all_on [] (Some sample_trimming) = Some (leg, et') /\
    leg_node leg !! 0%nat = Some n1 /\ leg_node leg !! 1%nat = Some n2 /\
    edge n1 = Some e1 /\ edge n2 = Some e2 /\
    trimmed_begin (Some sample_trimming) 1 = true /\
    end_shape_index e1 = Some 2 /\ begin_shape_index e2 = Some (2 + 1).
Proof.
  pose proof sample_leg_trimmed_eq as E. unfold sample_leg_trimmed in E.
  eexists _, _, _, _, _, _. split; [exact E|].
  split; [reflexivity|]. split; [reflexivity|].
  split; [reflexivity|]. split; [reflexivity|].
  assert (trimmed_begin (Some sample_trimming) 1 = true) as Ht
    by (vm_compute; reflexivity).
  split; [exact Ht|].
  destruct (Build_shape_indices_contiguous _ _ _ _ _ _ _ _ _ _ _ _ E
              eq_refl eq_refl O _ _ _ _ eq_refl eq_refl eq_refl eq_refl)
    as (end_index & begin_index & He & Hb & Hr & _ & Hplus).
  destruct (Hplus Ht) as [_ Hb1]. simpl in He. injection He as <-.
  split; [reflexivity|]. rewrite Hb. f_equal. apply Hb1. lia.
Defined.

(** C7 as amended, on the sample path with everything requested: every
    node carries index 0 and the leg has one admin. *)
Lemma Build_admin_index_valid_witness :
  exists leg et',
    sample_build all_on [] None = Some (leg, et') /\
    length (admin leg) = 1%nat /\
    Forall (fun n => exists i, admin_index n = Some i /\
                               0 <= i < Z.of_nat (length (admin leg)))
           (leg_node leg).
Proof.
  pose proof sample_leg_eq as E. unfold sample_leg in E.
  eexists _, _. split; [exact E|]. split; [reflexivity|].
  apply Forall_forall. intros n Hn.
  assert (exists i, admin_index n = Some i) as [i Hi].
  { revert n Hn. apply Forall_forall. repeat constructor; by eexists. }
  exists i. split; [exact Hi|].
  destruct (Build_admin_index_valid _ _ _ _ _ _ _ _ _ _ _ _ E eq_refl n i Hn Hi)
    as [[Hok|(path_begin & opp & Hpath & _)] _]; [exact Hok|].
  discriminate Hpath.
Defined.

(** C7 as stated fails: with only [node.admin_index] requested, [Build]
    succeeds, the first node carries admin index 0, and the admin list of
    the leg is empty. *)
Lemma Build_admin_index_outside_list :
  exists leg et' n,
    sample_build admin_index_only [] None = Some (leg, et') /\
    leg_node leg !! 0%nat = Some n /\
    admin_index n = Some 0 /\
    length (admin leg) = 0%nat /\
    ~ (0 < Z.of_nat (length (admin leg))).
Proof.
  pose proof sample_leg_admin_index_only_eq as E.
  unfold sample_leg_admin_index_only in E.
  eexists _, _, _. split; [exact E|].
  split; [reflexivity|]. split; [reflexivity|]. split; [reflexivity|].
  simpl. lia.
Qed.

Lemma sample_unrequested_edge_eq :
  sample_AddTripEdge all_off (sample_edge 100 1 true 0 0 0 1 0 true) =
  sample_unrequested_edge.
Proof. vm_compute. reflexivity. Qed.

(** C2 as amended, on the first sample edge with every flag off. *)
Lemma AddTripEdge_controller_gated_witness :
  exists e,
    sample_AddTripEdge all_off (sample_edge 100 1 true 0 0 0 1 0 true) = Some e /\
    (forall a, field_unset a e) /\
    turn_lanes e = [5; 9] /\ has_time_restrictions e = Some false.
Proof.
  pose proof sample_unrequested_edge_eq as E.
  unfold sample_unrequested_edge, sample_AddTripEdge in E.
  eexists. split; [exact E|].
  destruct (AddTripEdge_controller_gated _ _ _ _ _ _ _ _ _ _ _ _ _ _ _ _ E)
    as (Hg & Ht & _ & Hr & _).
  split_and!; [intros a; by apply Hg|exact Ht|exact Hr].
Defined.

(** C2 as stated fails: with every controller flag off the edge record of
    the first sample edge still carries its turn lanes and a value for
    [has_time_restrictions]. *)
Lemma AddTripEdge_ungated_fields :
  (exists e de,
     sample_edges !! 0%nat = Some de /\
     (forall a, attributes all_off a = false) /\
     sample_AddTripEdge all_off de = Some e /\
     turn_lanes e = [5; 9] /\ has_time_restrictions e = Some false) /\
  ~ all_population_gated (number := QArith_base.Q) (PointLL := QArith_base.Q).
Proof.
  split.
  - eexists _, _. split; [reflexivity|]. split; [done|].
    split; [vm_compute; reflexivity|]. split; reflexivity.
  - intros Hall.
    destruct (Hall all_off (gid 0) 0 0 kDrive 0 (Some sample_costing)
                (sample_edge 100 1 true 0 0 0 1 0 true) true sample_tile
                43200 0 false None (-1) _ (fun _ => eq_refl) eq_refl)
      as (_ & _ & Hr).
    discriminate Hr.
Qed.

(** C5 on the references a, b, a. *)
Lemma GetAdminIndex_interning_witness :
  (intern_seq [sample_admin; other_admin; sample_admin]).2 =
    [sample_admin; other_admin] /\
  (intern_seq [sample_admin; other_admin; sample_admin]).1.1 = [0; 1; 0].
Proof.
  destruct (GetAdminIndex_interning [sample_admin; other_admin; sample_admin])
    as [Hl _].
  - vm_compute. discriminate.
  - split; [exact Hl|]. vm_compute. reflexivity.
Defined.

Lemma sample_edge_forward_eq :
  sample_AddTripEdge all_on (sample_edge 100 1 true 0 0 0 1 0 true) =
  sample_edge_forward.
Proof. vm_compute. reflexivity. Qed.

Lemma sample_edge_reverse_eq :
  sample_AddTripEdge all_on (sample_edge 100 1 false 0 0 0 1 0 true) =
  sample_edge_reverse.
Proof. vm_compute. reflexivity. Qed.

(** C6 on the first sample edge, which cars may use forward only, and the
    same edge taken against its direction. *)
Lemma AddTripEdge_traversability_flip_witness :
  exists e1 e2,
    sample_AddTripEdge all_on (sample_edge 100 1 true 0 0 0 1 0 true) = Some e1 /\
    sample_AddTripEdge all_on (sample_edge 100 1 false 0 0 0 1 0 true) = Some e2 /\
    traversability e1 = Some TripLeg_Traversability_kForward /\
    traversability e2 = Some TripLeg_Traversability_kBackward.
Proof.
  pose proof sample_edge_forward_eq as E1.
  pose proof sample_edge_reverse_eq as E2.
  unfold sample_edge_forward, sample_AddTripEdge in E1.
  unfold sample_edge_reverse, sample_AddTripEdge in E2.
  eexists _, _. split; [exact E1|]. split; [exact E2|].
  pose proof (fun F1 F2 FA RA =>
                AddTripEdge_traversability_flip _ _ _ _ _ _ _ _ _ _ _ _ _ _ _ _
                  _ _ _ _ _ _ _ _ _ _ _ _ _ _ F1 F2 FA RA E1 E2) as Hflip.
  destruct (Hflip eq_refl eq_refl eq_refl eq_refl) as (H1 & H2 & _).
  split; [exact H1|]. rewrite H2, H1. reflexivity.
Defined.

(** C10 on the sample path with a through location on [B]. *)
Lemma CopyLocations_through_scan_witness :
  is_Some (CopyLocations [] sample_origin
             [sample_location 2 (QArith_base.Qmake 0 1) (QArith_base.Qmake 100 1)]
             sample_dest sample_path).
Proof.
  assert (sample_path ≠ []) as Hne by discriminate.
  apply (proj1 (CopyLocations_through_scan [] sample_origin sample_dest
                  [sample_location 2 (QArith_base.Qmake 0 1)
                     (QArith_base.Qmake 100 1)]
                  sample_path Hne)).
  simpl. exists 1%nat, (sample_step 2 16).
  split; [lia|]. split; [reflexivity|].
  split; [by vm_compute|]. split; [|exact I].
  intros k pk Hk. assert (k = O) as -> by lia. intros [= <-].
  by vm_compute.
Defined.

Lemma sample_replay_follows fuel : replay O (sample_replay fuel).
Proof.
  induction fuel as [|fuel IH]; simpl; [constructor|].
  constructor; intros e He; rewrite He; by repeat constructor.
Qed.

Lemma sample_failing_replay_follows : replay O sample_failing_replay.
Proof. constructor; intros; constructor. Qed.

Example sample_recosts :
  fmap (M := list) recosts <$>
    AccumulateRecostingInfoForward [sample_replay 5; sample_failing_replay]
      sample_leg_nodes =
  let q n := QArith_base.Qmake n 1 in
  let c n := Some {| secs := q n; cost := q n |} in
  Some [ [ {| r_elapsed_cost := c 0; r_transition_cost := c 1 |}; null_recost ];
         [ {| r_elapsed_cost := c 9; r_transition_cost := c 1 |}; null_recost ];
         [ {| r_elapsed_cost := c 9; r_transition_cost := c 0 |}; null_recost ] ].
Proof. vm_compute. reflexivity. Qed.

(** The same two replays at the end of [Build] on the sample path. *)
Example sample_build_recosts :
  (fun r => (fun n => length (recosts n)) <$> leg_node r.1) <$>
    sample_build all_on [sample_replay 5; sample_failing_replay] None =
  Some [2; 2; 2]%nat.
Proof. vm_compute. reflexivity. Qed.

(** C3 on a leg of three nodes with a replay that returns and one that
    throws. *)
Lemma AccumulateRecostingInfoForward_recosts_witness :
  exists nodes',
    AccumulateRecostingInfoForward [sample_replay 5; sample_failing_replay]
      sample_leg_nodes = Some nodes' /\
    Forall (fun n' => length (recosts n') = 2%nat) nodes'.
Proof.
  destruct (AccumulateRecostingInfoForward_recosts
              [sample_replay 5; sample_failing_replay] sample_leg_nodes O)
    as (nodes' & Hacc & Hgrown & _).
  - eexists [_; _], _. split; [reflexivity|]. split; [reflexivity|].
    repeat constructor; by eexists.
  - repeat constructor.
  - constructor; [apply sample_replay_follows|].
    constructor; [apply sample_failing_replay_follows|constructor].
  - exists nodes'. split; [exact Hacc|].
    apply Forall_forall. intros n' Hn'.
    apply list_elem_of_lookup in Hn' as [i Hi].
    destruct (Forall2_lookup_r _ _ _ _ _ Hgrown Hi) as (n & _ & _ & _ & Hlen).
    exact Hlen.
Defined.

Lemma sample_locations_eq :
  CopyLocations [] sample_origin [sample_through] sample_dest sample_path =
  sample_locations.
Proof. vm_compute. reflexivity. Qed.

(** The locations of the sample path with one through location: three,
    the middle one cut down to its candidate on [B]. *)
Lemma CopyLocations_result_witness :
  exists r,
    CopyLocations [] sample_origin [sample_through] sample_dest sample_path =
      Some r /\
    length r = 3%nat.
Proof.
  pose proof sample_locations_eq as E. unfold sample_locations in E.
  eexists. split; [exact E|].
  assert (sample_path ≠ []) as Hne by discriminate.
  destruct (CopyLocations_result _ _ _ _ _ _ Hne E)
    as (path_begin & path_last & tps & _ & _ & _ & Hlen & _).
  exact Hlen.
Defined.

(** The leg of the sample path has its two end locations, both
    projected. *)
Lemma Build_locations_witness :
  exists leg et',
    sample_build all_on [] None = Some (leg, et') /\
    length (location leg) = 2%nat /\
    exists l, location leg !! O = Some l /\ is_Some (projected_ll l).
Proof.
  pose proof sample_leg_eq as E. unfold sample_leg in E.
  eexists _, _. split; [exact E|].
  destruct (Build_locations _ _ _ _ _ _ _ _ _ _ _ _ E) as (Hlen & _ & Hfirst & _).
  split; [exact Hlen|exact Hfirst].
Defined.

(** The edge ids of the sample leg are those of the two steps, in order. *)
Lemma Build_edge_ids_witness :
  exists leg et',
    sample_build all_on [] None = Some (leg, et') /\
    exists edges,
      edge <$> leg_node leg = (Some <$> edges) ++ [None] /\
      id <$> edges = [Some (gid 0); Some (gid 2)].
Proof.
  pose proof sample_leg_eq as E. unfold sample_leg in E.
  eexists _, _. split; [exact E|].
  destruct (Build_edge_ids _ _ _ _ _ _ _ _ _ _ _ _ E) as (edges & Hshape & Hids).
  exists edges. split; [exact Hshape|]. rewrite Hids. reflexivity.
Defined.

(** The elapsed costs of the sample leg: zero, then those of the steps. *)
Lemma Build_node_costs_witness :
  exists leg et',
    sample_build all_on [] None = Some (leg, et') /\
    (1 < length sample_path)%nat /\
    cost_elapsed <$> leg_node leg =
      Some <$> [zero_cost; elapsed_cost (sample_step 0 8);
                elapsed_cost (sample_step 2 16)].
Proof.
  pose proof sample_leg_eq as E. unfold sample_leg in E.
  assert (1 < length sample_path)%nat as Hlen by (simpl; lia).
  eexists _, _. split; [exact E|]. split; [exact Hlen|].
  destruct (Build_node_costs _ _ _ _ _ _ _ _ _ _ _ _ E) as [Hmulti _].
  destruct (Hmulti Hlen) as [He _]. rewrite He. reflexivity.
Defined.

(** The admin indices of the sample leg are those of interning the admin
    of every node of the path. *)
Lemma Build_admins_interned_witness :
  exists leg et',
    sample_build all_on [] None = Some (leg, et') /\
    (1 < length sample_path)%nat /\
    attributes all_on kNodeaAdminIndex = true /\
    exists refs,
      admin_index <$> leg_node leg = Some <$> (intern_seq refs).1.1 /\
      admin leg = AssignAdmins all_on (intern_seq refs).2.
Proof.
  pose proof sample_leg_eq as E. unfold sample_leg in E.
  assert (1 < length sample_path)%nat as Hlen by (simpl; lia).
  eexists _, _. split; [exact E|]. split; [exact Hlen|]. split; [reflexivity|].
  destruct (Build_admins_interned _ _ _ _ _ _ _ _ _ _ _ _ E Hlen eq_refl)
    as (path_begin & startnode & refs & final & a & _ & _ & _ & _ & Hidx & Hadm).
  exists (refs ++ [a]). split; [exact Hidx|exact Hadm].
Defined.

(** Every step of the sample path is found in the graph and has a costing
    for its mode. *)
Lemma Build_reads_path_witness :
  exists leg et',
    sample_build all_on [] None = Some (leg, et') /\
    Forall (fun step => is_Some (step_edge sample_reader step) /\
                        is_Some (sample_mode_costing (mode step))) sample_path.
Proof.
  pose proof sample_leg_eq as E. unfold sample_leg in E.
  eexists _, _. split; [exact E|].
  exact (proj2 (Build_reads_path _ _ _ _ _ _ _ _ _ _ _ _ E)).
Defined.

(** The trimming map of the sample path keeps its one key, and its entry
    for edge 1, the last edge, is marked at the end only. *)
Lemma Build_trimming_map_witness :
  exists leg et',
    sample_build all_on [] (Some sample_trimming) = Some (leg, et') /\
    (forall j, is_Some (trim_lookup et' j) <->
               is_Some (trim_lookup (Some sample_trimming) j)) /\
    exists entry entry',
      trim_lookup (Some sample_trimming) 1 = Some entry /\
      trim_lookup et' 1 = Some entry' /\
      entry'.1 = entry.1 /\ trim entry.2 = false /\ trim entry'.2 = true.
Proof.
  pose proof sample_leg_trimmed_eq as E. unfold sample_leg_trimmed in E.
  eexists _, _. split; [exact E|].
  destruct (Build_trimming_map _ _ _ _ _ _ _ _ _ _ _ _ E)
    as (path_begin & path_last & _ & _ & _ & Hkeys & _).
  split; [exact Hkeys|].
  eexists _, _. split; [reflexivity|]. split; [reflexivity|].
  split; [reflexivity|]. split; reflexivity.
Defined.

(** The shape indices of the sample leg start at 0 and end at the last
    point of the shape. *)
Lemma Build_shape_cover_witness :
  exists leg et' points,
    sample_build all_on [] None = Some (leg, et') /\
    bbox leg = Some points /\ leg_shape leg = Some points /\
    length points = 4%nat.
Proof.
  pose proof sample_leg_eq as E. unfold sample_leg in E.
  eexists _, _, _. split; [exact E|].
  destruct (Build_shape_cover _ _ _ _ _ _ _ _ _ _ _ _ E)
    as (points & n0 & e0 & n1 & e1 & Hbbox & Hshape & _).
  split; [reflexivity|]. split; [|reflexivity].
  rewrite Hshape. simpl in Hbbox. injection Hbbox as <-. reflexivity.
Defined.

Lemma sample_shape_cut_eq :
  sample_SetShapeAttributes sample_traffic_tile true = sample_shape_cut.
Proof. vm_compute. reflexivity. Qed.

Lemma sample_shape_uncut_eq :
  sample_SetShapeAttributes sample_traffic_tile false = sample_shape_uncut.
Proof. vm_compute. reflexivity. Qed.

(** The shape of [A] with a traffic breakpoint at 0.4: one point is cut
    in, and every list has three entries for the three segments. *)
Lemma SetShapeAttributes_segments_witness :
  exists shape' sa',
    sample_SetShapeAttributes sample_traffic_tile true = Some (shape', Some sa') /\
    length shape' = 4%nat /\
    length (sa_time sa') = 3%nat /\ length (sa_length sa') = 3%nat /\
    length (sa_speed sa') = 3%nat.
Proof.
  pose proof sample_shape_cut_eq as E.
  unfold sample_shape_cut, sample_SetShapeAttributes in E.
  eexists _, _. split; [exact E|]. split; [reflexivity|].
  destruct (SetShapeAttributes_segments _ _ _ _ _ _ _ _ _ _ _ _ E)
    as (sa' & Hsa & _ & _ & _ & Ht & Hl & Hs).
  injection Hsa as <-. split; [exact Ht|]. split; [exact Hl|exact Hs].
Defined.

(** The same call without cutting for traffic leaves the shape as it is. *)
Lemma SetShapeAttributes_no_traffic_witness :
  exists shape' attrs',
    sample_SetShapeAttributes sample_traffic_tile false = Some (shape', attrs') /\
    shape' =
      [QArith_base.Qmake 0 1; QArith_base.Qmake 50 1; QArith_base.Qmake 100 1].
Proof.
  pose proof sample_shape_uncut_eq as E.
  unfold sample_shape_uncut, sample_SetShapeAttributes in E.
  eexists _, _. split; [exact E|].
  exact (SetShapeAttributes_no_traffic _ _ _ _ _ _ _ _ _ _ _ E).
Defined.

(** The first sample edge, driven: a vehicle type and no other. *)
Lemma AddTripEdge_travel_types_witness :
  exists e,
    sample_AddTripEdge all_on (sample_edge 100 1 true 0 0 0 1 0 true) = Some e /\
    is_Some (vehicle_type e) /\
    pedestrian_type e = None /\ bicycle_type e = None.
Proof.
  pose proof sample_edge_forward_eq as E.
  unfold sample_edge_forward, sample_AddTripEdge in E.
  eexists. split; [exact E|].
  assert (is_Some (vehicle_type
                     (default unset_edge
                        (sample_AddTripEdge all_on
                           (sample_edge 100 1 true 0 0 0 1 0 true)))))
    as Hv by (by eexists).
  split; [exact Hv|].
  pose proof (AddTripEdge_travel_types _ _ _ _ _ _ _ _ _ _ _ _ _ _ _ _ E) as H.
  cbv zeta in H. destruct H as (Hvehicle & _).
  destruct (Hvehicle Hv) as (_ & Hp & Hb). split; [exact Hp|exact Hb].
Defined.

Lemma sample_recosted_eq :
  AccumulateRecostingInfoForward [sample_replay 5; sample_failing_replay]
    sample_leg_nodes = sample_recosted.
Proof. vm_compute. reflexivity. Qed.

(** Recosting the three sample nodes changes their recosts only. *)
Lemma AccumulateRecostingInfoForward_frame_witness :
  exists nodes',
    AccumulateRecostingInfoForward [sample_replay 5; sample_failing_replay]
      sample_leg_nodes = Some nodes' /\
    length nodes' = 3%nat /\
    Forall2 (fun n n' => strip n' = strip n) sample_leg_nodes nodes'.
Proof.
  pose proof sample_recosted_eq as E. unfold sample_recosted in E.
  eexists. split; [exact E|].
  destruct (AccumulateRecostingInfoForward_frame _ _ _ E) as (Hlen & Hframe & _).
  split; [exact Hlen|exact Hframe].
Defined.

(** Interning the references a, b, a: no admin is listed twice and the
    indices are those of the list. *)
Lemma intern_seq_dense_witness :
  Z.of_nat (length (first_refs [sample_admin; other_admin; sample_admin]))
    <= 2 ^ 32 /\
  NoDup (intern_seq [sample_admin; other_admin; sample_admin]).2 /\
  forall i, i ∈ (intern_seq [sample_admin; other_admin; sample_admin]).1.1 <->
            0 <= i < 2.
Proof.
  assert (Z.of_nat (length (first_refs [sample_admin; other_admin; sample_admin]))
            <= 2 ^ 32) as Hn by (vm_compute; discriminate).
  split; [exact Hn|].
  destruct (intern_seq_dense _ Hn) as (_ & Hnd & _ & Hdense & _).
  split; [exact Hnd|exact Hdense].
Defined.

Lemma sample_edge_walked_eq :
  AddTripEdge all_on (gid 0) 0 0 kPedestrian 0 (Some sample_costing)
    sample_footway true sample_tile 43200 0 false None (-1) =
  sample_edge_walked.
Proof. vm_compute. reflexivity. Qed.

(** The sample footway walked against its direction is traversable
    backward as a path edge and walkable forward as an intersecting
    edge. *)
Lemma AddTripIntersectingEdge_direction_witness :
  exists e,
    AddTripEdge all_on (gid 0) 0 0 kPedestrian 0 (Some sample_costing)
      sample_footway true sample_tile 43200 0 false None (-1) = Some e /\
    attributes all_on kEdgeTraversability = true /\
    traversability e = Some TripLeg_Traversability_kBackward /\
    walkability (AddTripIntersectingEdge (fun _ => true) sample_footway None 0
                   (sample_node 1) sample_footway) =
      Some TripLeg_Traversability_kForward.
Proof.
  pose proof sample_edge_walked_eq as E. unfold sample_edge_walked in E.
  eexists. split; [exact E|]. split; [reflexivity|].
  pose proof (AddTripIntersectingEdge_direction (fun _ => true) _ _ _ _ _ _ _ _
                _ _ _ _ _ _ _ _ sample_footway None 0 (sample_node 1) E eq_refl)
    as H.
  cbv zeta in H. destruct H as (Hwalk & _).
  split; [|reflexivity]. rewrite (Hwalk eq_refl (or_introl eq_refl)). reflexivity.
Defined.

Lemma sample_intersecting_eq :
  intersecting_edges (fun _ => true) sample_reader sample_tile (sample_node 1)
    (gid 1) (sample_edge 150 2 true 0 1 1 1 1 false) None 7 =
  sample_intersecting.
Proof. vm_compute. reflexivity. Qed.

(** At the middle node, left over [B], the one intersecting edge is the
    opposing edge of [A]. *)
Lemma intersecting_edges_listed_witness :
  exists ies,
    intersecting_edges (fun _ => true) sample_reader sample_tile (sample_node 1)
      (gid 1) (sample_edge 150 2 true 0 1 1 1 1 false) None 7 = Some ies /\
    length ies = 1%nat /\
    exists selection,
      intersecting_selection sample_reader sample_tile (sample_node 1) (gid 1)
        (sample_edge 150 2 true 0 1 1 1 1 false) 7 = Some selection /\
      Forall (fun nd => localedgeidx nd.2 ≠ 1) selection.
Proof.
  pose proof sample_intersecting_eq as E. unfold sample_intersecting in E.
  eexists. split; [exact E|]. split; [reflexivity|].
  destruct (intersecting_edges_listed _ _ _ _ _ _ _ _ _ E)
    as (selection & Hsel & _ & Hall & _).
  exists selection. split; [exact Hsel|].
  eapply Forall_impl; [exact Hall|]. intros nd (_ & _ & Hne). exact Hne.
Defined.

(** The middle sample node as a station: the call returns, with a station
    block and no egress block. *)
Lemma AddTransitNodes_blocks_witness :
  kTransitStation ≠ kTransitEgress /\
  exists station,
    AddTransitNodes (fun _ => true) sample_station (gid 1) sample_tile
      sample_tile = Some (Some station, None).
Proof.
  assert (kTransitStation ≠ kTransitEgress) as Hne by discriminate.
  split; [exact Hne|].
  destruct (AddTransitNodes_blocks (fun _ => true) sample_station (gid 1)
              sample_tile sample_tile Hne) as [_ Hblocks].
  destruct (AddTransitNodes (fun _ => true) sample_station (gid 1) sample_tile
              sample_tile) as [[station egress]|] eqn:Hcall;
    [|by vm_compute in Hcall].
  destruct (Hblocks _ _ eq_refl) as (Hs & Hg & _).
  destruct (proj2 Hs eq_refl) as [info ->].
  destruct egress as [info'|]; [|by eexists].
  pose proof (proj1 Hg (ex_intro _ info' eq_refl)) as Hbad.
  by vm_compute in Hbad.
Defined.

(** The first sample edge with the speed requested and no costing: the
    call stops. *)
Lemma AddTripEdge_stops_witness :
  laneconnectivity (sample_edge 100 1 true 0 0 0 1 0 true) &&
    access_restriction (sample_edge 100 1 true 0 0 0 1 0 true) = false /\
  end_restriction (sample_edge 100 1 true 0 0 0 1 0 true) = false /\
  AddTripEdge all_on (gid 0) 0 0 kDrive 0 None
    (sample_edge 100 1 true 0 0 0 1 0 true) true sample_tile 43200 0 false
    None (-1) = None /\
  is_Some (sample_AddTripEdge all_on (sample_edge 100 1 true 0 0 0 1 0 true)).
Proof.
  split; [reflexivity|]. split; [reflexivity|]. split.
  - apply (AddTripEdge_stops all_on (gid 0) 0 0 kDrive 0 None
             (sample_edge 100 1 true 0 0 0 1 0 true) true sample_tile 43200 0
             false None (-1) eq_refl eq_refl).
    left. split; reflexivity.
  - destruct (sample_AddTripEdge all_on (sample_edge 100 1 true 0 0 0 1 0 true))
      as [e|] eqn:E; [by eexists|].
    apply (AddTripEdge_stops all_on (gid 0) 0 0 kDrive 0 (Some sample_costing)
             (sample_edge 100 1 true 0 0 0 1 0 true) true sample_tile 43200 0
             false None (-1) eq_refl eq_refl) in E.
    destruct E as [[_ E]|[E _]]; discriminate E.
Defined.


(** The same builder on the sample path of two steps: three nodes, two
    edge records. *)
Example sample_build_counts :
  exists leg et',
    sample_build all_on [] None = Some (leg, et') /\
    length (leg_node leg) = 3%nat /\ edges_count (leg_node leg) = 2%nat.
Proof.
  pose proof sample_leg_eq as E. unfold sample_leg in E.
  eexists _, _. split; [exact E|]. split; reflexivity.
Qed.

(** The exception of C7 needs a reader that answers for a node without
    finding its tile: on the step over [B] taken against the edge, such a
    reader gives the last node the index 0 and the leg no admin, whereas
    the sample reader gives it the index 0 of a list of one admin. *)
Example Build_admin_index_missing_end_tile :
  (fun r => (admin_index <$> last (leg_node r.1), length (admin r.1))) <$>
    sample_backward_build sample_split_reader = Some (Some (Some 0), O) /\
  (fun r => (admin_index <$> last (leg_node r.1), length (admin r.1))) <$>
    sample_backward_build sample_reader = Some (Some (Some 0), 1%nat) /\
  is_Some (nodeinfo sample_split_reader (gid 1)) /\
  GetGraphTile sample_split_reader (gid 1) = None.
Proof. split_and!; [by vm_compute..|by eexists|done]. Qed.
